(** * natsjson: a typed JSON layer over a NATS JetStream key-value bucket
      and pull consumer.

    Shallow embedding of [kv.go] (KV, Iterator) and of the two versions of
    [BatchProcessor.Process] (the plain one of [batch.go] and the logging
    one), with the broker taken as an interface whose calls are recorded
    in a trace. *)

From Stdlib Require Import List String Ascii ZArith NArith Lia Bool.
From Stdlib Require Import Strings.Byte DecimalString.
Import ListNotations.

Set Implicit Arguments.
Set Warnings "-register-all".

(* ===================================================================== *)
(** ** Go values: errors *)
(* ===================================================================== *)

(** [jetstream.APIError]: the error payload of a JetStream API response. *)
Record APIError : Type := mkAPIError {
  Code : Z;
  ErrorCode : Z;
  Description : string
}.

(** [jetstream.JSErrCodeStreamWrongLastSequence]. *)
Definition JSErrCodeStreamWrongLastSequence : Z := 10071.

(** A Go [error] value, as far as the program can observe it: its text,
    what it unwraps to, and whether it implements
    [jetstream.JetStreamError].  Equality of these values stands for Go's
    [==] on errors. *)
Inductive error : Type :=
| errorString (s : string)
    (* errors.New, and fmt.Errorf without a wrapping verb: a leaf *)
| jetStreamError (apiErr : option APIError) (text : string)
    (* any value implementing jetstream.JetStreamError: APIError() and
       Error() are what it answers *)
| wrapError (msg : string) (err : error)
    (* fmt.Errorf with one wrapping verb: Unwrap() error *)
| joinError (errs : list error).
    (* errors.Join: Unwrap() []error *)

(** [nil] or an error. *)
Definition goerror : Type := option error.

Definition newline : string := String (ascii_of_nat 10) EmptyString.

Fixpoint concat_sep (sep : string) (l : list string) : string :=
  match l with
  | [] => EmptyString
  | [s] => s
  | s :: rest => (s ++ sep ++ concat_sep sep rest)%string
  end.

(** The [Error()] method. *)
Fixpoint Error (e : error) : string :=
  match e with
  | errorString s => s
  | jetStreamError _ text => text
  | wrapError msg _ => msg
  | joinError errs => concat_sep newline (map Error errs)
  end.

(** [fmt.Errorf(prefix + "%w", err)]. *)
Definition Errorf_w (prefix : string) (err : error) : error :=
  wrapError (prefix ++ Error err) err.

(** [fmt.Errorf(prefix + "%v", err)]: the text only, nothing to unwrap. *)
Definition Errorf_v (prefix : string) (err : error) : error :=
  errorString (prefix ++ Error err).

(** Non-nil elements of a list of possibly-nil errors. *)
Fixpoint non_nil (errs : list goerror) : list error :=
  match errs with
  | [] => []
  | None :: rest => non_nil rest
  | Some e :: rest => e :: non_nil rest
  end.

(** [errors.Join]: nil when every argument is nil, otherwise an error
    wrapping the non-nil arguments in order. *)
Definition errors_Join (errs : list goerror) : goerror :=
  match non_nil errs with
  | [] => None
  | es => Some (joinError es)
  end.

(** [errors.As(err, &target)] with [target] of type
    [jetstream.JetStreamError]: the first error of the chain, depth first,
    that implements the interface; its [APIError()] and text are returned.
    The outer [option] is the boolean result. *)
Fixpoint errors_As_JetStreamError (err : error) : option (option APIError * string) :=
  match err with
  | errorString _ => None
  | jetStreamError a t => Some (a, t)
  | wrapError _ inner => errors_As_JetStreamError inner
  | joinError errs =>
      (fix first (l : list error) : option (option APIError * string) :=
         match l with
         | [] => None
         | e :: rest =>
             match errors_As_JetStreamError e with
             | Some r => Some r
             | None => first rest
             end
         end) errs
  end.

Definition errors_As (err : goerror) : option (option APIError * string) :=
  match err with
  | None => None
  | Some e => errors_As_JetStreamError e
  end.

Definition APIError_eqb (a b : APIError) : bool :=
  (Code a =? Code b)%Z && (ErrorCode a =? ErrorCode b)%Z
  && String.eqb (Description a) (Description b).

(** Go's [==] on two error values. *)
Fixpoint error_eqb (a b : error) : bool :=
  match a, b with
  | errorString s, errorString t => String.eqb s t
  | jetStreamError x s, jetStreamError y t =>
      match x, y with
      | None, None => true
      | Some p, Some q => APIError_eqb p q
      | _, _ => false
      end && String.eqb s t
  | wrapError m e, wrapError n f => String.eqb m n && error_eqb e f
  | joinError l, joinError r =>
      (fix all2 (l r : list error) : bool :=
         match l, r with
         | [], [] => true
         | x :: l', y :: r' => error_eqb x y && all2 l' r'
         | _, _ => false
         end) l r
  | _, _ => false
  end.

(** [jetstream.ErrKeyNotFound]: a client-side JetStream error, without
    an API error payload. *)
Definition ErrKeyNotFound : error :=
  jetStreamError None "nats: key not found".

(** [var ErrOptimisticConcurrencyCheckFailed = errors.New(...)]. *)
Definition ErrOptimisticConcurrencyCheckFailed : error :=
  errorString "optimistic concurrency check failed".

(* ===================================================================== *)
(** ** crypto/sha256 and encoding/hex *)
(* ===================================================================== *)

Module sha256.
Local Open Scope Z_scope.

(** 32-bit words are [Z] in [0, 2^32); every sum wraps. *)
Definition u32 (x : Z) : Z := x mod 2 ^ 32.
Definition add32 (x y : Z) : Z := u32 (x + y).
Definition rotr (n x : Z) : Z :=
  Z.lor (Z.shiftr x n) (u32 (Z.shiftl x (32 - n))).
Definition not32 (x : Z) : Z := Z.lxor x 0xFFFFFFFF.

(** The constants of the algorithm: the first 32 bits of the fractional
    parts of the square roots of the first 8 primes (the initial hash
    value) and of the cube roots of the first 64 primes ([_K]). *)
Definition is_prime (n : nat) : bool :=
  forallb (fun d => negb (Nat.eqb (n mod d) 0)) (seq 2 (n - 2)).

Definition primes : list Z :=
  map Z.of_nat (filter is_prime (seq 2 310)).

(** Integer cube root, bit by bit from the top. *)
Fixpoint cbrt_from (bits : nat) (x r : Z) : Z :=
  match bits with
  | O => r
  | S bits' =>
      let c := r + 2 ^ Z.of_nat bits' in
      if c * c * c <=? x then cbrt_from bits' x c else cbrt_from bits' x r
  end.

Definition init : list Z :=
  Eval vm_compute in
    map (fun p => u32 (Z.sqrt (p * 2 ^ 64))) (firstn 8 primes).

Definition _K : list Z :=
  Eval vm_compute in
    map (fun p => u32 (cbrt_from 40 (p * 2 ^ 96) 0)) primes.

Definition byteZ (b : byte) : Z := Z.of_N (Byte.to_N b).
Definition Zbyte (z : Z) : byte :=
  match Byte.of_N (Z.to_N (z mod 256)) with
  | Some b => b
  | None => x00
  end.

(** Big-endian 32-bit words of a byte sequence (a multiple of 4 long). *)
Fixpoint be_words (p : list byte) : list Z :=
  match p with
  | a :: b :: c :: d :: rest =>
      (Z.lor (Z.shiftl (byteZ a) 24)
         (Z.lor (Z.shiftl (byteZ b) 16)
            (Z.lor (Z.shiftl (byteZ c) 8) (byteZ d)))) :: be_words rest
  | _ => []
  end.

Definition be_bytes32 (w : Z) : list byte :=
  [Zbyte (Z.shiftr w 24); Zbyte (Z.shiftr w 16); Zbyte (Z.shiftr w 8); Zbyte w].

Definition be_bytes64 (w : Z) : list byte :=
  be_bytes32 (Z.shiftr w 32) ++ be_bytes32 w.

Definition word (l : list Z) (i : nat) : Z := nth i l 0.

(** Message schedule: [w] holds the words computed so far; [n] more are
    appended, each from the words 2, 7, 15 and 16 places back. *)
Fixpoint schedule (n : nat) (w : list Z) : list Z :=
  match n with
  | O => w
  | S n' =>
      let i := List.length w in
      let v1 := word w (i - 2) in
      let t1 := Z.lxor (rotr 17 v1) (Z.lxor (rotr 19 v1) (Z.shiftr v1 10)) in
      let v2 := word w (i - 15) in
      let t2 := Z.lxor (rotr 7 v2) (Z.lxor (rotr 18 v2) (Z.shiftr v2 3)) in
      schedule n' (w ++ [add32 (add32 (add32 t1 (word w (i - 7))) t2) (word w (i - 16))])
  end.

(** One round on the working variables a..h. *)
Definition round (s : list Z) (kw : Z * Z) : list Z :=
  match s with
  | [a; b; c; d; e; f; g; h] =>
      let t1 :=
        add32 (add32 (add32 (add32 h
          (Z.lxor (rotr 6 e) (Z.lxor (rotr 11 e) (rotr 25 e))))
          (Z.lxor (Z.land e f) (Z.land (not32 e) g)))
          (fst kw)) (snd kw) in
      let t2 :=
        add32 (Z.lxor (rotr 2 a) (Z.lxor (rotr 13 a) (rotr 22 a)))
              (Z.lxor (Z.land a b) (Z.lxor (Z.land a c) (Z.land b c))) in
      [add32 t1 t2; a; b; c; add32 d t1; e; f; g]
  | _ => s
  end.

(** The block function on one 64-byte chunk. *)
Definition block (h : list Z) (chunk : list byte) : list Z :=
  let w := schedule 48 (be_words chunk) in
  let s := fold_left round (combine _K w) h in
  map (fun p => add32 (fst p) (snd p)) (combine h s).

Fixpoint blocks (n : nat) (h : list Z) (p : list byte) : list Z :=
  match n with
  | O => h
  | S n' => blocks n' (block h (firstn 64 p)) (skipn 64 p)
  end.

(** Padding: 0x80, zeros up to 56 mod 64, then the length in bits as a
    64-bit big-endian integer (the length counter is a uint64). *)
Definition pad (p : list byte) : list byte :=
  let len := Z.of_nat (List.length p) in
  let zeros := Z.to_nat ((55 - len) mod 64) in
  p ++ [x80] ++ repeat x00 zeros ++ be_bytes64 ((len * 8) mod 2 ^ 64).

Definition Sum256 (p : list byte) : list byte :=
  let m := pad p in
  flat_map be_bytes32 (blocks (List.length m / 64) init m).

(** The [hash.Hash] object: the bytes written so far. *)
Definition digest : Type := list byte.
Definition New : digest := [].
Definition Write (d : digest) (p : list byte) : digest := d ++ p.
(** [Sum(b)] appends the hash of what was written to [b]. *)
Definition Sum (d : digest) (b : list byte) : list byte := b ++ Sum256 d.
End sha256.

Module hex.
Definition hextable : string := "0123456789abcdef".

Definition digit (n : nat) : ascii :=
  match String.get n hextable with
  | Some c => c
  | None => "0"%char
  end.

(** [hex.EncodeToString]: two characters of [hextable] per byte, high
    nibble first. *)
Fixpoint EncodeToString (src : list byte) : string :=
  match src with
  | [] => EmptyString
  | v :: rest =>
      let n := N.to_nat (Byte.to_N v) in
      String (digit (n / 16)) (String (digit (n mod 16)) (EncodeToString rest))
  end.
End hex.

(** [strconv]-style decimal text of an integer, as the [%d] verb prints it. *)
Definition itoa (z : Z) : string := NilZero.string_of_int (Z.to_int z).

(* ===================================================================== *)
(** ** What lies outside the repository: JSON, the broker client, the logger *)
(* ===================================================================== *)

(** A Go call that returns [(value, error)] and whose value is only
    looked at when the error is nil. *)
Inductive result (A : Type) : Type :=
| Val (a : A)
| Fail (err : error).
Arguments Fail {A} err.

(** [encoding/json] at the value type [T], and [T]'s zero value.
    [Unmarshal data v] is [json.Unmarshal(data, &v)]: it may have written
    into [v] even when it reports an error. *)
Class Codec (T : Type) : Type := {
  zero : T;
  Marshal : T -> result (list byte);
  Unmarshal : list byte -> T -> T * goerror
}.

(** [jetstream.KeyValueEntry], as far as it is read. *)
Record KeyValueEntry : Type := mkEntry {
  Value : list byte;
  Revision : N
}.

(** [log/slog]: levels and attributes. *)
Inductive Level : Type := LevelDebug | LevelWarn.
Inductive Attr : Type :=
| slog_Int (key : string) (value : Z)
| slog_Any (key : string) (value : error).

(** The broker client and the logger.  [World] is everything they can
    read and change; each method is a function of it.  A method is taken
    to return when it is called (only a receive on a channel may block):
    a panic raised inside the client, such as the one of [Fetch] on a
    negative batch size, is not part of this interface, and what is
    proved below of a call is proved of the calls whose client methods
    and callbacks return. *)
Class External : Type := {
  World : Type;
  Ctx : Type;                       (* context.Context *)
  (* jetstream.KeyValue *)
  KeyValue : Type;
  KeyWatcher : Type;
  WatchOpt : Type;
  IgnoreDeletes : WatchOpt;
  kv_Get : KeyValue -> Ctx -> string -> World -> result KeyValueEntry * World;
  kv_GetRevision : KeyValue -> Ctx -> string -> N -> World -> result KeyValueEntry * World;
  kv_History : KeyValue -> Ctx -> string -> World -> result (list KeyValueEntry) * World;
  kv_Put : KeyValue -> Ctx -> string -> list byte -> World -> (N * goerror) * World;
  kv_Update : KeyValue -> Ctx -> string -> list byte -> N -> World -> (N * goerror) * World;
  kv_Delete : KeyValue -> Ctx -> string -> World -> goerror * World;
  kv_WatchAll : KeyValue -> Ctx -> list WatchOpt -> World -> result KeyWatcher * World;
  (* jetstream.KeyWatcher: a receive on Updates() yields an entry or nil,
     or never returns ([None]) *)
  updates_recv : KeyWatcher -> World -> option (option KeyValueEntry) * World;
  watcher_Stop : KeyWatcher -> World -> goerror * World;
  (* jetstream.Consumer and jetstream.Msg; Fetch yields the messages the
     batch's channel delivers before it is closed *)
  Consumer : Type;
  Msg : Type;
  FetchOpt : Type;
  consumer_Fetch : Consumer -> Z -> list FetchOpt -> World -> result (list Msg) * World;
  msg_Data : Msg -> list byte;
  msg_Ack : Msg -> World -> goerror * World;
  msg_Nak : Msg -> World -> goerror * World;
  (* *slog.Logger *)
  Logger : Type;
  logger_emit : Logger -> Level -> string -> list Attr -> World -> World;
  (* slog.New(slog.NewJSONHandler(io.Discard, ...)) *)
  discardLogger : Logger
}.

(* ===================================================================== *)
(** ** Effects: a state monad over the world and the trace of calls *)
(* ===================================================================== *)

(** How a call ends. *)
Inductive outcome (A : Type) : Type :=
| Returns (a : A)
| Panics
| Blocks.
Arguments Panics {A}.
Arguments Blocks {A}.

Record state (W E : Type) : Type := mkState {
  world : W;
  trace : list E
}.

Definition M (W E A : Type) : Type := state W E -> outcome A * state W E.

Definition ret {W E A} (a : A) : M W E A := fun s => (Returns a, s).

Definition bind {W E A B} (m : M W E A) (k : A -> M W E B) : M W E B :=
  fun s =>
    match m s with
    | (Returns a, s') => k a s'
    | (Panics, s') => (Panics, s')
    | (Blocks, s') => (Blocks, s')
    end.

Definition panic {W E A} : M W E A := fun s => (Panics, s).

Declare Scope go_scope.
Delimit Scope go_scope with go.
Notation "x <- m ;; k" := (bind m (fun x => k))
  (at level 61, m at next level, right associativity) : go_scope.
Notation "m ;;; k" := (bind m (fun _ => k))
  (at level 61, right associativity) : go_scope.

(** An external method call: run it on the world and append the event
    built from its answer to the trace. *)
Definition extern {W E A} (f : W -> A * W) (ev : A -> E) : M W E A :=
  fun s =>
    let (a, w) := f (world s) in
    (Returns a, {| world := w; trace := trace s ++ [ev a] |}).

(** [l[i]]: panics when out of range. *)
Definition index {W E A} (l : list A) (i : nat) : M W E A :=
  match nth_error l i with
  | Some x => ret x
  | None => panic
  end.

Fixpoint set_nth {A} (l : list A) (i : nat) (x : A) : option (list A) :=
  match l, i with
  | [], _ => None
  | _ :: rest, O => Some (x :: rest)
  | y :: rest, S i' =>
      match set_nth rest i' x with
      | Some rest' => Some (y :: rest')
      | None => None
      end
  end.

(** [l[i] = x]: panics when out of range. *)
Definition store {W E A} (l : list A) (i : nat) (x : A) : M W E (list A) :=
  match set_nth l i x with
  | Some l' => ret l'
  | None => panic
  end.

Definition is_nil (err : goerror) : bool :=
  match err with
  | None => true
  | Some _ => false
  end.

(* ===================================================================== *)
(** ** kv.go *)
(* ===================================================================== *)

Module kv.
Section KV.
Context {ext : External} {T : Type} {codec : Codec T}.
Local Open Scope go_scope.
Local Open Scope string_scope.

(** One call on the broker's key-value handle, with its answer. *)
Inductive call : Type :=
| CallGet (key : string) (r : result KeyValueEntry)
| CallGetRevision (key : string) (revision : N) (r : result KeyValueEntry)
| CallHistory (key : string) (r : result (list KeyValueEntry))
| CallPut (key : string) (value : list byte) (r : N * goerror)
| CallUpdate (key : string) (value : list byte) (last : N) (r : N * goerror)
| CallDelete (key : string) (r : goerror)
| CallWatchAll (opts : list WatchOpt) (r : result KeyWatcher)
| CallRecv (w : KeyWatcher) (r : option (option KeyValueEntry))
| CallStop (w : KeyWatcher) (r : goerror).

Definition IO : Type -> Type := M World call.

Record KV : Type := mkKV {
  kv : KeyValue;
  subject : string
}.

Definition NewKV (kv : KeyValue) (subject : string) : KV :=
  {| kv := kv; subject := subject |}.

Definition keyToSubject (db : KV) (key : string) : string :=
  let h := sha256.New in
  let h := sha256.Write h (list_byte_of_string key) in
  subject db ++ "." ++ hex.EncodeToString (sha256.Sum h []).

Definition Get (db : KV) (ctx : Ctx) (key : string)
  : IO (T * N * bool * goerror) :=
  let value := zero in
  r <- extern (kv_Get (kv db) ctx (keyToSubject db key))
              (CallGet (keyToSubject db key)) ;;
  match r with
  | Fail err =>
      if error_eqb err ErrKeyNotFound
      then ret (value, 0%N, false, None)
      else ret (value, 0%N, false, Some err)
  | Val entry =>
      let (value, err) := Unmarshal (Value entry) value in
      ret (value, Revision entry, is_nil err, err)
  end.

Definition GetRevision (db : KV) (ctx : Ctx) (key : string) (revision : N)
  : IO (T * bool * goerror) :=
  let value := zero in
  r <- extern (kv_GetRevision (kv db) ctx (keyToSubject db key) revision)
              (CallGetRevision (keyToSubject db key) revision) ;;
  match r with
  | Fail err =>
      if error_eqb err ErrKeyNotFound
      then ret (value, false, None)
      else ret (value, false, Some err)
  | Val entry =>
      let (value, err) := Unmarshal (Value entry) value in
      ret (value, is_nil err, err)
  end.

(** The decoding loop of [History]: [values] has one zero slot per
    entry; slot [i] is decoded in place, and the first failure returns
    what has been filled so far. *)
Fixpoint History_loop (entries : list KeyValueEntry) (i : nat) (values : list T)
  : IO (list T * bool * goerror) :=
  match entries with
  | [] => ret (values, true, None)
  | entry :: rest =>
      slot <- index values i ;;
      let (v, err) := Unmarshal (Value entry) slot in
      values <- store values i v ;;
      match err with
      | Some err => ret (values, false, Some err)
      | None => History_loop rest (S i) values
      end
  end.

Definition History (db : KV) (ctx : Ctx) (key : string)
  : IO (list T * bool * goerror) :=
  let values := [] in
  r <- extern (kv_History (kv db) ctx (keyToSubject db key))
              (CallHistory (keyToSubject db key)) ;;
  match r with
  | Fail err =>
      if error_eqb err ErrKeyNotFound
      then ret (values, false, None)
      else ret (values, false, Some err)
  | Val entries =>
      History_loop entries 0 (repeat zero (List.length entries))
  end.

Definition Put (db : KV) (ctx : Ctx) (key : string) (value : T)
  : IO (N * goerror) :=
  let rev := 0%N in
  match Marshal value with
  | Fail err => ret (rev, Some err)
  | Val entry =>
      extern (kv_Put (kv db) ctx (keyToSubject db key) entry)
             (CallPut (keyToSubject db key) entry)
  end.

Definition Delete (db : KV) (ctx : Ctx) (key : string) : IO goerror :=
  extern (kv_Delete (kv db) ctx (keyToSubject db key))
         (CallDelete (keyToSubject db key)).

Definition Update (db : KV) (ctx : Ctx) (key : string) (value : T) (last : N)
  : IO (N * goerror) :=
  let rev := 0%N in
  match Marshal value with
  | Fail err => ret (rev, Some err)
  | Val entry =>
      r <- extern (kv_Update (kv db) ctx (keyToSubject db key) entry last)
                  (CallUpdate (keyToSubject db key) entry last) ;;
      let (rev, err) := r in
      match errors_As err with
      | Some (Some apiErr, _) =>
          if (ErrorCode apiErr =? JSErrCodeStreamWrongLastSequence)%Z
          then ret (0%N, Some ErrOptimisticConcurrencyCheckFailed)
          else ret (rev, err)
      | _ => ret (rev, err)
      end
  end.

Record Iterator : Type := mkIterator {
  next : IO (T * bool * goerror);
  It_Value : T;
  It_Error : goerror;
  stop : IO goerror
}.

(** [it.Value, ok, it.Error = it.next(); return ok]: the iterator is
    handed back with its two fields assigned. *)
Definition Next (it : Iterator) : IO (bool * Iterator) :=
  r <- next it ;;
  let '(value, ok, err) := r in
  ret (ok, {| next := next it; It_Value := value; It_Error := err; stop := stop it |}).

Definition Stop (it : Iterator) : IO goerror := stop it.

(** [NewIterator] returns the address of a fresh struct: [Some], never
    the nil pointer [None]. *)
Definition NewIterator (next : IO (T * bool * goerror)) (stop : IO goerror)
  : option Iterator :=
  Some {| next := next; It_Value := zero; It_Error := None; stop := stop |}.

Definition List (db : KV) (ctx : Ctx) : IO (option Iterator) :=
  r <- extern (kv_WatchAll (kv db) ctx [IgnoreDeletes])
              (CallWatchAll [IgnoreDeletes]) ;;
  match r with
  | Fail err =>
      let next : IO (T * bool * goerror) :=
        let t := zero in
        ret (t, false, Some err) in
      let stop : IO goerror := ret None in
      ret (NewIterator next stop)
  | Val w =>
      (* updates := w.Updates(): the channel of w *)
      let next : IO (T * bool * goerror) :=
        let v := zero in
        r <- extern (updates_recv w) (CallRecv w) ;;
        match r with
        | None => fun s => (Blocks, s)
        | Some None =>
            (* We're finished. *)
            ret (v, false, None)
        | Some (Some update) =>
            let (v, err) := Unmarshal (Value update) v in
            match err with
            | Some err => ret (v, false, Some err)
            | None => ret (v, true, None)
            end
        end in
      ret (NewIterator next (extern (watcher_Stop w) (CallStop w)))
  end.
End KV.
End kv.

(* ===================================================================== *)
(** ** The batch processor *)
(* ===================================================================== *)

Section ConsumerEvents.
Context {ext : External} {T : Type}.

(** What a [Process] call does to the outside, with the answers. *)
Inductive event : Type :=
| EvFetch (batch : Z) (opts : list FetchOpt) (r : result (list Msg))
| EvAck (msg : Msg) (r : goerror)
| EvNak (msg : Msg) (r : goerror)
| EvProcessor (ctx : Ctx) (messages : list T) (r : list goerror) (left : list T)
| EvErrorHandler (msg : T) (err : error)
| EvLog (l : Logger) (level : Level) (msg : string) (attrs : list Attr).

Definition Proc : Type -> Type := M World event.

Definition Fetch (c : Consumer) (batch : Z) (opts : list FetchOpt)
  : Proc (result (list Msg)) :=
  extern (consumer_Fetch c batch opts) (EvFetch batch opts).

Definition Ack (msg : Msg) : Proc goerror := extern (msg_Ack msg) (EvAck msg).
Definition Nak (msg : Msg) : Proc goerror := extern (msg_Nak msg) (EvNak msg).

(** The two user callbacks act on the world as well.  The handler is
    given a slice: it shares the backing array with the caller, so what
    the handler assigns to the elements of its argument is what the
    caller reads afterwards.  A handler answers its errors and the
    elements as it leaves them; the caller's slice keeps its length. *)
Definition handler : Type :=
  Ctx -> list T -> World -> (list goerror * list T) * World.

Fixpoint overwrite (old cells : list T) : list T :=
  match old, cells with
  | [], _ => []
  | _ :: _, [] => old
  | _ :: old', c :: cells' => c :: overwrite old' cells'
  end.

(** [errs := b.processor(ctx, messages)]: the errors, and [messages]
    as the call leaves it; the event records both. *)
Definition call_processor (p : handler) (ctx : Ctx) (messages : list T)
  : Proc (list goerror * list T) :=
  extern (fun w => let (r, w') := p ctx messages w in
                   ((fst r, overwrite messages (snd r)), w'))
         (fun r => EvProcessor ctx messages (fst r) (snd r)).

Definition call_ErrorHandler (h : T -> error -> World -> World)
           (msg : T) (err : error) : Proc unit :=
  extern (fun w => (tt, h msg err w)) (fun _ => EvErrorHandler msg err).

(** A method of [*slog.Logger]; the receiver may be the nil pointer. *)
Definition log (l : option Logger) (level : Level) (msg : string)
           (attrs : list Attr) : Proc unit :=
  match l with
  | None => panic
  | Some l =>
      extern (fun w => (tt, logger_emit l level msg attrs w))
             (fun _ => EvLog l level msg attrs)
  end.

(** [len] of a slice, an [int]. *)
Definition len {A} (l : list A) : Z := Z.of_nat (List.length l).

(** Go's [int] on a 64-bit platform. *)
Definition int (z : Z) : Z := ((z + 2 ^ 63) mod 2 ^ 64 - 2 ^ 63)%Z.

(** [fmt.Errorf("expected a slice of %d errors - one for each msg, but got %d", n, m)]. *)
Definition Errorf_expected (n m : Z) : error :=
  errorString ("expected a slice of " ++ itoa n
               ++ " errors - one for each msg, but got " ++ itoa m)%string.
End ConsumerEvents.
Arguments event {ext} T.
Arguments handler {ext} T.
Arguments Proc {ext} T _.

(** src/batch.go *)
Module BatchGo.
Section Batch.
Context {ext : External} {T : Type} {codec : Codec T}.
Local Open Scope go_scope.

Record BatchProcessor : Type := mkBatchProcessor {
  consumer : Consumer;
  batchSize : Z;
  processor : handler T;
  fetchOpts : list FetchOpt;
  ErrorHandler : option (T -> error -> World -> World)
}.

Definition set_ErrorHandler (bp : BatchProcessor)
           (h : option (T -> error -> World -> World)) : BatchProcessor :=
  {| consumer := consumer bp; batchSize := batchSize bp;
     processor := processor bp; fetchOpts := fetchOpts bp;
     ErrorHandler := h |}.

Definition NewBatchProcessor (consumer : Consumer) (batchSize : Z)
           (processor : handler T)
           (fetchOpts : list FetchOpt) : BatchProcessor :=
  {| consumer := consumer; batchSize := batchSize; processor := processor;
     fetchOpts := fetchOpts; ErrorHandler := None |}.

(** [for msg := range mb.Messages()]: [inl] is the [return] from inside
    the loop, [inr] the two slices when the loop ends. *)
Fixpoint decode (messages : list Msg) (msgBodies : list T) (msgs : list Msg)
  : Proc T (goerror + list T * list Msg) :=
  match messages with
  | [] => ret (inr (msgBodies, msgs))
  | msg :: rest =>
      let fr := zero in
      let (fr, err) := Unmarshal (msg_Data msg) fr in
      match err with
      | Some err =>
          let unmarshalErr :=
            Errorf_v "failed to unmarshal, skipping invalid message: " err in
          ackErr <- Ack msg ;;
          match ackErr with
          | Some ackErr => ret (inl (errors_Join [Some unmarshalErr; Some ackErr]))
          | None => decode rest msgBodies msgs
          end
      | None => decode rest (msgBodies ++ [fr]) (msgs ++ [msg])
      end
  end.

(** [for i, err := range errs]. *)
Fixpoint resolve (b : BatchProcessor) (msgBodies : list T) (msgs : list Msg)
         (errs : list goerror) (i : nat) (nackAckErrs : list goerror)
  : Proc T (list goerror) :=
  match errs with
  | [] => ret nackAckErrs
  | err :: rest =>
      msg <- index msgs i ;;
      r <- match err with
           | Some err =>
               match ErrorHandler b with
               | Some h =>
                   body <- index msgBodies i ;;
                   call_ErrorHandler h body err
               | None => ret tt
               end ;;;
               Nak msg
           | None => Ack msg
           end ;;
      nackAckErrs <- store nackAckErrs i r ;;
      resolve b msgBodies msgs rest (S i) nackAckErrs
  end.

Definition Process (b : BatchProcessor) (ctx : Ctx) : Proc T goerror :=
  (* Fetch a batch. *)
  mb <- Fetch (consumer b) (batchSize b) (fetchOpts b) ;;
  match mb with
  | Fail err => ret (Some (Errorf_w "failed to fetch: " err))
  | Val messages =>
      (* Convert JSON messages to type. *)
      r <- decode messages [] [] ;;
      match r with
      | inl err => ret err
      | inr (msgBodies, msgs) =>
          if (len msgs =? 0)%Z then ret None else
          (* Process messages. *)
          r <- call_processor (processor b) ctx msgBodies ;;
          let (errs, msgBodies) := r in
          if negb (len errs =? len msgs)%Z
          then ret (Some (Errorf_expected (len msgs) (len errs)))
          else
            (* Ack or nack messages based on their error state. *)
            nackAckErrs <- resolve b msgBodies msgs errs 0
                                   (repeat None (List.length errs)) ;;
            ret (errors_Join nackAckErrs)
      end
  end.
End Batch.
End BatchGo.

(** The version with a logger and option-based construction. *)
Module Part001.
Section Batch.
Context {ext : External} {T : Type} {codec : Codec T}.
Local Open Scope go_scope.

Record BatchProcessor : Type := mkBatchProcessor {
  Log : option Logger;
  consumer : Consumer;
  batchSize : Z;
  processor : handler T;
  fetchOpts : list FetchOpt;
  ErrorHandler : option (T -> error -> World -> World)
}.

(** Assignments to one field of [*bp]. *)
Definition set_Log (bp : BatchProcessor) (l : option Logger) : BatchProcessor :=
  {| Log := l; consumer := consumer bp; batchSize := batchSize bp;
     processor := processor bp; fetchOpts := fetchOpts bp;
     ErrorHandler := ErrorHandler bp |}.

Definition set_fetchOpts (bp : BatchProcessor) (o : list FetchOpt) : BatchProcessor :=
  {| Log := Log bp; consumer := consumer bp; batchSize := batchSize bp;
     processor := processor bp; fetchOpts := o;
     ErrorHandler := ErrorHandler bp |}.

Definition set_ErrorHandler (bp : BatchProcessor)
           (h : option (T -> error -> World -> World)) : BatchProcessor :=
  {| Log := Log bp; consumer := consumer bp; batchSize := batchSize bp;
     processor := processor bp; fetchOpts := fetchOpts bp;
     ErrorHandler := h |}.

Definition BatchProcessorOpt : Type := BatchProcessor -> BatchProcessor.

Definition WithLogger (log : option Logger) : BatchProcessorOpt :=
  fun bp => set_Log bp log.

Definition WithFetchOpts (opts : list FetchOpt) : BatchProcessorOpt :=
  fun bp => set_fetchOpts bp (fetchOpts bp ++ opts).

Definition NewBatchProcessor (consumer : Consumer) (batchSize : Z)
           (processor : handler T)
           (opts : list BatchProcessorOpt) : BatchProcessor :=
  let bp := {| Log := None; consumer := consumer; batchSize := batchSize;
               processor := processor; fetchOpts := [];
               ErrorHandler := None |} in
  let bp := fold_left (fun bp opt => opt bp) opts bp in
  match Log bp with
  | None => set_Log bp (Some discardLogger)
  | Some _ => bp
  end.

Fixpoint decode (messages : list Msg) (msgBodies : list T) (msgs : list Msg)
  : Proc T (goerror + list T * list Msg) :=
  match messages with
  | [] => ret (inr (msgBodies, msgs))
  | msg :: rest =>
      let fr := zero in
      let (fr, err) := Unmarshal (msg_Data msg) fr in
      match err with
      | Some err =>
          let unmarshalErr :=
            Errorf_v "failed to unmarshal, skipping invalid message: " err in
          ackErr <- Ack msg ;;
          match ackErr with
          | Some ackErr => ret (inl (errors_Join [Some unmarshalErr; Some ackErr]))
          | None => decode rest msgBodies msgs
          end
      | None => decode rest (msgBodies ++ [fr]) (msgs ++ [msg])
      end
  end.

(** [for i, err := range errs]; [errCount] is threaded along and
    returned with the slice. *)
Fixpoint resolve (b : BatchProcessor) (msgBodies : list T) (msgs : list Msg)
         (errs : list goerror) (i : nat) (errCount : Z)
         (nackAckErrs : list goerror)
  : Proc T (Z * list goerror) :=
  match errs with
  | [] => ret (errCount, nackAckErrs)
  | err :: rest =>
      msg <- index msgs i ;;
      p <- match err with
           | Some err =>
               log (Log b) LevelWarn "Error processing message"
                   [slog_Any "error" err] ;;;
               let errCount := int (errCount + 1) in
               (* Call the error handler hook. *)
               match ErrorHandler b with
               | Some h =>
                   body <- index msgBodies i ;;
                   call_ErrorHandler h body err
               | None => ret tt
               end ;;;
               r <- Nak msg ;;
               ret (errCount, r)
           | None =>
               r <- Ack msg ;;
               ret (errCount, r)
           end ;;
      let (errCount, r) := p in
      nackAckErrs <- store nackAckErrs i r ;;
      resolve b msgBodies msgs rest (S i) errCount nackAckErrs
  end.

Definition Process (b : BatchProcessor) (ctx : Ctx) : Proc T goerror :=
  (* Fetch a batch. *)
  log (Log b) LevelDebug "Fetching batch" [] ;;;
  mb <- Fetch (consumer b) (batchSize b) (fetchOpts b) ;;
  match mb with
  | Fail err => ret (Some (Errorf_w "failed to fetch: " err))
  | Val messages =>
      (* Convert JSON messages to type. *)
      log (Log b) LevelDebug "Reading messages" [] ;;;
      r <- decode messages [] [] ;;
      match r with
      | inl err => ret err
      | inr (msgBodies, msgs) =>
          if (len msgs =? 0)%Z then
            log (Log b) LevelDebug "No messages, returning" [] ;;;
            ret None
          else
          (* Process messages. *)
          log (Log b) LevelDebug "Processing messages"
              [slog_Int "count" (len msgs)] ;;;
          r <- call_processor (processor b) ctx msgBodies ;;
          let (errs, msgBodies) := r in
          if negb (len errs =? len msgs)%Z
          then ret (Some (Errorf_expected (len msgs) (len errs)))
          else
            (* Ack or nack messages based on their error state. *)
            let errCount := 0%Z in
            log (Log b) LevelDebug "Acknowledging messages"
                [slog_Int "count" (len msgs)] ;;;
            p <- resolve b msgBodies msgs errs 0 errCount
                         (repeat None (List.length errs)) ;;
            let (errCount, nackAckErrs) := p in
            log (Log b) LevelDebug "Acknowledged messages"
                [slog_Int "acks" (int (len msgs - errCount));
                 slog_Int "nacks" errCount] ;;;
            ret (errors_Join nackAckErrs)
      end
  end.
End Batch.
End Part001.

(* ===================================================================== *)
(** ** Runs of [Process], read off the trace *)
(* ===================================================================== *)

Section Runs.
Context {ext : External} {T : Type} {codec : Codec T}.

(** What [json.Unmarshal] makes of a message's payload. *)
Definition body (msg : Msg) : T := fst (Unmarshal (msg_Data msg) zero).
Definition decode_error (msg : Msg) : goerror := snd (Unmarshal (msg_Data msg) zero).
Definition decodes (msg : Msg) : bool := is_nil (decode_error msg).

Definition unmarshalErr (e : error) : error :=
  Errorf_v "failed to unmarshal, skipping invalid message: " e.

(** The decode step over the fetched messages, in fetch order: a message
    that decodes leaves no event; one that does not is acknowledged on
    the spot; the first such acknowledgement that fails ends the run,
    with the decode error and the ack error. *)
Inductive decode_run : list Msg -> list (event T) -> option (error * error) -> Prop :=
| dr_done : decode_run [] [] None
| dr_keep msg rest tr o :
    decode_error msg = None ->
    decode_run rest tr o ->
    decode_run (msg :: rest) tr o
| dr_skip msg e rest tr o :
    decode_error msg = Some e ->
    decode_run rest tr o ->
    decode_run (msg :: rest) (EvAck msg None :: tr) o
| dr_abort msg e ackErr rest :
    decode_error msg = Some e ->
    decode_run (msg :: rest) [EvAck msg (Some ackErr)] (Some (e, ackErr)).

(** The hook, when there is one. *)
Definition hook_events (hook : bool) (b : T) (e : error) : list (event T) :=
  if hook then [EvErrorHandler b e] else [].

(** The resolve step: message by message, an ack for a nil outcome, the
    hook and then a nak for an error; [rs] collects what the acks and
    naks answered. *)
Inductive resolve_run (hook : bool)
  : list Msg -> list T -> list goerror -> list (event T) -> list goerror -> Prop :=
| rr_done : resolve_run hook [] [] [] [] []
| rr_ack msg b msgs bs errs tr rs r :
    resolve_run hook msgs bs errs tr rs ->
    resolve_run hook (msg :: msgs) (b :: bs) (None :: errs)
                (EvAck msg r :: tr) (r :: rs)
| rr_nak msg b e msgs bs errs tr rs r :
    resolve_run hook msgs bs errs tr rs ->
    resolve_run hook (msg :: msgs) (b :: bs) (Some e :: errs)
                (hook_events hook b e ++ EvNak msg r :: tr) (r :: rs).

Definition has_hook {A} (h : option A) : bool :=
  match h with
  | Some _ => true
  | None => false
  end.

(** One whole [Process] call: the events it adds to the trace and the
    error it returns. *)
Inductive process_run (n : Z) (opts : list FetchOpt) (ctx : Ctx) (hook : bool)
  : list (event T) -> goerror -> Prop :=
| pr_fetch_failed err :
    process_run n opts ctx hook
      [EvFetch n opts (Fail err)]
      (Some (Errorf_w "failed to fetch: " err))
| pr_poison_ack_failed messages tr e ackErr :
    decode_run messages tr (Some (e, ackErr)) ->
    process_run n opts ctx hook
      (EvFetch n opts (Val messages) :: tr)
      (errors_Join [Some (unmarshalErr e); Some ackErr])
| pr_nothing_left messages tr :
    decode_run messages tr None ->
    filter decodes messages = [] ->
    process_run n opts ctx hook
      (EvFetch n opts (Val messages) :: tr)
      None
| pr_contract messages tr errs left :
    decode_run messages tr None ->
    filter decodes messages <> [] ->
    List.length left = List.length (filter decodes messages) ->
    List.length errs <> List.length (filter decodes messages) ->
    process_run n opts ctx hook
      (EvFetch n opts (Val messages) :: tr
       ++ [EvProcessor ctx (map body (filter decodes messages)) errs left])
      (Some (Errorf_expected (len (filter decodes messages)) (len errs)))
| pr_resolved messages tr errs left tr' rs :
    decode_run messages tr None ->
    filter decodes messages <> [] ->
    List.length left = List.length (filter decodes messages) ->
    resolve_run hook (filter decodes messages) left errs tr' rs ->
    process_run n opts ctx hook
      (EvFetch n opts (Val messages) :: tr
       ++ EvProcessor ctx (map body (filter decodes messages)) errs left :: tr')
      (errors_Join rs).

(** The trace without the log records. *)
Definition is_log (ev : event T) : bool :=
  match ev with
  | EvLog _ _ _ _ => true
  | _ => false
  end.

Definition unlogged (tr : list (event T)) : list (event T) :=
  filter (fun ev => negb (is_log ev)) tr.

Definition is_processor (ev : event T) : bool :=
  match ev with
  | EvProcessor _ _ _ _ => true
  | _ => false
  end.

(** The successful acknowledgements of the messages of [l] that do not
    decode, in order. *)
Definition poison (msg : Msg) : bool := negb (decodes msg).

Definition acked_poison (l : list Msg) : list (event T) :=
  map (fun msg => EvAck msg None) (filter poison l).

(** The acks and naks of a trace, in order: [true] for an ack, the
    message, and the answer. *)
Fixpoint resolutions (tr : list (event T)) : list (bool * Msg * goerror) :=
  match tr with
  | [] => []
  | EvAck m r :: rest => (true, m, r) :: resolutions rest
  | EvNak m r :: rest => (false, m, r) :: resolutions rest
  | _ :: rest => resolutions rest
  end.

(** Message [i] with outcome [i] and answer [i]: an ack for a nil
    outcome, a nak otherwise. *)
Fixpoint expected_resolutions (msgs : list Msg) (errs rs : list goerror)
  : list (bool * Msg * goerror) :=
  match msgs, errs, rs with
  | m :: msgs', e :: errs', r :: rs' =>
      (is_nil e, m, r) :: expected_resolutions msgs' errs' rs'
  | _, _, _ => []
  end.

(** The calls of the hook in a trace, in order. *)
Fixpoint hook_calls (tr : list (event T)) : list (T * error) :=
  match tr with
  | [] => []
  | EvErrorHandler b e :: rest => (b, e) :: hook_calls rest
  | _ :: rest => hook_calls rest
  end.

(** The bodies whose outcome is an error, with that error. *)
Fixpoint failures (bodies : list T) (errs : list goerror) : list (T * error) :=
  match bodies, errs with
  | b :: bodies', Some e :: errs' => (b, e) :: failures bodies' errs'
  | _ :: bodies', None :: errs' => failures bodies' errs'
  | _, _ => []
  end.

(** What the fetch of a call answers, in each version (the logging one
    has written its first record by then). *)
Definition fetched (b : BatchGo.BatchProcessor (T:=T)) (s : state World (event T))
  : result (list Msg) :=
  fst (consumer_Fetch (BatchGo.consumer b) (BatchGo.batchSize b)
                      (BatchGo.fetchOpts b) (world s)).

Definition fetched_log (b : Part001.BatchProcessor (T:=T)) (l : Logger)
           (s : state World (event T)) : result (list Msg) :=
  fst (consumer_Fetch (Part001.consumer b) (Part001.batchSize b)
                      (Part001.fetchOpts b)
                      (logger_emit l LevelDebug "Fetching batch" [] (world s))).

(** An ack or a nak of a message that does not decode. *)
Definition ack_or_nak_of_poison (ev : event T) : bool :=
  match ev with
  | EvAck m _ => poison m
  | EvNak m _ => poison m
  | _ => false
  end.

(** C2 on one call that fetched [messages], added [tr] to the trace and
    returned [res].  After the fetch come the acks of the messages that
    do not decode, each issued when its message is reached.  Either they
    all succeed, and whatever the handler is given is the bodies of
    the messages that decode; or the ack of one such message [m] fails:
    it is the last event, and the result joins the decode error and the
    ack error. *)
Definition poison_handling (messages : list Msg) (tr : list (event T))
           (res : goerror) : Prop :=
  exists n opts acks rest,
    tr = EvFetch n opts (Val messages) :: acks ++ rest
    /\ ((acks = acked_poison messages
         /\ Forall (fun ev => ack_or_nak_of_poison ev = false) rest
         /\ forall ctx bodies errs left,
              In (EvProcessor ctx bodies errs left) rest ->
              bodies = map body (filter decodes messages))
        \/ (exists pre m post e ackErr,
               messages = pre ++ m :: post
               /\ decode_error m = Some e
               /\ acks = acked_poison pre ++ [EvAck m (Some ackErr)]
               /\ rest = []
               /\ res = errors_Join [Some (unmarshalErr e); Some ackErr])).

(** A run that ended where the ack of a message that does not decode
    failed: the fetch, the acks of the undecodable messages before it,
    and the failed ack. *)
Definition poison_ack_failed (messages : list Msg) (tr : list (event T)) : Prop :=
  exists n opts pre m post e ackErr,
    messages = pre ++ m :: post
    /\ decode_error m = Some e
    /\ tr = EvFetch n opts (Val messages)
             :: acked_poison pre ++ [EvAck m (Some ackErr)].

(** C3 on one call whose fetch answered [fetched], which added [tr] to
    the trace and returned [res].  The handler is called at most once,
    and only with the bodies of the fetched messages that decode, in
    fetch order.  When some fetched message decodes, either the run
    ended at a failed ack of an undecodable message, or the handler is
    called, right after the acks of the undecodable messages; and if
    its answer has another length than its argument, that call is the
    last event, the result is the "expected a slice of" error, no nak
    was issued and every ack was that of an undecodable message. *)
Definition handler_contract (ctx : Ctx) (fetched : result (list Msg))
           (tr : list (event T)) (res : goerror) : Prop :=
  (List.length (filter is_processor tr) <= 1)%nat
  /\ (forall ctx' bodies errs left,
         In (EvProcessor ctx' bodies errs left) tr ->
         ctx' = ctx
         /\ exists messages,
             fetched = Val messages
             /\ bodies = map body (filter decodes messages))
  /\ forall messages,
       fetched = Val messages ->
       filter decodes messages <> [] ->
       poison_ack_failed messages tr
       \/ exists n opts errs left post,
           tr = EvFetch n opts (Val messages)
                :: acked_poison messages
                ++ EvProcessor ctx (map body (filter decodes messages)) errs left
                :: post
           /\ (List.length errs <> List.length (filter decodes messages) ->
               post = []
               /\ res = Some (Errorf_expected (len (filter decodes messages))
                                              (len errs))
               /\ (forall m r, ~ In (EvNak m r) tr)
               /\ (forall m r, In (EvAck m r) tr -> decodes m = false)).

(** C4 on one call whose fetch answered [fetched], which added [tr] to
    the trace and returned [res].  When some fetched message decodes,
    either the run ended at a failed ack of an undecodable message, or
    the handler is called with the decoded bodies and leaves [left] in
    its argument; and if it answered one outcome per message, what
    follows is the resolve step, message by message: an ack for a nil
    outcome, the hook (called with the element of the handler's
    argument as the handler left it, and the outcome) and then a nak
    for an error; every message gets its ack or nak whatever the
    earlier ones answered, and the result joins the answers. *)
Definition resolution (ctx : Ctx) (hook : bool) (fetched : result (list Msg))
           (tr : list (event T)) (res : goerror) : Prop :=
  forall messages,
    fetched = Val messages ->
    filter decodes messages <> [] ->
    poison_ack_failed messages tr
    \/ exists n opts errs left post,
        tr = EvFetch n opts (Val messages)
             :: acked_poison messages
             ++ EvProcessor ctx (map body (filter decodes messages)) errs left
             :: post
        /\ List.length left = List.length (filter decodes messages)
        /\ (List.length errs = List.length (filter decodes messages) ->
            exists rs,
              resolve_run hook (filter decodes messages) left errs post rs
              /\ resolutions post
                 = expected_resolutions (filter decodes messages) errs rs
              /\ List.length rs = List.length errs
              /\ hook_calls post = (if hook then failures left errs else [])
              /\ res = errors_Join rs
              /\ (res = None <-> Forall (fun r => r = None) rs)).

(** C5 on one call that fetched [messages]. *)
Definition nothing_to_do (messages : list Msg) (tr : list (event T))
           (res : goerror) : Prop :=
  filter decodes messages = [] ->
  filter is_processor tr = []
  /\ ((forall m r, In (EvAck m r) tr -> r = None) -> res = None)
  /\ (messages = [] ->
      res = None /\ exists n opts, tr = [EvFetch n opts (Val [])]).
End Runs.

(** Logging that the broker and the callbacks do not see: [R] relates two
    worlds that differ at most in what has been logged; a log record keeps
    the relation, and from related worlds every call of the broker and
    every callback answers the same and leaves related worlds. *)
Record unobserved_logging {ext : External} {T : Type}
       (R : World -> World -> Prop)
       (processor : handler T)
       (hook : option (T -> error -> World -> World)) : Prop := {
  ul_log : forall l level msg attrs w1 w2,
      R w1 w2 -> R w1 (logger_emit l level msg attrs w2);
  ul_fetch : forall c n opts w1 w2,
      R w1 w2 ->
      fst (consumer_Fetch c n opts w1) = fst (consumer_Fetch c n opts w2)
      /\ R (snd (consumer_Fetch c n opts w1)) (snd (consumer_Fetch c n opts w2));
  ul_ack : forall m w1 w2,
      R w1 w2 ->
      fst (msg_Ack m w1) = fst (msg_Ack m w2)
      /\ R (snd (msg_Ack m w1)) (snd (msg_Ack m w2));
  ul_nak : forall m w1 w2,
      R w1 w2 ->
      fst (msg_Nak m w1) = fst (msg_Nak m w2)
      /\ R (snd (msg_Nak m w1)) (snd (msg_Nak m w2));
  ul_processor : forall ctx msgs w1 w2,
      R w1 w2 ->
      fst (processor ctx msgs w1) = fst (processor ctx msgs w2)
      /\ R (snd (processor ctx msgs w1)) (snd (processor ctx msgs w2));
  ul_hook : forall h, hook = Some h ->
      forall m e w1 w2, R w1 w2 -> R (h m e w1) (h m e w2)
}.

(* ===================================================================== *)
(** ** Calls of the key-value operations, read off the trace *)
(* ===================================================================== *)

Section KVCalls.
Context {ext : External} {T : Type} {codec : Codec T}.

(** The events a computation adds to the trace. *)
Definition added {W E A} (m : M W E A) (s : state W E) : list E :=
  skipn (List.length (trace s)) (trace (snd (m s))).

(** The subject a broker call names, for the calls that name one. *)
Definition addressed (c : kv.call) : option string :=
  match c with
  | kv.CallGet key _ => Some key
  | kv.CallGetRevision key _ _ => Some key
  | kv.CallHistory key _ => Some key
  | kv.CallPut key _ _ => Some key
  | kv.CallUpdate key _ _ _ => Some key
  | kv.CallDelete key _ => Some key
  | kv.CallWatchAll _ _ => None
  | kv.CallRecv _ _ => None
  | kv.CallStop _ _ => None
  end.

(** Every call names the subject of some key of [db]. *)
Definition through_mapping (db : kv.KV) (calls : list kv.call) : Prop :=
  Forall (fun c => exists key, addressed c = Some (kv.keyToSubject db key)) calls.

Definition is_lower_hex (c : ascii) : bool :=
  let n := nat_of_ascii c in
  ((48 <=? n) && (n <=? 57) || (97 <=? n) && (n <=? 102))%nat.

Fixpoint string_forallb (p : ascii -> bool) (s : string) : bool :=
  match s with
  | EmptyString => true
  | String c rest => p c && string_forallb p rest
  end.

(** The broker's answer carries the wrong-last-sequence API error: the
    JetStream error of its chain has an API error whose code is 10071. *)
Definition wrong_last_sequence_fault (err : goerror) : Prop :=
  exists apiErr text,
    errors_As err = Some (Some apiErr, text)
    /\ ErrorCode apiErr = JSErrCodeStreamWrongLastSequence.

(** An iterator whose source could not be set up: [next] answers the
    error and [stop] answers nil, neither touching anything. *)
Definition failed_iterator (err : error) (it : kv.Iterator) : Prop :=
  (forall s, kv.next it s = (Returns (zero, false, Some err), s))
  /\ (forall s, kv.stop it s = (Returns None, s)).

(** The iterator as [Next] leaves it. *)
Definition assigned (it : kv.Iterator) (v : T) (err : goerror) : kv.Iterator :=
  {| kv.next := kv.next it; kv.It_Value := v; kv.It_Error := err;
     kv.stop := kv.stop it |}.

(** An iterator over the watch [w]: each [Next] is one receive on the
    channel, and what it answers is decided by what is received. *)
Definition watching (w : KeyWatcher) (it : kv.Iterator) : Prop :=
  forall s,
    kv.Next it s =
    let (r, w1) := updates_recv w (world s) in
    let s1 := {| world := w1; trace := trace s ++ [kv.CallRecv w r] |} in
    match r with
    | None => (Blocks, s1)
    | Some None => (Returns (false, assigned it zero None), s1)
    | Some (Some update) =>
        let (v, err) := Unmarshal (Value update) zero in
        (Returns (is_nil err, assigned it v err), s1)
    end.

(** The claim that an iterator of [List] stays finished: after a [Next]
    that gave no item, the following [Next] gives no item either, and
    returns. *)
Definition stays_finished (db : kv.KV) (ctx : Ctx) (s : state World kv.call) : Prop :=
  forall it s1 it1 s2,
    kv.List db ctx s = (Returns (Some it), s1) ->
    kv.Next it s1 = (Returns (false, it1), s2) ->
    exists it2 s3, kv.Next it1 s2 = (Returns (false, it2), s3).
End KVCalls.

(** The processor of the logging version, seen as one of [batch.go]: the
    same fields, without the logger. *)
Definition without_Log {ext : External} {T : Type}
           (bl : Part001.BatchProcessor (T:=T)) : BatchGo.BatchProcessor (T:=T) :=
  {| BatchGo.consumer := Part001.consumer bl;
     BatchGo.batchSize := Part001.batchSize bl;
     BatchGo.processor := Part001.processor bl;
     BatchGo.fetchOpts := Part001.fetchOpts bl;
     BatchGo.ErrorHandler := Part001.ErrorHandler bl |}.

Section Simulation.
Context {ext : External} {T : Type}.
Variable R : World -> World -> Prop.

(** Two calls end the same way, with results related by [Q]. *)
Definition same_outcome {A B} (Q : A -> B -> Prop)
           (o1 : outcome A) (o2 : outcome B) : Prop :=
  match o1, o2 with
  | Returns a, Returns b => Q a b
  | Panics, Panics => True
  | Blocks, Blocks => True
  | _, _ => False
  end.

(** [m2] does what [m1] does, and logs: from related worlds they add
    the same events up to log records, end the same way and leave
    related worlds. *)
Definition simulates {A B} (Q : A -> B -> Prop)
           (m1 : Proc T A) (m2 : Proc T B) : Prop :=
  forall s1 s2,
    R (world s1) (world s2) ->
    exists t1 t2,
      trace (snd (m1 s1)) = trace s1 ++ t1
      /\ trace (snd (m2 s2)) = trace s2 ++ t2
      /\ t1 = unlogged t2
      /\ R (world (snd (m1 s1))) (world (snd (m2 s2)))
      /\ same_outcome Q (fst (m1 s1)) (fst (m2 s2)).
End Simulation.

(* ===================================================================== *)
(** ** An in-process broker, for running the code on concrete inputs *)
(* ===================================================================== *)

Module Mem.
Local Open Scope string_scope.
Local Open Scope list_scope.

(** A message of the stream; [ack_fails] marks one whose acknowledgement
    the server rejects. *)
Record msg : Type := mkMsg {
  msg_id : nat;
  data : list byte;
  ack_fails : bool
}.

(** A handle on the bucket; on [Disconnected] a watch cannot be set up. *)
Inductive bucket : Type := Connected | Disconnected.

Record server : Type := mkServer {
  writes : list (string * option (list byte));
    (* the bucket's stream: one record per Put, Update and Delete (None);
       the revision of a record is its position, from 1 *)
  updates : list (option KeyValueEntry);   (* the watcher's channel *)
  closed : bool;
  queue : list msg;                        (* the consumer's pending messages *)
  acked : list nat;
  logs : nat
}.

Definition empty : server :=
  {| writes := []; updates := []; closed := false; queue := []; acked := [];
     logs := 0 |}.

Definition set_writes (w : server) (x : list (string * option (list byte))) : server :=
  {| writes := x; updates := updates w; closed := closed w; queue := queue w;
     acked := acked w; logs := logs w |}.
Definition set_updates (w : server) (x : list (option KeyValueEntry)) : server :=
  {| writes := writes w; updates := x; closed := closed w; queue := queue w;
     acked := acked w; logs := logs w |}.
Definition set_closed (w : server) (x : bool) : server :=
  {| writes := writes w; updates := updates w; closed := x; queue := queue w;
     acked := acked w; logs := logs w |}.
Definition set_queue (w : server) (x : list msg) : server :=
  {| writes := writes w; updates := updates w; closed := closed w; queue := x;
     acked := acked w; logs := logs w |}.
Definition set_acked (w : server) (x : list nat) : server :=
  {| writes := writes w; updates := updates w; closed := closed w; queue := queue w;
     acked := x; logs := logs w |}.
Definition set_logs (w : server) (x : nat) : server :=
  {| writes := writes w; updates := updates w; closed := closed w; queue := queue w;
     acked := acked w; logs := x |}.

(** The records of one key, with their revisions, oldest first. *)
Fixpoint records (key : string) (rev : N) (ws : list (string * option (list byte)))
  : list (N * option (list byte)) :=
  match ws with
  | [] => []
  | (k, v) :: rest =>
      if String.eqb k key
      then (rev, v) :: records key (rev + 1) rest
      else records key (rev + 1) rest
  end.

Definition current (key : string) (w : server) : option (N * option (list byte)) :=
  last (map Some (records key 1 (writes w))) None.

Definition get (key : string) (w : server) : result KeyValueEntry :=
  match current key w with
  | Some (rev, Some v) => Val {| Value := v; Revision := rev |}
  | _ => Fail ErrKeyNotFound
  end.

Definition get_revision (key : string) (revision : N) (w : server)
  : result KeyValueEntry :=
  match find (fun p => N.eqb (fst p) revision) (records key 1 (writes w)) with
  | Some (rev, Some v) => Val {| Value := v; Revision := rev |}
  | _ => Fail ErrKeyNotFound
  end.

Fixpoint live (l : list (N * option (list byte))) : list KeyValueEntry :=
  match l with
  | [] => []
  | (rev, Some v) :: rest => {| Value := v; Revision := rev |} :: live rest
  | (_, None) :: rest => live rest
  end.

Definition history (key : string) (w : server) : result (list KeyValueEntry) :=
  match live (records key 1 (writes w)) with
  | [] => Fail ErrKeyNotFound
  | l => Val l
  end.

Definition put (key : string) (v : list byte) (w : server) : (N * goerror) * server :=
  let ws := writes w ++ [(key, Some v)] in
  ((N.of_nat (List.length ws), None), set_writes w ws).

(** The server's answer to a write whose expected last sequence is stale. *)
Definition wrong_last_sequence (cur : N) : error :=
  Errorf_w "nats: "
    (jetStreamError
       (Some {| Code := 400; ErrorCode := 10071;
                Description := ("wrong last sequence: " ++ itoa (Z.of_N cur))%string |})
       ("nats: API error: code=400 err_code=10071 description=wrong last sequence: "
        ++ itoa (Z.of_N cur))%string).

Definition update (key : string) (v : list byte) (last : N) (w : server)
  : (N * goerror) * server :=
  let cur := match current key w with
             | Some (rev, _) => rev
             | None => 0%N
             end in
  if N.eqb cur last then put key v w
  else ((0%N, Some (wrong_last_sequence cur)), w).

Definition delete (key : string) (w : server) : goerror * server :=
  (None, set_writes w (writes w ++ [(key, None)])).

(** The current value of every key that has one, in stream order. *)
Fixpoint snapshot (rev : N) (ws : list (string * option (list byte)))
  : list KeyValueEntry :=
  match ws with
  | [] => []
  | (k, v) :: rest =>
      match v, records k (rev + 1) rest with
      | Some v, [] => {| Value := v; Revision := rev |} :: snapshot (rev + 1) rest
      | _, _ => snapshot (rev + 1) rest
      end
  end.

(** The watch delivers the snapshot, then nil to mark its end; later
    writes are not simulated. *)
Definition watch_all (b : bucket) (w : server) : result unit * server :=
  match b with
  | Disconnected => (Fail (errorString "nats: connection closed"), w)
  | Connected =>
      (Val tt,
       set_closed
         (set_updates w (map Some (snapshot 1 (writes w)) ++ [None])) false)
  end.

(** A receive on a closed channel yields nil; on an open, empty one it
    does not return. *)
Definition recv (w : server) : option (option KeyValueEntry) * server :=
  match updates w with
  | u :: rest => (Some u, set_updates w rest)
  | [] => if closed w then (Some None, w) else (None, w)
  end.

Definition fetch (n : Z) (w : server) : result (list msg) * server :=
  (Val (firstn (Z.to_nat n) (queue w)),
   set_queue w (skipn (Z.to_nat n) (queue w))).

Definition ack (m : msg) (w : server) : goerror * server :=
  if ack_fails m
  then (Some (errorString "nats: message was already acknowledged"), w)
  else (None, set_acked w (acked w ++ [msg_id m])).

(** A nak puts the message back for redelivery. *)
Definition nak (m : msg) (w : server) : goerror * server :=
  if ack_fails m
  then (Some (errorString "nats: message was already acknowledged"), w)
  else (None, set_queue w (queue w ++ [m])).

#[export] Instance broker : External := {|
  World := server;
  Ctx := unit;
  KeyValue := bucket;
  KeyWatcher := unit;
  WatchOpt := unit;
  IgnoreDeletes := tt;
  kv_Get := fun _ _ key w => (get key w, w);
  kv_GetRevision := fun _ _ key revision w => (get_revision key revision w, w);
  kv_History := fun _ _ key w => (history key w, w);
  kv_Put := fun _ _ key v w => put key v w;
  kv_Update := fun _ _ key v last w => update key v last w;
  kv_Delete := fun _ _ key w => delete key w;
  kv_WatchAll := fun b _ _ w => watch_all b w;
  updates_recv := fun _ w => recv w;
  watcher_Stop := fun _ w => (None, set_closed w true);
  Consumer := unit;
  Msg := msg;
  FetchOpt := unit;
  consumer_Fetch := fun _ n _ w => fetch n w;
  msg_Data := data;
  msg_Ack := ack;
  msg_Nak := nak;
  Logger := unit;
  logger_emit := fun _ _ _ _ w => set_logs w (S (logs w));
  discardLogger := tt
|}.

(** JSON at the value type [N]: a number is its decimal digits. *)
Definition parse (d : list byte) : option N :=
  match d with
  | [] => None
  | _ =>
      match NilEmpty.uint_of_string (string_of_list_byte d) with
      | Some u => Some (N.of_uint u)
      | None => None
      end
  end.

#[export] Instance json_N : Codec N := {|
  zero := 0%N;
  Marshal := fun n => Val (list_byte_of_string (itoa (Z.of_N n)));
  Unmarshal := fun d v =>
    match parse d with
    | Some n => (n, None)
    | None => (v, Some (errorString "invalid character looking for beginning of value"))
    end
|}.

Definition bytes (s : string) : list byte := list_byte_of_string s.

Definition start {E} (w : server) : state server E := {| world := w; trace := [] |}.
End Mem.

(** Buckets, streams and handlers to run the code on. *)
Module Fixtures.
Import Mem.
Local Open Scope string_scope.

Definition users : kv.KV := kv.NewKV Connected "users".
Definition offline : kv.KV := kv.NewKV Disconnected "users".

Definition fresh {E} : state server E := start empty.

(** "user1" written twice, as the tests do: revisions 1 and 2. *)
Definition two_puts : state server kv.call :=
  Eval vm_compute in
    snd (kv.Put users tt "user1" 43%N (snd (kv.Put users tt "user1" 42%N fresh))).

(** A bucket that also holds a record nobody wrote through [users]. *)
Definition foreign_record : state server kv.call :=
  start (set_writes empty [("raw", Some (bytes "7"))]).

(** A bucket whose first record is not JSON for the value type. *)
Definition bad_then_good : state server kv.call :=
  start (set_writes empty [("users.a", Some (bytes "oops"));
                           ("users.b", Some (bytes "8"))]).

Definition m0 : msg := mkMsg 0 (bytes "0") false.
Definition m1 : msg := mkMsg 1 (bytes "{ _this_is_not_json_ }") false.
Definition m1_stuck : msg := mkMsg 1 (bytes "{ _this_is_not_json_ }") true.
Definition m2 : msg := mkMsg 2 (bytes "2") false.
Definition m3 : msg := mkMsg 3 (bytes "3") false.
Definition m5_stuck : msg := mkMsg 5 (bytes "5") true.

Definition pending (l : list msg) : state server (event N) :=
  start (set_queue empty l).

(** Handlers: all succeed; odd numbers fail; a slice that is too short.
    None of the three writes to its argument. *)
Definition succeed : handler (ext:=broker) N :=
  fun _ msgs w => ((map (fun _ => None) msgs, msgs), w).
Definition fail_odd : handler (ext:=broker) N :=
  fun _ msgs w =>
    ((map (fun n => if N.even n then None else Some (errorString "odd")) msgs,
      msgs), w).
Definition too_short : handler (ext:=broker) N :=
  fun _ msgs w => (([], msgs), w).

(** A handler that fails the odd numbers and overwrites each of them
    with its successor in the slice it was given. *)
Definition fix_odd : handler (ext:=broker) N :=
  fun _ msgs w =>
    ((map (fun n => if N.even n then None else Some (errorString "odd")) msgs,
      map (fun n => if N.even n then n else N.succ n) msgs), w).

Definition count_failure : N -> error -> server -> server :=
  fun _ _ w => w.

Definition plain (p : handler (ext:=broker) N)
  : BatchGo.BatchProcessor (T:=N) :=
  BatchGo.set_ErrorHandler (BatchGo.NewBatchProcessor tt 10 p [])
                           (Some count_failure).

Definition logging (p : handler (ext:=broker) N)
  : Part001.BatchProcessor (T:=N) :=
  Part001.set_ErrorHandler (Part001.NewBatchProcessor tt 10 p [])
                           (Some count_failure).

(** Two worlds that differ at most in the number of log records. *)
Definition same_but_logs (w1 w2 : server) : Prop :=
  set_logs w1 0 = set_logs w2 0.
End Fixtures.

From Stdlib Require Import Permutation DecimalN DecimalPos.

(* ===================================================================== *)
(** ** The publisher *)
(* ===================================================================== *)

(** [*nats.Conn], as far as the publisher uses it. *)
Class Connection {ext : External} : Type := {
  Conn : Type;
  conn_Publish : Conn -> string -> list byte -> World -> goerror * World
}.

Module Part002.
Section Publisher.
Context {ext : External} {conn : Connection} {T : Type} {codec : Codec T}.
Local Open Scope go_scope.

(** One [NC.Publish] call, with its answer. *)
Inductive sent : Type :=
| EvPublish (topic : string) (data : list byte) (r : goerror).

Record Publisher : Type := mkPublisher {
  NC : Conn
}.

Definition NewPublisher (nc : Conn) : Publisher := {| NC := nc |}.

(** [for _, vv := range v]: the first failure returns. *)
Fixpoint Publish (p : Publisher) (topic : string) (v : list T)
  : M World sent goerror :=
  match v with
  | [] => ret None
  | vv :: rest =>
      match Marshal vv with
      | Fail err => ret (Some (Errorf_w "failed to marshal message: " err))
      | Val b =>
          err <- extern (conn_Publish (NC p) topic b) (EvPublish topic b) ;;
          match err with
          | Some err => ret (Some (Errorf_w "failed to publish message: " err))
          | None => Publish p topic rest
          end
      end
  end.
End Publisher.
End Part002.

(* ===================================================================== *)
(** ** The loop over an iterator, as the tests write it *)
(* ===================================================================== *)

Module Part000.
Section Iterate.
Context {ext : External} {T : Type} {codec : Codec T}.
Local Open Scope go_scope.

(** [for iterator.Next() { actual = append(actual, iterator.Value) }]:
    [None] when the loop has not ended after [fuel] rounds. *)
Fixpoint collect (fuel : nat) (iterator : kv.Iterator) (actual : list T)
  : kv.IO (option (list T * kv.Iterator)) :=
  match fuel with
  | O => ret None
  | S fuel' =>
      r <- kv.Next iterator ;;
      let (more, iterator) := r in
      if more
      then collect fuel' iterator (actual ++ [kv.It_Value iterator])
      else ret (Some (actual, iterator))
  end.

(** [iterator := db.List(ctx)], the loop, [iterator.Error] and
    [iterator.Stop()]: the values collected and the error left in the
    iterator. *)
Definition list_all (fuel : nat) (db : kv.KV) (ctx : Ctx)
  : kv.IO (option (list T * goerror)) :=
  it <- kv.List db ctx ;;
  match it with
  | None => panic
  | Some iterator =>
      r <- collect fuel iterator [] ;;
      match r with
      | None => ret None
      | Some (actual, iterator) =>
          kv.Stop iterator ;;;
          ret (Some (actual, kv.It_Error iterator))
      end
  end.
End Iterate.
End Part000.

(* ===================================================================== *)
(** ** What the properties below are stated with *)
(* ===================================================================== *)

Section MoreSpecs.
Context {ext : External} {T : Type} {codec : Codec T}.

(** The codec reads back what it wrote. *)
Definition round_trips : Prop :=
  forall (v : T) (b : list byte), Marshal v = Val b -> Unmarshal b zero = (v, None).

(** A bucket that keeps what is written: after a write that succeeded
    with revision [rev], a read of the same subject answers the bytes
    written at revision [rev]; after a delete that succeeded, it answers
    [ErrKeyNotFound]. *)
Record keeps_writes (b : KeyValue) : Prop := {
  kw_put : forall ctx ctx' subj bytes w rev w1,
      kv_Put b ctx subj bytes w = ((rev, None), w1) ->
      fst (kv_Get b ctx' subj w1) = Val {| Value := bytes; Revision := rev |};
  kw_update : forall ctx ctx' subj bytes last w rev w1,
      kv_Update b ctx subj bytes last w = ((rev, None), w1) ->
      fst (kv_Get b ctx' subj w1) = Val {| Value := bytes; Revision := rev |};
  kw_delete : forall ctx ctx' subj w w1,
      kv_Delete b ctx subj w = (None, w1) ->
      fst (kv_Get b ctx' subj w1) = Fail ErrKeyNotFound
}.

(** What [json.Unmarshal] makes of an entry's bytes. *)
Definition entry_value (entry : KeyValueEntry) : T :=
  fst (Unmarshal (Value entry) zero).
Definition entry_error (entry : KeyValueEntry) : goerror :=
  snd (Unmarshal (Value entry) zero).

(** From the world [w], the channel of the watch [kw] delivers [items]
    one after the other ([None] is the nil entry). *)
Inductive delivers (kw : KeyWatcher) : World -> list (option KeyValueEntry) -> Prop :=
| delivers_nil w : delivers kw w []
| delivers_cons w u w' rest :
    updates_recv kw w = (Some u, w') ->
    delivers kw w' rest ->
    delivers kw w (u :: rest).

(** The receives that answered [items], as the broker saw them. *)
Definition recvs (kw : KeyWatcher) (items : list (option KeyValueEntry))
  : list kv.call :=
  map (fun u => kv.CallRecv kw (Some u)) items.

(** What ends the loop over an iterator: the nil entry, or an entry
    that does not decode; the error it leaves. *)
Definition stopper_error (u : option KeyValueEntry) : goerror :=
  match u with
  | None => None
  | Some entry => entry_error entry
  end.

Definition stops (u : option KeyValueEntry) : Prop :=
  match u with
  | None => True
  | Some entry => entry_error entry <> None
  end.

(** The messages acked or nak'ed in a trace, in order. *)
Definition resolved (tr : list (event T)) : list Msg :=
  map (fun x => snd (fst x)) (resolutions tr).

(** The number of error outcomes. *)
Definition failed_count (errs : list goerror) : Z :=
  Z.of_nat (List.length (non_nil errs)).

(** The errors the broker answered in a trace, in order: a failed
    fetch, a failed ack, a failed nak. *)
Fixpoint broker_errors (tr : list (event T)) : list error :=
  match tr with
  | [] => []
  | EvFetch _ _ (Fail e) :: rest => e :: broker_errors rest
  | EvAck _ (Some e) :: rest => e :: broker_errors rest
  | EvNak _ (Some e) :: rest => e :: broker_errors rest
  | _ :: rest => broker_errors rest
  end.

(** The first JetStream error that [errors.As] finds in a list of
    errors. *)
Fixpoint first_JetStreamError (es : list error) : option (option APIError * string) :=
  match es with
  | [] => None
  | e :: rest =>
      match errors_As_JetStreamError e with
      | Some x => Some x
      | None => first_JetStreamError rest
      end
  end.

(** The counter of the logging version's resolve loop, started at [n]:
    one more, as an [int], for each error outcome. *)
Fixpoint errCount_after (n : Z) (errs : list goerror) : Z :=
  match errs with
  | [] => n
  | Some _ :: rest => errCount_after (int (n + 1)) rest
  | None :: rest => errCount_after n rest
  end.

(** A constructor option of the logging version: one of the two the
    package offers. *)
Inductive option_of : Type :=
| OptLogger (log : option Logger)
| OptFetch (opts : list FetchOpt).

Definition to_opt (o : option_of) : Part001.BatchProcessorOpt (T:=T) :=
  match o with
  | OptLogger log => Part001.WithLogger log
  | OptFetch opts => Part001.WithFetchOpts opts
  end.

(** The fetch options of a list of options, concatenated in order. *)
Fixpoint fetch_of (os : list option_of) : list FetchOpt :=
  match os with
  | [] => []
  | OptFetch opts :: rest => opts ++ fetch_of rest
  | OptLogger _ :: rest => fetch_of rest
  end.

(** The logger the last [WithLogger] gives, [cur] when there is none. *)
Fixpoint logger_of (os : list option_of) (cur : option Logger) : option Logger :=
  match os with
  | [] => cur
  | OptLogger log :: rest => logger_of rest log
  | OptFetch _ :: rest => logger_of rest cur
  end.
End MoreSpecs.

Section PublishSpecs.
Context {ext : External} {conn : Connection} {T : Type} {codec : Codec T}.

(** The successful publications of the bytes [bs] on [topic]. *)
Definition published (topic : string) (bs : list (list byte)) : list Part002.sent :=
  map (fun b => Part002.EvPublish topic b None) bs.

(** Each value encodes to the bytes beside it. *)
Definition encoded (vs : list T) (bs : list (list byte)) : Prop :=
  Forall2 (fun v b => Marshal v = Val b) vs bs.
End PublishSpecs.

(** The in-process broker with a connection that feeds the consumer's
    queue: a published payload becomes a pending message; an empty topic
    is refused, and so is a payload larger than the connection allows. *)
Module MemConn.
Import Mem.
#[export] Instance connection : Connection (ext:=broker) := {|
  Conn := nat;    (* the largest payload the server accepts, in bytes *)
  conn_Publish := fun max_payload topic b w =>
    if String.eqb topic EmptyString
    then (Some (errorString "nats: invalid subject"), w)
    else if (max_payload <? List.length b)%nat
    then (Some (errorString "nats: maximum payload exceeded"), w)
    else (None,
          set_queue w (queue w ++ [mkMsg (List.length (queue w) + List.length (acked w))
                                         b false]))
|}.
End MemConn.

(** More buckets and a publisher to run the code on. *)
Module MoreFixtures.
Import Mem Fixtures MemConn.
Local Open Scope string_scope.

(** The history of "user1": a value, bytes that are not JSON for the
    value type, and a value again. *)
Definition broken_history : state server kv.call :=
  Eval vm_compute in
    start (set_writes empty
             [(kv.keyToSubject users "user1", Some (bytes "7"));
              (kv.keyToSubject users "user1", Some (bytes "oops"));
              (kv.keyToSubject users "user1", Some (bytes "9"))]).

(** A bucket whose second record is not JSON for the value type. *)
Definition good_then_bad : state server kv.call :=
  start (set_writes empty [("users.a", Some (bytes "8"));
                           ("users.b", Some (bytes "oops"))]).

(** A publisher whose server accepts payloads of four bytes at most. *)
Definition narrow : Part002.Publisher (conn:=connection) :=
  Part002.NewPublisher 4%nat.
End MoreFixtures.

(* ===================================================================== *)
(** * Properties *)
(* ===================================================================== *)

Unset Implicit Arguments.

(** ** Errors *)

(** Induction on errors that reaches under [errors.Join]. *)
Lemma error_nested_ind (P : error -> Prop) :
  (forall s, P (errorString s)) ->
  (forall a t, P (jetStreamError a t)) ->
  (forall m e, P e -> P (wrapError m e)) ->
  (forall l, Forall P l -> P (joinError l)) ->
  forall e, P e.
Proof.
  intros Hs Hj Hw Hl.
  fix IH 1.
  intros [s | a t | m e | l].
  - apply Hs.
  - apply Hj.
  - apply Hw, IH.
  - apply Hl. induction l as [| x l IHl]; constructor; [apply IH | exact IHl].
Qed.

Lemma APIError_eqb_eq (a b : APIError) : APIError_eqb a b = true <-> a = b.
Proof.
  destruct a as [c1 e1 d1], b as [c2 e2 d2]. unfold APIError_eqb. simpl.
  rewrite !andb_true_iff, !Z.eqb_eq, String.eqb_eq.
  split.
  - intros [[-> ->] ->]. reflexivity.
  - intros H. inversion H. auto.
Qed.

(** [error_eqb] decides equality of error values. *)
Lemma error_eqb_eq (a : error) : forall b, error_eqb a b = true <-> a = b.
Proof.
  induction a as [s | x s | m e IHe | l IHl] using error_nested_ind;
    intros [t | y t | n f | r]; simpl; try (split; [discriminate | discriminate]).
  - rewrite String.eqb_eq. split; [intros -> | intros [= ->]]; reflexivity.
  - rewrite andb_true_iff, String.eqb_eq.
    destruct x as [p |], y as [q |].
    + rewrite APIError_eqb_eq.
      split; [intros [-> ->]; reflexivity | intros [= -> ->]; auto].
    + split; [intros [H _]; discriminate | discriminate].
    + split; [intros [H _]; discriminate | discriminate].
    + split; [intros [_ ->]; reflexivity | intros [= ->]; auto].
  - rewrite andb_true_iff, String.eqb_eq, IHe.
    split; [intros [-> ->] | intros [= -> ->]]; auto.
  - revert r. induction IHl as [| x l Hx _ IH]; intros [| y r];
      try (split; [discriminate | discriminate]).
    + split; reflexivity.
    + rewrite andb_true_iff, Hx, IH.
      split; [intros [-> [= ->]] | intros [= -> ->]]; auto.
Qed.

Lemma non_nil_nil_iff (errs : list goerror) :
  non_nil errs = [] <-> Forall (fun r => r = None) errs.
Proof.
  induction errs as [| [e |] errs IH]; simpl.
  - split; constructor.
  - split; [discriminate | intros H; inversion H; discriminate].
  - rewrite IH. split; [constructor; auto | intros H; inversion H; auto].
Qed.

(** [errors.Join] is nil exactly when every argument is nil. *)
Lemma errors_Join_nil_iff (errs : list goerror) :
  errors_Join errs = None <-> Forall (fun r => r = None) errs.
Proof.
  rewrite <- non_nil_nil_iff. unfold errors_Join.
  destruct (non_nil errs); split; intros; congruence.
Qed.

(** ** The digest and its hexadecimal text *)

(** The constants are those of [crypto/sha256]: first and last of each. *)
Example sha256_constants :
  List.length sha256.init = 8%nat
  /\ List.length sha256._K = 64%nat
  /\ hd 0%Z sha256.init = 0x6A09E667%Z
  /\ last sha256.init 0%Z = 0x5BE0CD19%Z
  /\ hd 0%Z sha256._K = 0x428a2f98%Z
  /\ last sha256._K 0%Z = 0xc67178f2%Z.
Proof. vm_compute. repeat split. Qed.

(** Digests of the empty string, of "abc", and of messages of 56 and 64
    bytes, which pad into a second block. *)
Example sha256_vectors :
  hex.EncodeToString (sha256.Sum256 [])
  = "e3b0c44298fc1c149afbf4c8996fb92427ae41e4649b934ca495991b7852b855"%string
  /\ hex.EncodeToString (sha256.Sum256 (list_byte_of_string "abc"))
     = "ba7816bf8f01cfea414140de5dae2223b00361a396177a9cb410ff61f20015ad"%string
  /\ hex.EncodeToString (sha256.Sum256 (repeat "a"%byte 56))
     = "b35439a4ac6f0948b6d6f9e3c6af0f5f590ce20f1bde7090ef7970686ec6738a"%string
  /\ hex.EncodeToString (sha256.Sum256 (repeat "a"%byte 64))
     = "ffe054fe7ae0cb6dc65c3af9b61d5209f439851db43d0ba5997337df154668eb"%string.
Proof. vm_compute. repeat split. Qed.

Lemma round_length (s : list Z) (kw : Z * Z) :
  List.length s = 8%nat -> List.length (sha256.round s kw) = 8%nat.
Proof.
  intros H.
  do 9 (destruct s as [| ? s]; try discriminate H).
  reflexivity.
Qed.

Lemma rounds_length (kws : list (Z * Z)) :
  forall s, List.length s = 8%nat ->
            List.length (fold_left sha256.round kws s) = 8%nat.
Proof.
  induction kws as [| kw kws IH]; intros s H; simpl.
  - exact H.
  - apply IH, round_length, H.
Qed.

Lemma block_length (h : list Z) (chunk : list byte) :
  List.length h = 8%nat -> List.length (sha256.block h chunk) = 8%nat.
Proof.
  intros H. unfold sha256.block.
  rewrite length_map, length_combine, rounds_length by exact H.
  rewrite H. reflexivity.
Qed.

Lemma blocks_length (n : nat) :
  forall h p, List.length h = 8%nat -> List.length (sha256.blocks n h p) = 8%nat.
Proof.
  induction n as [| n IH]; intros h p H; simpl.
  - exact H.
  - apply IH, block_length, H.
Qed.

Lemma be_bytes_length (l : list Z) :
  List.length (flat_map sha256.be_bytes32 l) = (4 * List.length l)%nat.
Proof.
  induction l as [| w l IH]; simpl; [reflexivity |].
  rewrite IH. lia.
Qed.

(** A SHA-256 digest is 32 bytes, whatever was hashed. *)
Lemma Sum256_length (p : list byte) : List.length (sha256.Sum256 p) = 32%nat.
Proof.
  unfold sha256.Sum256.
  rewrite be_bytes_length, blocks_length; reflexivity.
Qed.

Lemma EncodeToString_length (src : list byte) :
  String.length (hex.EncodeToString src) = (2 * List.length src)%nat.
Proof.
  induction src as [| v src IH]; simpl; [reflexivity |].
  rewrite IH. lia.
Qed.

Lemma EncodeToString_lower_hex (src : list byte) :
  string_forallb is_lower_hex (hex.EncodeToString src) = true.
Proof.
  induction src as [| v src IH]; simpl; [reflexivity |].
  rewrite IH.
  destruct v; reflexivity.
Qed.

(** ** The monad *)

Lemma skipn_app_length {A} (l d : list A) : skipn (List.length l) (l ++ d) = d.
Proof.
  induction l as [| x l IH]; simpl; [reflexivity | exact IH].
Qed.

Lemma added_intro {W E A} (m : M W E A) (s : state W E) (d : list E) :
  trace (snd (m s)) = trace s ++ d -> added m s = d.
Proof.
  intros H. unfold added. rewrite H. apply skipn_app_length.
Qed.

Lemma extern_run {W E A} (f : W -> A * W) (ev : A -> E) (s : state W E) :
  extern f ev s =
  (Returns (fst (f (world s))),
   {| world := snd (f (world s)); trace := trace s ++ [ev (fst (f (world s)))] |}).
Proof.
  unfold extern. destruct (f (world s)); reflexivity.
Qed.

(** ** kv.go *)

Section KVProps.
Context {ext : External} {T : Type} {codec : Codec T}.
Local Open Scope string_scope.

Lemma index_trace {A} (l : list A) (i : nat) (s : state World kv.call) :
  snd (index l i s) = s.
Proof. unfold index. destruct (nth_error l i); reflexivity. Qed.

Lemma store_trace {A} (l : list A) (i : nat) (x : A) (s : state World kv.call) :
  snd (store l i x s) = s.
Proof. unfold store. destruct (set_nth l i x); reflexivity. Qed.

(** The decoding loop of [History] makes no call. *)
Lemma History_loop_state (entries : list KeyValueEntry) :
  forall i values s, snd (kv.History_loop (T:=T) entries i values s) = s.
Proof.
  induction entries as [| entry rest IH]; intros i values s; simpl.
  - reflexivity.
  - unfold bind, index.
    destruct (nth_error values i) as [slot |]; [| reflexivity].
    unfold ret at 1.
    destruct (Unmarshal (Value entry) slot) as [v err].
    unfold store. destruct (set_nth values i v) as [values' |]; [| reflexivity].
    unfold ret at 1.
    destruct err as [err |]; [reflexivity | apply IH].
Qed.

(** C6, as amended.  The subject of a key is the prefix, a dot, and the
    64 lowercase hexadecimal digits of the SHA-256 of the key.  Each of
    Get, GetRevision, History, Put, Update and Delete makes at most one
    call on the broker, and that call names exactly this subject (Put
    and Update make none when the value cannot be encoded).  List has no
    key: its one call is WatchAll with IgnoreDeletes, which names no
    subject. *)
Theorem keyToSubject_addressing (db : kv.KV) (key : string) :
  let digest := hex.EncodeToString (sha256.Sum256 (list_byte_of_string key)) in
  let subj := kv.keyToSubject db key in
  subj = kv.subject db ++ "." ++ digest
  /\ String.length digest = 64%nat
  /\ string_forallb is_lower_hex digest = true
  /\ (forall (ctx : Ctx) (s : state World kv.call) (revision last : N) (value : T),
        (exists r, added (kv.Get (T:=T) db ctx key) s = [kv.CallGet subj r])
        /\ (exists r, added (kv.GetRevision (T:=T) db ctx key revision) s
                      = [kv.CallGetRevision subj revision r])
        /\ (exists r, added (kv.History (T:=T) db ctx key) s = [kv.CallHistory subj r])
        /\ match Marshal value with
           | Val entry =>
               (exists r, added (kv.Put db ctx key value) s = [kv.CallPut subj entry r])
               /\ (exists r, added (kv.Update db ctx key value last) s
                             = [kv.CallUpdate subj entry last r])
           | Fail _ =>
               added (kv.Put db ctx key value) s = []
               /\ added (kv.Update db ctx key value last) s = []
           end
        /\ (exists r, added (kv.Delete db ctx key) s = [kv.CallDelete subj r]))
  /\ (forall (ctx : Ctx) (s : state World kv.call),
        exists r, added (kv.List (T:=T) db ctx) s = [kv.CallWatchAll [IgnoreDeletes] r]
                  /\ addressed (kv.CallWatchAll [IgnoreDeletes] r) = None).
Proof.
  intros digest subj.
  split; [reflexivity |].
  split; [unfold digest; rewrite EncodeToString_length, Sum256_length; reflexivity |].
  split; [apply EncodeToString_lower_hex |].
  split.
  - intros ctx s revision last value.
    repeat split.
    + exists (fst (kv_Get (kv.kv db) ctx subj (world s))). apply added_intro.
      unfold kv.Get, bind. rewrite extern_run. fold subj.
      destruct (fst (kv_Get (kv.kv db) ctx subj (world s))) as [entry | err].
      * destruct (Unmarshal (Value entry) zero). reflexivity.
      * destruct (error_eqb err ErrKeyNotFound); reflexivity.
    + exists (fst (kv_GetRevision (kv.kv db) ctx subj revision (world s))).
      apply added_intro.
      unfold kv.GetRevision, bind. rewrite extern_run. fold subj.
      destruct (fst (kv_GetRevision (kv.kv db) ctx subj revision (world s)))
        as [entry | err].
      * destruct (Unmarshal (Value entry) zero). reflexivity.
      * destruct (error_eqb err ErrKeyNotFound); reflexivity.
    + exists (fst (kv_History (kv.kv db) ctx subj (world s))). apply added_intro.
      unfold kv.History, bind. rewrite extern_run. fold subj.
      destruct (fst (kv_History (kv.kv db) ctx subj (world s))) as [entries | err].
      * rewrite History_loop_state. reflexivity.
      * destruct (error_eqb err ErrKeyNotFound); reflexivity.
    + destruct (Marshal value) as [entry | err] eqn:HM.
      * split.
        -- eexists. apply added_intro.
           unfold kv.Put. rewrite HM, extern_run. reflexivity.
        -- exists (fst (kv_Update (kv.kv db) ctx subj entry last (world s))).
           apply added_intro.
           unfold kv.Update, bind. rewrite HM, extern_run. fold subj.
           destruct (fst (kv_Update (kv.kv db) ctx subj entry last (world s)))
             as [rev err].
           destruct (errors_As err) as [[[apiErr |] text] |]; try reflexivity.
           destruct (ErrorCode apiErr =? JSErrCodeStreamWrongLastSequence)%Z;
             reflexivity.
      * split; apply added_intro.
        -- unfold kv.Put. rewrite HM. simpl. rewrite app_nil_r. reflexivity.
        -- unfold kv.Update. rewrite HM. simpl. rewrite app_nil_r. reflexivity.
    + eexists. apply added_intro.
      unfold kv.Delete. rewrite extern_run. reflexivity.
  - intros ctx s.
    exists (fst (kv_WatchAll (kv.kv db) ctx [IgnoreDeletes] (world s))).
    split; [| reflexivity].
    apply added_intro.
    unfold kv.List, bind. rewrite extern_run.
    destruct (fst (kv_WatchAll (kv.kv db) ctx [IgnoreDeletes] (world s)));
      reflexivity.
Qed.

(** C7.  When the broker answers [ErrKeyNotFound], Get returns the zero
    value, revision 0, found = false and a nil error; GetRevision the
    zero value, found = false and a nil error; History the nil slice,
    found = false and a nil error. *)
Theorem not_found_is_not_an_error
        (db : kv.KV) (ctx : Ctx) (key : string) (revision : N)
        (s : state World kv.call) :
  (fst (kv_Get (kv.kv db) ctx (kv.keyToSubject db key) (world s))
   = Fail ErrKeyNotFound ->
   fst (kv.Get (T:=T) db ctx key s) = Returns (zero, 0%N, false, None))
  /\ (fst (kv_GetRevision (kv.kv db) ctx (kv.keyToSubject db key) revision (world s))
      = Fail ErrKeyNotFound ->
      fst (kv.GetRevision (T:=T) db ctx key revision s)
      = Returns (zero, false, None))
  /\ (fst (kv_History (kv.kv db) ctx (kv.keyToSubject db key) (world s))
      = Fail ErrKeyNotFound ->
      fst (kv.History (T:=T) db ctx key s) = Returns ([], false, None)).
Proof.
  repeat split; intros H.
  - unfold kv.Get, bind. rewrite extern_run, H. reflexivity.
  - unfold kv.GetRevision, bind. rewrite extern_run, H. reflexivity.
  - unfold kv.History, bind. rewrite extern_run, H. reflexivity.
Qed.

(** The shape the broker client gives an API error, the error wrapped
    with a prefix, is a wrong-last-sequence fault exactly when its code
    is 10071; an error with no JetStream error in its chain is not
    one. *)
Lemma wrong_last_sequence_fault_shapes (a : APIError) (text prefix s : string) :
  (wrong_last_sequence_fault
     (Some (Errorf_w prefix (jetStreamError (Some a) text)))
   <-> ErrorCode a = JSErrCodeStreamWrongLastSequence)
  /\ ~ wrong_last_sequence_fault (Some (errorString s))
  /\ ~ wrong_last_sequence_fault (Some (jetStreamError None text))
  /\ ~ wrong_last_sequence_fault None.
Proof.
  unfold wrong_last_sequence_fault. simpl.
  split; [split |].
  - intros (a' & t' & [= <- <-] & H). exact H.
  - intros H. exists a, text. auto.
  - repeat split; intros (a' & t' & H & _); discriminate H.
Qed.

(** C1.  When the value encodes and the broker's conditional write
    answers [(rev, err)]: if [err] carries the wrong-last-sequence API
    error, Update returns revision 0 and the sentinel
    [ErrOptimisticConcurrencyCheckFailed]; in every other case,
    including a nil [err], it returns the broker's [(rev, err)] as it
    is. *)
Theorem Update_maps_wrong_last_sequence
        (db : kv.KV) (ctx : Ctx) (key : string) (value : T) (last : N)
        (s : state World kv.call) (entry : list byte) (rev : N) (err : goerror) :
  Marshal value = Val entry ->
  fst (kv_Update (kv.kv db) ctx (kv.keyToSubject db key) entry last (world s))
  = (rev, err) ->
  (wrong_last_sequence_fault err ->
   fst (kv.Update db ctx key value last s)
   = Returns (0%N, Some ErrOptimisticConcurrencyCheckFailed))
  /\ (~ wrong_last_sequence_fault err ->
      fst (kv.Update db ctx key value last s) = Returns (rev, err)).
Proof.
  intros HM HU.
  unfold kv.Update, bind. rewrite HM, extern_run, HU.
  unfold wrong_last_sequence_fault.
  split.
  - intros (apiErr & text & -> & Hc).
    rewrite Hc, Z.eqb_refl. reflexivity.
  - intros Hn.
    destruct (errors_As err) as [[[apiErr |] text] |]; try reflexivity.
    destruct (ErrorCode apiErr =? JSErrCodeStreamWrongLastSequence)%Z eqn:Hc;
      [| reflexivity].
    exfalso. apply Hn. exists apiErr, text.
    split; [reflexivity | apply Z.eqb_eq, Hc].
Qed.

(** C8.  List always returns, and returns a non-nil iterator.  When the
    watch cannot be set up, with error [err], that iterator is a failed
    one: every Next returns false with Value the zero value and Error
    [err], and leaves a failed iterator behind, so the same holds for
    every later Next; Stop returns nil; none of them makes a call. *)
Theorem List_fails_closed (db : kv.KV) (ctx : Ctx) (s : state World kv.call) :
  (exists it s', kv.List (T:=T) db ctx s = (Returns (Some it), s'))
  /\ (forall err,
        fst (kv_WatchAll (kv.kv db) ctx [IgnoreDeletes] (world s)) = Fail err ->
        exists it s',
          kv.List (T:=T) db ctx s = (Returns (Some it), s')
          /\ failed_iterator err it)
  /\ (forall err (it : kv.Iterator) s1,
        failed_iterator err it ->
        exists it',
          kv.Next it s1 = (Returns (false, it'), s1)
          /\ kv.It_Value it' = zero
          /\ kv.It_Error it' = Some err
          /\ failed_iterator err it'
          /\ kv.Stop it s1 = (Returns None, s1)).
Proof.
  split; [| split].
  - unfold kv.List, bind. rewrite extern_run.
    destruct (fst (kv_WatchAll (kv.kv db) ctx [IgnoreDeletes] (world s)));
      eexists; eexists; reflexivity.
  - intros err H.
    unfold kv.List, bind. rewrite extern_run, H.
    eexists; eexists. split; [reflexivity |].
    split; intros s0; reflexivity.
  - intros err it s1 [Hnext Hstop].
    eexists. unfold kv.Next, kv.Stop, bind. rewrite Hnext, Hstop.
    repeat split; try reflexivity; simpl; auto.
Qed.

(** C9, as amended.  An iterator of List over an established watch
    keeps no terminal state.  Each Next is one receive on the watch's
    channel: nil gives no item and a nil Error; an entry that does not
    decode gives no item and the decode error in Error, and only that
    entry is consumed; an entry that decodes is the item.  Next leaves
    the iterator watching, so a Next after exhaustion or failure
    receives again, and returns an item when one arrives. *)
Theorem List_iterator_receives_each_time
        (db : kv.KV) (ctx : Ctx) (s : state World kv.call) (w : KeyWatcher) :
  fst (kv_WatchAll (kv.kv db) ctx [IgnoreDeletes] (world s)) = Val w ->
  (exists it s', kv.List (T:=T) db ctx s = (Returns (Some it), s')
                 /\ watching w it)
  /\ (forall (it it' : kv.Iterator) s1 s2 found,
        watching w it ->
        kv.Next it s1 = (Returns (found, it'), s2) ->
        watching w it'
        /\ exists r,
            fst (updates_recv w (world s1)) = Some r
            /\ trace s2 = (trace s1 ++ [kv.CallRecv w (Some r)])%list
            /\ match r with
               | None =>
                   found = false /\ kv.It_Error it' = None
               | Some update =>
                   found = is_nil (snd (Unmarshal (Value update) zero))
                   /\ kv.It_Value it' = fst (Unmarshal (Value update) zero)
                   /\ kv.It_Error it' = snd (Unmarshal (Value update) zero)
               end).
Proof.
  intros HW. split.
  - unfold kv.List, bind. rewrite extern_run, HW.
    eexists; eexists. split; [reflexivity |].
    intros s0. unfold kv.Next, bind. simpl. rewrite extern_run.
    destruct (updates_recv w (world s0)) as [r w1]. simpl.
    destruct r as [[update |] |]; try reflexivity.
    destruct (Unmarshal (Value update) zero) as [v [e |]]; reflexivity.
  - intros it it' s1 s2 found Hit HN.
    rewrite Hit in HN.
    destruct (updates_recv w (world s1)) as [r w1] eqn:Hr. simpl.
    destruct r as [[update |] |]; try discriminate HN.
    + destruct (Unmarshal (Value update) zero) as [v e] eqn:HU.
      injection HN as <- <- <-.
      split.
      * intros s0. specialize (Hit s0). unfold kv.Next in *. exact Hit.
      * exists (Some update). rewrite HU. simpl. auto.
    + injection HN as <- <- <-.
      split.
      * intros s0. specialize (Hit s0). unfold kv.Next in *. exact Hit.
      * exists None. simpl. auto.
Qed.
End KVProps.

(** ** The batch processor: the two loops and the whole call *)

Section LoopProps.
Context {ext : External} {T : Type} {codec : Codec T}.

Lemma bind_returns {W E A B} (m : M W E A) (k : A -> M W E B) s a s1 :
  m s = (Returns a, s1) -> bind m k s = k a s1.
Proof. unfold bind. intros ->. reflexivity. Qed.

Lemma set_nth_middle {A} (l r : list A) (y x : A) :
  set_nth (l ++ y :: r) (List.length l) x = Some (l ++ x :: r).
Proof.
  induction l as [| z l IH]; simpl; [reflexivity |].
  rewrite IH. reflexivity.
Qed.

Lemma nth_error_middle {A} (l r : list A) (y : A) :
  nth_error (l ++ y :: r) (List.length l) = Some y.
Proof.
  induction l as [| z l IH]; simpl; [reflexivity | exact IH].
Qed.

Lemma index_middle {E A} (l r : list A) (y : A) (i : nat) (s : state World E) :
  List.length l = i -> index (l ++ y :: r) i s = (Returns y, s).
Proof. intros <-. unfold index. rewrite nth_error_middle. reflexivity. Qed.

Lemma store_middle {E A} (l r : list A) (y x : A) (i : nat) (s : state World E) :
  List.length l = i -> store (l ++ y :: r) i x s = (Returns (l ++ x :: r), s).
Proof. intros <-. unfold store. rewrite set_nth_middle. reflexivity. Qed.

Lemma resolve_spec (b : BatchGo.BatchProcessor) (errs : list goerror) :
  forall (i : nat) (pm ms : list Msg) (pb bs : list T) (done : list goerror)
         (s : state World (event T)),
    List.length pm = i ->
    List.length pb = i ->
    List.length done = i ->
    List.length ms = List.length errs ->
    List.length bs = List.length errs ->
    exists tr rs s',
      BatchGo.resolve b (pb ++ bs) (pm ++ ms) errs i
                      (done ++ repeat None (List.length errs)) s
      = (Returns (done ++ rs), s')
      /\ trace s' = trace s ++ tr
      /\ resolve_run (has_hook (BatchGo.ErrorHandler b)) ms bs errs tr rs.
Proof.
  induction errs as [| err rest IH];
    intros i pm ms pb bs done s Hpm Hpb Hdone Hms Hbs.
  - destruct ms; [| discriminate]. destruct bs; [| discriminate].
    exists [], [], s. simpl. rewrite !app_nil_r.
    repeat split. constructor.
  - destruct ms as [| msg ms]; [discriminate |].
    destruct bs as [| bd bs]; [discriminate |].
    simpl in Hms, Hbs. injection Hms as Hms. injection Hbs as Hbs.
    cbn [BatchGo.resolve repeat List.length].
    erewrite bind_returns by (apply index_middle, Hpm).
    assert (Hatt : exists r s1,
               (match err with
                | Some err0 =>
                    (match BatchGo.ErrorHandler b with
                     | Some h =>
                         (body <- index (pb ++ bd :: bs) i ;;
                          call_ErrorHandler h body err0)%go
                     | None => ret tt
                     end ;;; Nak msg)%go
                | None => Ack msg
                end) s = (Returns r, s1)
               /\ trace s1 = trace s ++
                  match err with
                  | Some e => hook_events (has_hook (BatchGo.ErrorHandler b)) bd e
                              ++ [EvNak msg r]
                  | None => [EvAck msg r]
                  end).
    { destruct err as [e |].
      - destruct (BatchGo.ErrorHandler b) as [h |]; simpl.
        + erewrite bind_returns.
          2:{ erewrite bind_returns by (apply index_middle, Hpb).
              unfold call_ErrorHandler. apply extern_run. }
          unfold Nak. rewrite extern_run. cbn [fst snd world trace].
          eexists; eexists. split; [reflexivity |].
          rewrite <- app_assoc. reflexivity.
        + erewrite bind_returns by reflexivity.
          unfold Nak. rewrite extern_run.
          eexists; eexists. split; reflexivity.
      - unfold Ack. rewrite extern_run.
        eexists; eexists. split; reflexivity. }
    destruct Hatt as (r & s1 & Hatt & Htr1).
    erewrite bind_returns by exact Hatt.
    erewrite bind_returns by (apply store_middle, Hdone).
    destruct (IH (S i) (pm ++ [msg]) ms (pb ++ [bd]) bs (done ++ [r]) s1)
      as (tr & rs & s' & HR & HT & HRun);
      try (rewrite length_app; simpl; lia); try assumption.
    rewrite <- !app_assoc in HR. simpl in HR.
    exists (match err with
            | Some e => hook_events (has_hook (BatchGo.ErrorHandler b)) bd e
                        ++ EvNak msg r :: tr
            | None => EvAck msg r :: tr
            end), (r :: rs), s'.
    split; [exact HR |].
    split.
    + rewrite HT, Htr1. destruct err; rewrite <- !app_assoc; reflexivity.
    + destruct err; constructor; exact HRun.
Qed.

Lemma decodes_false (msg : Msg) (e : error) :
  decode_error msg = Some e -> decodes msg = false.
Proof. unfold decodes. intros ->. reflexivity. Qed.

Lemma decodes_true (msg : Msg) :
  decode_error msg = None -> decodes msg = true.
Proof. unfold decodes. intros ->. reflexivity. Qed.

Lemma decode_spec (messages : list Msg) :
  forall (bodies : list T) (msgs : list Msg) (s : state World (event T)),
  exists tr o r s',
    BatchGo.decode messages bodies msgs s = (Returns r, s')
    /\ trace s' = trace s ++ tr
    /\ decode_run messages tr o
    /\ match o with
       | None =>
           r = inr (bodies ++ map body (filter decodes messages),
                    msgs ++ filter decodes messages)
       | Some (e, ackErr) =>
           r = inl (errors_Join [Some (unmarshalErr e); Some ackErr])
       end.
Proof.
  induction messages as [| msg rest IH]; intros bodies msgs s.
  - exists [], None. eexists; eexists. simpl.
    rewrite !app_nil_r. repeat split. constructor.
  - simpl.
    destruct (Unmarshal (msg_Data msg) zero) as [fr err] eqn:HU.
    assert (Hb : body msg = fr) by (unfold body; rewrite HU; reflexivity).
    assert (He : decode_error msg = err)
      by (unfold decode_error; rewrite HU; reflexivity).
    destruct err as [e |].
    + rewrite (decodes_false _ _ He).
      unfold Ack at 1. erewrite bind_returns by apply extern_run.
      destruct (fst (msg_Ack msg (world s))) as [ackErr |].
      * exists [EvAck msg (Some ackErr)], (Some (e, ackErr)).
        eexists; eexists. repeat split.
        eapply dr_abort, He.
      * match goal with
        | |- context [BatchGo.decode rest bodies msgs ?s1] =>
            destruct (IH bodies msgs s1) as (tr & o & r & s' & HD & HT & HR & HO)
        end.
        exists (EvAck msg None :: tr), o, r, s'.
        repeat split; [exact HD | | | exact HO].
        -- rewrite HT. simpl. rewrite <- app_assoc. reflexivity.
        -- eapply dr_skip; eauto.
    + rewrite (decodes_true _ He).
      destruct (IH (bodies ++ [fr]) (msgs ++ [msg]) s)
        as (tr & o & r & s' & HD & HT & HR & HO).
      exists tr, o, r, s'.
      repeat split; [exact HD | exact HT | | ].
      * apply dr_keep; assumption.
      * destruct o as [[e a] |]; [exact HO |].
        rewrite HO. simpl. rewrite Hb, <- !app_assoc. reflexivity.
Qed.

Lemma decode_same (messages : list Msg) :
  forall (bodies : list T) (msgs : list Msg) (s : state World (event T)),
    Part001.decode messages bodies msgs s = BatchGo.decode messages bodies msgs s.
Proof.
  induction messages as [| msg rest IH]; intros bodies msgs s; simpl.
  - reflexivity.
  - destruct (Unmarshal (msg_Data msg) zero) as [fr [e |]].
    + unfold bind. destruct (Ack msg s) as [[[a |] | |] s1]; auto.
    + apply IH.
Qed.

Lemma len_zero {A} (l : list A) : (len l =? 0)%Z = true -> l = [].
Proof.
  unfold len. intros H. apply Z.eqb_eq in H.
  destruct l; [reflexivity | simpl in H; lia].
Qed.

Lemma len_nonzero {A} (l : list A) : (len l =? 0)%Z = false -> l <> [].
Proof. intros H ->. discriminate H. Qed.

Lemma len_eqb {A B} (l : list A) (r : list B) :
  (len l =? len r)%Z = true <-> List.length l = List.length r.
Proof. unfold len. rewrite Z.eqb_eq. lia. Qed.

Lemma overwrite_length (old cells : list T) :
  List.length (overwrite old cells) = List.length old.
Proof.
  revert cells. induction old as [| o old IH]; intros [| c cells]; simpl; auto.
Qed.

Lemma call_processor_run (p : handler T) (ctx : Ctx) (messages : list T)
      (s : state World (event T)) :
  call_processor p ctx messages s
  = (Returns (fst (fst (p ctx messages (world s))),
              overwrite messages (snd (fst (p ctx messages (world s))))),
     {| world := snd (p ctx messages (world s));
        trace := trace s
                 ++ [EvProcessor ctx messages
                       (fst (fst (p ctx messages (world s))))
                       (overwrite messages (snd (fst (p ctx messages (world s)))))] |}).
Proof.
  unfold call_processor. rewrite extern_run.
  destruct (p ctx messages (world s)) as [[errs cells] w']. reflexivity.
Qed.

Lemma Process_run (b : BatchGo.BatchProcessor) (ctx : Ctx)
      (s : state World (event T)) :
  exists res s' tr,
    BatchGo.Process b ctx s = (Returns res, s')
    /\ trace s' = trace s ++ tr
    /\ hd_error tr
       = Some (EvFetch (BatchGo.batchSize b) (BatchGo.fetchOpts b)
                       (fst (consumer_Fetch (BatchGo.consumer b) (BatchGo.batchSize b)
                                            (BatchGo.fetchOpts b) (world s))))
    /\ process_run (BatchGo.batchSize b) (BatchGo.fetchOpts b) ctx
                   (has_hook (BatchGo.ErrorHandler b)) tr res.
Proof.
  unfold BatchGo.Process.
  unfold Fetch at 1. erewrite bind_returns by apply extern_run.
  destruct (fst (consumer_Fetch (BatchGo.consumer b) (BatchGo.batchSize b)
                                (BatchGo.fetchOpts b) (world s)))
    as [messages | err]; cbv beta iota.
  - match goal with
    | |- context [bind (BatchGo.decode messages [] []) _ ?s1] =>
        destruct (decode_spec messages [] [] s1)
          as (tr & o & r & s2 & HD & HT & HR & HO)
    end.
    erewrite bind_returns by exact HD.
    cbn [trace] in HT.
    destruct o as [[e ackErr] |]; subst r.
    + eexists; eexists; eexists.
      split; [reflexivity |].
      split; [rewrite HT, <- app_assoc; reflexivity |].
      split; [reflexivity |].
      apply pr_poison_ack_failed, HR.
    + cbn [app].
      destruct (len (filter decodes messages) =? 0)%Z eqn:Hlen.
      * eexists; eexists; eexists.
        split; [reflexivity |].
        split; [rewrite HT, <- app_assoc; reflexivity |].
        split; [reflexivity |].
        apply pr_nothing_left; [exact HR | apply len_zero, Hlen].
      * erewrite bind_returns by apply call_processor_run. cbv beta iota.
        set (errs := fst (fst (BatchGo.processor b ctx
                                 (map body (filter decodes messages)) (world s2)))).
        set (left := overwrite (map body (filter decodes messages))
                       (snd (fst (BatchGo.processor b ctx
                                    (map body (filter decodes messages))
                                    (world s2))))).
        assert (Hleft : List.length left = List.length (filter decodes messages))
          by (unfold left; rewrite overwrite_length, length_map; reflexivity).
        destruct (len errs =? len (filter decodes messages))%Z eqn:Hlens; cbn [negb].
        -- apply len_eqb in Hlens.
           match goal with
           | |- context [bind (BatchGo.resolve b _ _ errs 0 _) _ ?s3] =>
               destruct (resolve_spec b errs 0 [] (filter decodes messages)
                                      [] left [] s3)
                 as (tr' & rs & s4 & HRes & HT' & HRun);
               try reflexivity; try congruence
           end.
           cbn [app] in HRes.
           erewrite bind_returns by exact HRes.
           eexists; eexists; eexists.
           split; [reflexivity |].
           split; [rewrite HT'; cbn [trace]; rewrite HT, <- !app_assoc; reflexivity |].
           split; [reflexivity |].
           cbn [app].
           apply pr_resolved;
             [exact HR | apply len_nonzero, Hlen | exact Hleft | exact HRun].
        -- eexists; eexists; eexists.
           split; [reflexivity |].
           split; [cbn [trace]; rewrite HT, <- !app_assoc; reflexivity |].
           split; [reflexivity |].
           cbn [app].
           apply pr_contract; [exact HR | apply len_nonzero, Hlen | exact Hleft |].
           intros Hl. apply len_eqb in Hl. congruence.
  - eexists; eexists; eexists.
    split; [reflexivity |].
    split; [reflexivity |].
    split; [reflexivity |].
    apply pr_fetch_failed.
Qed.

Lemma log_run (l : Logger) (level : Level) (msg : string) (attrs : list Attr)
      (s : state World (event T)) :
  log (Some l) level msg attrs s
  = (Returns tt,
     {| world := logger_emit l level msg attrs (world s);
        trace := trace s ++ [EvLog l level msg attrs] |}).
Proof. unfold log. rewrite extern_run. reflexivity. Qed.

Lemma unlogged_app (a b : list (event T)) :
  unlogged (a ++ b) = unlogged a ++ unlogged b.
Proof. apply filter_app. Qed.

Lemma resolve_log_spec (b : Part001.BatchProcessor) (l : Logger)
      (errs : list goerror) :
  Part001.Log b = Some l ->
  forall (i : nat) (pm ms : list Msg) (pb bs : list T) (done : list goerror)
         (n : Z) (s : state World (event T)),
    List.length pm = i ->
    List.length pb = i ->
    List.length done = i ->
    List.length ms = List.length errs ->
    List.length bs = List.length errs ->
    exists tr rs n' s',
      Part001.resolve b (pb ++ bs) (pm ++ ms) errs i n
                      (done ++ repeat None (List.length errs)) s
      = (Returns (n', done ++ rs), s')
      /\ trace s' = trace s ++ tr
      /\ resolve_run (has_hook (Part001.ErrorHandler b)) ms bs errs
                     (unlogged tr) rs.
Proof.
  intros HL.
  induction errs as [| err rest IH];
    intros i pm ms pb bs done n s Hpm Hpb Hdone Hms Hbs.
  - destruct ms; [| discriminate]. destruct bs; [| discriminate].
    exists [], [], n, s. simpl. rewrite !app_nil_r.
    repeat split. constructor.
  - destruct ms as [| msg ms]; [discriminate |].
    destruct bs as [| bd bs]; [discriminate |].
    simpl in Hms, Hbs. injection Hms as Hms. injection Hbs as Hbs.
    cbn [Part001.resolve repeat List.length].
    erewrite bind_returns by (apply index_middle, Hpm).
    match goal with
    | |- context [bind ?m _ s] =>
        assert (Hatt : exists n1 r s1 tr1,
                   m s = (Returns (n1, r), s1)
                   /\ trace s1 = trace s ++ tr1
                   /\ unlogged tr1
                      = match err with
                        | Some e =>
                            hook_events (has_hook (Part001.ErrorHandler b)) bd e
                            ++ [EvNak msg r]
                        | None => [EvAck msg r]
                        end)
    end.
    { destruct err as [e |].
      - rewrite HL. erewrite bind_returns by apply log_run.
        destruct (Part001.ErrorHandler b) as [h |]; simpl.
        + erewrite bind_returns.
          2:{ erewrite bind_returns by (apply index_middle, Hpb).
              unfold call_ErrorHandler. apply extern_run. }
          unfold Nak. erewrite bind_returns by apply extern_run.
          cbn [fst snd world trace].
          eexists; eexists; eexists; eexists. split; [reflexivity |].
          split; [rewrite <- !app_assoc; reflexivity | reflexivity].
        + erewrite bind_returns by reflexivity.
          unfold Nak. erewrite bind_returns by apply extern_run.
          cbn [fst snd world trace].
          eexists; eexists; eexists; eexists. split; [reflexivity |].
          split; [rewrite <- !app_assoc; reflexivity | reflexivity].
      - unfold Ack. erewrite bind_returns by apply extern_run.
        eexists; eexists; eexists; eexists. split; [reflexivity |].
        split; reflexivity. }
    destruct Hatt as (n1 & r & s1 & tr1 & Hatt & Htr1 & Hun).
    erewrite bind_returns by exact Hatt. cbv beta iota.
    erewrite bind_returns by (apply store_middle, Hdone).
    destruct (IH (S i) (pm ++ [msg]) ms (pb ++ [bd]) bs (done ++ [r]) n1 s1)
      as (tr & rs & n' & s' & HR & HT & HRun);
      try (rewrite length_app; simpl; lia); try assumption.
    rewrite <- !app_assoc in HR. simpl in HR.
    exists (tr1 ++ tr), (r :: rs), n', s'.
    split; [exact HR |].
    split; [rewrite HT, Htr1, <- app_assoc; reflexivity |].
    rewrite unlogged_app, Hun.
    destruct err; rewrite <- ?app_assoc; constructor; exact HRun.
Qed.

Lemma decode_run_unlogged (messages : list Msg) (tr : list (event T))
      (o : option (error * error)) :
  decode_run messages tr o -> unlogged tr = tr.
Proof.
  induction 1 as [| msg rest tr o He _ IH | msg e rest tr o He _ IH
                  | msg e ackErr rest He]; simpl; try rewrite IH; auto.
Qed.

Lemma Process_log_run (b : Part001.BatchProcessor) (l : Logger) (ctx : Ctx)
      (s : state World (event T)) :
  Part001.Log b = Some l ->
  exists res s' tr,
    Part001.Process b ctx s = (Returns res, s')
    /\ trace s' = trace s ++ tr
    /\ hd_error (unlogged tr)
       = Some (EvFetch (Part001.batchSize b) (Part001.fetchOpts b)
                 (fst (consumer_Fetch (Part001.consumer b) (Part001.batchSize b)
                         (Part001.fetchOpts b)
                         (logger_emit l LevelDebug "Fetching batch" [] (world s)))))
    /\ process_run (Part001.batchSize b) (Part001.fetchOpts b) ctx
                   (has_hook (Part001.ErrorHandler b)) (unlogged tr) res.
Proof.
  intros HL.
  unfold Part001.Process. rewrite HL.
  erewrite bind_returns by apply log_run.
  unfold Fetch at 1. erewrite bind_returns by apply extern_run.
  cbn [world trace].
  destruct (fst (consumer_Fetch (Part001.consumer b) (Part001.batchSize b)
                                (Part001.fetchOpts b) _))
    as [messages | err]; cbv beta iota.
  - erewrite bind_returns by apply log_run.
    match goal with
    | |- context [bind (Part001.decode messages [] []) _ ?s1] =>
        destruct (decode_spec messages [] [] s1)
          as (tr & o & r & s2 & HD & HT & HR & HO)
    end.
    rewrite <- decode_same in HD.
    erewrite bind_returns by exact HD.
    cbn [trace world] in HT.
    pose proof (decode_run_unlogged _ _ _ HR) as Hun.
    destruct o as [[e ackErr] |]; subst r.
    + eexists; eexists; eexists.
      split; [reflexivity |].
      split; [rewrite HT, <- !app_assoc; reflexivity |].
      cbn [app unlogged filter is_log negb].
      fold (unlogged tr). rewrite Hun.
      split; [reflexivity |].
      apply pr_poison_ack_failed, HR.
    + cbn [app].
      destruct (len (filter decodes messages) =? 0)%Z eqn:Hlen.
      * erewrite bind_returns by apply log_run.
        eexists; eexists; eexists.
        split; [reflexivity |].
        split; [cbn [trace]; rewrite HT, <- !app_assoc; reflexivity |].
        cbn [app unlogged filter is_log negb].
        fold (unlogged (tr ++ [EvLog l LevelDebug "No messages, returning" []])).
        rewrite unlogged_app, Hun. cbn [unlogged filter is_log negb].
        rewrite app_nil_r.
        split; [reflexivity |].
        apply pr_nothing_left; [exact HR | apply len_zero, Hlen].
      * erewrite bind_returns by apply log_run.
        erewrite bind_returns by apply call_processor_run. cbv beta iota.
        cbn [world trace].
        match goal with
        | |- context [EvProcessor ctx _ ?r ?lf] => set (errs := r); set (left := lf)
        end.
        assert (Hleft : List.length left = List.length (filter decodes messages))
          by (unfold left; rewrite overwrite_length, length_map; reflexivity).
        destruct (len errs =? len (filter decodes messages))%Z eqn:Hlens;
          cbn [negb].
        -- apply len_eqb in Hlens.
           erewrite bind_returns by apply log_run.
           match goal with
           | |- context [bind (Part001.resolve b _ _ errs 0 _ _) _ ?s3] =>
               destruct (resolve_log_spec b l errs HL 0 [] (filter decodes messages)
                           [] left [] 0%Z s3)
                 as (tr' & rs & n' & s4 & HRes & HT' & HRun);
               try reflexivity; try congruence
           end.
           cbn [app] in HRes.
           erewrite bind_returns by exact HRes. cbv beta iota.
           erewrite bind_returns by apply log_run.
           eexists; eexists; eexists.
           split; [reflexivity |].
           split; [cbn [trace]; rewrite HT'; cbn [trace]; rewrite HT, <- !app_assoc;
                   reflexivity |].
           cbn [app unlogged filter is_log negb].
           match goal with
           | |- context [filter _ (tr ++ ?x :: ?y :: ?z :: ?rest)] =>
               change (filter (fun ev => negb (is_log ev)) (tr ++ x :: y :: z :: rest))
                 with (unlogged (tr ++ [x] ++ [y] ++ [z] ++ rest))
           end.
           rewrite !unlogged_app, Hun.
           cbn [unlogged filter is_log negb app].
           fold (unlogged tr'). rewrite app_nil_r.
           split; [reflexivity |].
           apply pr_resolved;
             [exact HR | apply len_nonzero, Hlen | exact Hleft | exact HRun].
        -- eexists; eexists; eexists.
           split; [reflexivity |].
           split; [cbn [trace]; rewrite HT, <- !app_assoc; reflexivity |].
           cbn [app unlogged filter is_log negb].
           match goal with
           | |- context [filter _ (tr ++ ?x :: ?rest)] =>
               change (filter (fun ev => negb (is_log ev)) (tr ++ x :: rest))
                 with (unlogged (tr ++ [x] ++ rest))
           end.
           rewrite !unlogged_app, Hun.
           cbn [unlogged filter is_log negb app].
           split; [reflexivity |].
           apply pr_contract; [exact HR | apply len_nonzero, Hlen | exact Hleft |].
           intros Hl. apply len_eqb in Hl. congruence.
  - eexists; eexists; eexists.
    split; [reflexivity |].
    split; [cbn [trace]; rewrite <- !app_assoc; reflexivity |].
    split; [reflexivity |].
    apply pr_fetch_failed.
Qed.
End LoopProps.

(** ** The batch processor: what a run says about each claim *)

Section RunProps.
Context {ext : External} {T : Type} {codec : Codec T}.

Lemma decode_run_complete (messages : list Msg) (tr : list (event T)) :
  decode_run messages tr None -> tr = acked_poison messages.
Proof.
  intros H. remember None as o eqn:Ho in H.
  induction H as [| msg rest tr o He _ IH | msg e rest tr o He _ IH
                  | msg e ackErr rest He].
  - reflexivity.
  - unfold acked_poison, poison. simpl.
    rewrite (decodes_true _ He). simpl. apply IH, Ho.
  - unfold acked_poison, poison. simpl.
    rewrite (decodes_false _ _ He). simpl. f_equal. apply IH, Ho.
  - discriminate.
Qed.

Lemma decode_run_aborted (messages : list Msg) (tr : list (event T))
      (e ackErr : error) :
  decode_run messages tr (Some (e, ackErr)) ->
  exists pre m post,
    messages = pre ++ m :: post
    /\ decode_error m = Some e
    /\ tr = acked_poison pre ++ [EvAck m (Some ackErr)].
Proof.
  intros H. remember (Some (e, ackErr)) as o eqn:Ho in H.
  induction H as [| msg rest tr o He _ IH | msg e' rest tr o He _ IH
                  | msg e' ackErr' rest He].
  - discriminate.
  - destruct (IH Ho) as (pre & m & post & -> & Hm & ->).
    exists (msg :: pre), m, post.
    repeat split; auto.
    unfold acked_poison, poison. simpl.
    rewrite (decodes_true _ He). reflexivity.
  - destruct (IH Ho) as (pre & m & post & -> & Hm & ->).
    exists (msg :: pre), m, post.
    repeat split; auto.
    unfold acked_poison, poison. simpl.
    rewrite (decodes_false _ _ He). reflexivity.
  - injection Ho as -> ->.
    exists [], msg, rest. repeat split; auto.
Qed.

Lemma acked_poison_inv (l : list Msg) (ev : event T) :
  In ev (acked_poison l) -> exists m, ev = EvAck m None /\ decodes m = false.
Proof.
  unfold acked_poison. rewrite in_map_iff.
  intros (m & <- & Hm). apply filter_In in Hm. destruct Hm as [_ Hm].
  exists m. split; [reflexivity |].
  unfold poison in Hm. destruct (decodes m); [discriminate | reflexivity].
Qed.

Lemma acked_poison_no_processor (l : list Msg) :
  filter is_processor (acked_poison l) = [].
Proof.
  unfold acked_poison. induction (filter poison l) as [| m ms IH]; simpl; auto.
Qed.

Lemma filter_nil_not_In {A} (p : A -> bool) (l : list A) (x : A) :
  filter p l = [] -> In x l -> p x = false.
Proof.
  intros H Hin. destruct (p x) eqn:Hp; [| reflexivity].
  assert (Hf : In x (filter p l)) by (apply filter_In; auto).
  rewrite H in Hf. destruct Hf.
Qed.

Lemma resolve_run_lengths (hook : bool) (msgs : list Msg) (bodies : list T)
      (errs : list goerror) (tr : list (event T)) (rs : list goerror) :
  resolve_run hook msgs bodies errs tr rs ->
  List.length rs = List.length errs
  /\ List.length msgs = List.length errs
  /\ List.length bodies = List.length errs.
Proof.
  induction 1; simpl; intuition lia.
Qed.

Lemma resolve_run_no_processor (hook : bool) (msgs : list Msg) (bodies : list T)
      (errs : list goerror) (tr : list (event T)) (rs : list goerror) :
  resolve_run hook msgs bodies errs tr rs -> filter is_processor tr = [].
Proof.
  induction 1 as [| msg b msgs bs errs tr rs r _ IH
                  | msg b e msgs bs errs tr rs r _ IH]; simpl; auto.
  rewrite filter_app. simpl. rewrite IH.
  destruct hook; reflexivity.
Qed.

Lemma resolve_run_resolutions (hook : bool) (msgs : list Msg) (bodies : list T)
      (errs : list goerror) (tr : list (event T)) (rs : list goerror) :
  resolve_run hook msgs bodies errs tr rs ->
  resolutions tr = expected_resolutions msgs errs rs.
Proof.
  induction 1 as [| msg b msgs bs errs tr rs r _ IH
                  | msg b e msgs bs errs tr rs r _ IH]; simpl; auto.
  - rewrite IH. reflexivity.
  - destruct hook; simpl; rewrite IH; reflexivity.
Qed.

Lemma resolve_run_hook_calls (hook : bool) (msgs : list Msg) (bodies : list T)
      (errs : list goerror) (tr : list (event T)) (rs : list goerror) :
  resolve_run hook msgs bodies errs tr rs ->
  hook_calls tr = if hook then failures bodies errs else [].
Proof.
  induction 1 as [| msg b msgs bs errs tr rs r _ IH
                  | msg b e msgs bs errs tr rs r _ IH]; simpl; auto.
  - destruct hook; reflexivity.
  - destruct hook; simpl; rewrite IH; reflexivity.
Qed.

Lemma resolve_run_spares_poison (hook : bool) (msgs : list Msg) (bodies : list T)
      (errs : list goerror) (tr : list (event T)) (rs : list goerror) :
  resolve_run hook msgs bodies errs tr rs ->
  Forall (fun m => decodes m = true) msgs ->
  Forall (fun ev => ack_or_nak_of_poison ev = false) tr.
Proof.
  induction 1 as [| msg b msgs bs errs tr rs r _ IH
                  | msg b e msgs bs errs tr rs r _ IH]; intros HF.
  - constructor.
  - inversion HF as [| ? ? Hm HF']; subst.
    constructor; [simpl; unfold poison; rewrite Hm; reflexivity | auto].
  - inversion HF as [| ? ? Hm HF']; subst.
    apply Forall_app. split.
    + destruct hook; simpl; repeat constructor.
    + constructor; [simpl; unfold poison; rewrite Hm; reflexivity | auto].
Qed.

Lemma filter_decodes_all (messages : list Msg) :
  Forall (fun m => decodes m = true) (filter decodes messages).
Proof.
  apply Forall_forall. intros m Hm. apply filter_In in Hm. tauto.
Qed.

Lemma process_run_poison_handling n opts ctx hook (tr : list (event T)) res
      (messages : list Msg) :
  process_run n opts ctx hook tr res ->
  hd_error tr = Some (EvFetch n opts (Val messages)) ->
  poison_handling messages tr res.
Proof.
  intros Hrun Hhd. unfold poison_handling.
  destruct Hrun as [err | ms tr0 e ackErr HD | ms tr0 HD Hnone
                    | ms tr0 errs left HD Hsome Hleft Hlen
                    | ms tr0 errs left tr' rs HD Hsome Hleft HR];
    simpl in Hhd; try discriminate Hhd; injection Hhd as ->.
  - destruct (decode_run_aborted _ _ _ _ HD) as (pre & m & post & -> & Hm & ->).
    exists n, opts, (acked_poison pre ++ [EvAck m (Some ackErr)]), [].
    split; [rewrite app_nil_r; reflexivity |].
    right. exists pre, m, post, e, ackErr. repeat split; auto.
  - rewrite (decode_run_complete _ _ HD).
    exists n, opts, (acked_poison messages), [].
    split; [rewrite app_nil_r; reflexivity |].
    left. repeat split; [constructor | intros ? ? ? ? []].
  - rewrite (decode_run_complete _ _ HD).
    exists n, opts. eexists; eexists.
    split; [reflexivity |].
    left. split; [reflexivity |]. split.
    + repeat constructor.
    + intros ctx' bodies errs' left' [H | []]. injection H as _ <- _ _. reflexivity.
  - rewrite (decode_run_complete _ _ HD).
    exists n, opts. eexists; eexists.
    split; [reflexivity |].
    left. split; [reflexivity |]. split.
    + constructor; [reflexivity |].
      eapply resolve_run_spares_poison; [exact HR | apply filter_decodes_all].
    + intros ctx' bodies errs' left' [H | H].
      * injection H as _ <- _ _. reflexivity.
      * apply (filter_nil_not_In _ _ _ (resolve_run_no_processor _ _ _ _ _ _ HR)) in H.
        discriminate H.
Qed.

Lemma decode_run_no_processor (messages : list Msg) (tr : list (event T))
      (o : option (error * error)) :
  decode_run messages tr o -> filter is_processor tr = [].
Proof.
  induction 1; simpl; auto.
Qed.

Lemma process_run_handler_contract n opts ctx hook (tr : list (event T)) res
      (fetched : result (list Msg)) :
  process_run n opts ctx hook tr res ->
  hd_error tr = Some (EvFetch n opts fetched) ->
  handler_contract ctx fetched tr res.
Proof.
  intros Hrun Hhd. unfold handler_contract.
  destruct Hrun as [err | ms tr0 e ackErr HD | ms tr0 HD Hnone
                    | ms tr0 errs left HD Hsome Hleft Hlen
                    | ms tr0 errs left tr' rs HD Hsome Hleft HR];
    simpl in Hhd; injection Hhd as <-.
  - split; [simpl; lia |]. split.
    + intros ? ? ? ? [H | []]. discriminate H.
    + intros messages Hf. discriminate Hf.
  - pose proof (decode_run_no_processor _ _ _ HD) as Hno.
    simpl. rewrite Hno. split; [simpl; lia |]. split.
    + intros ? ? ? ? [H | H]; [discriminate H |].
      apply (filter_nil_not_In _ _ _ Hno) in H. discriminate H.
    + intros messages Hf _. injection Hf as <-. left.
      destruct (decode_run_aborted _ _ _ _ HD) as (pre & m & post & -> & Hm & ->).
      exists n, opts, pre, m, post, e, ackErr. auto.
  - pose proof (decode_run_no_processor _ _ _ HD) as Hno.
    simpl. rewrite Hno. split; [simpl; lia |]. split.
    + intros ? ? ? ? [H | H]; [discriminate H |].
      apply (filter_nil_not_In _ _ _ Hno) in H. discriminate H.
    + intros messages Hf Hne. injection Hf as <-. contradiction.
  - pose proof (decode_run_no_processor _ _ _ HD) as Hno.
    simpl. rewrite filter_app, Hno. split; [simpl; lia |]. split.
    + intros ctx' bodies errs' left' [H | H]; [discriminate H |].
      apply in_app_or in H. destruct H as [H | [H | []]].
      * apply (filter_nil_not_In _ _ _ Hno) in H. discriminate H.
      * injection H as <- <- _ _.
        split; [reflexivity |].
        exists ms. split; reflexivity.
    + intros messages Hf _. injection Hf as <-. right.
      rewrite (decode_run_complete _ _ HD).
      exists n, opts, errs, left, [].
      split; [reflexivity |].
      intros _. split; [reflexivity |]. split; [reflexivity |]. split.
      * intros m r [H | H]; [discriminate H |].
        apply in_app_or in H. destruct H as [H | [H | []]]; [| discriminate H].
        apply acked_poison_inv in H. destruct H as (? & H & _). discriminate H.
      * intros m r [H | H]; [discriminate H |].
        apply in_app_or in H. destruct H as [H | [H | []]]; [| discriminate H].
        apply acked_poison_inv in H. destruct H as (m' & H & Hm).
        injection H as -> _. exact Hm.
  - pose proof (decode_run_no_processor _ _ _ HD) as Hno.
    pose proof (resolve_run_no_processor _ _ _ _ _ _ HR) as Hno'.
    simpl. rewrite filter_app, Hno. simpl. rewrite Hno'.
    split; [simpl; lia |]. split.
    + intros ctx' bodies errs' left' [H | H]; [discriminate H |].
      apply in_app_or in H. destruct H as [H | [H | H]].
      * apply (filter_nil_not_In _ _ _ Hno) in H. discriminate H.
      * injection H as <- <- _ _.
        split; [reflexivity |].
        exists ms. split; reflexivity.
      * apply (filter_nil_not_In _ _ _ Hno') in H. discriminate H.
    + intros messages Hf _. injection Hf as <-. right.
      rewrite (decode_run_complete _ _ HD).
      exists n, opts, errs, left, tr'.
      split; [reflexivity |].
      intros Hne. exfalso. apply Hne.
      destruct (resolve_run_lengths _ _ _ _ _ _ HR) as (_ & Hm & _). auto.
Qed.

Lemma process_run_resolution n opts ctx hook (tr : list (event T)) res
      (fetched : result (list Msg)) :
  process_run n opts ctx hook tr res ->
  hd_error tr = Some (EvFetch n opts fetched) ->
  resolution ctx hook fetched tr res.
Proof.
  intros Hrun Hhd. unfold resolution.
  destruct Hrun as [err | ms tr0 e ackErr HD | ms tr0 HD Hnone
                    | ms tr0 errs left HD Hsome Hleft Hlen
                    | ms tr0 errs left tr' rs HD Hsome Hleft HR];
    simpl in Hhd; injection Hhd as <-; intros messages Hf Hne;
    try discriminate Hf; injection Hf as <-.
  - left.
    destruct (decode_run_aborted _ _ _ _ HD) as (pre & m & post & -> & Hm & ->).
    exists n, opts, pre, m, post, e, ackErr. auto.
  - contradiction.
  - right. rewrite (decode_run_complete _ _ HD).
    exists n, opts, errs, left, [].
    split; [reflexivity |]. split; [exact Hleft |].
    intros Hl. contradiction.
  - right. rewrite (decode_run_complete _ _ HD).
    exists n, opts, errs, left, tr'.
    split; [reflexivity |]. split; [exact Hleft |].
    intros _. exists rs.
    split; [exact HR |].
    split; [apply (resolve_run_resolutions _ _ _ _ _ _ HR) |].
    split; [apply (resolve_run_lengths _ _ _ _ _ _ HR) |].
    split; [apply (resolve_run_hook_calls _ _ _ _ _ _ HR) |].
    split; [reflexivity | apply errors_Join_nil_iff].
Qed.

(** Neither predicate holds of a call that stops after the decode step
    when some message decodes and every ack succeeded: both demand the
    handler call. *)
Lemma undispatched_run (n : Z) (opts : list FetchOpt) (ctx : Ctx)
      (messages : list Msg) :
  filter decodes messages <> [] ->
  let tr := EvFetch n opts (Val messages) :: acked_poison (T:=T) messages in
  ~ poison_ack_failed messages tr
  /\ ~ exists n' opts' errs left post,
        tr = EvFetch n' opts' (Val messages)
             :: acked_poison messages
             ++ EvProcessor ctx (map body (filter decodes messages)) errs left
             :: post.
Proof.
  intros Hne tr. subst tr. split.
  - intros (n' & opts' & pre & m & post & e & ackErr & _ & _ & Htr).
    injection Htr as _ _ Htr.
    assert (Hin : In (EvAck m (Some ackErr)) (acked_poison (T:=T) messages))
      by (rewrite Htr; apply in_or_app; right; left; reflexivity).
    apply acked_poison_inv in Hin. destruct Hin as (m' & Hm' & _).
    discriminate Hm'.
  - intros (n' & opts' & errs & left & post & Htr).
    injection Htr as _ _ Htr.
    apply (f_equal (@List.length _)) in Htr.
    rewrite length_app in Htr. simpl in Htr. lia.
Qed.

Lemma handler_contract_demands_the_call (n : Z) (opts : list FetchOpt) (ctx : Ctx)
      (messages : list Msg) (res : goerror) :
  filter decodes messages <> [] ->
  ~ handler_contract ctx (Val messages) [] res
  /\ ~ handler_contract ctx (Val messages)
         (EvFetch n opts (Val messages) :: acked_poison (T:=T) messages) res.
Proof.
  intros Hne. split.
  - intros (_ & _ & H).
    destruct (H messages eq_refl Hne)
      as [(? & ? & ? & ? & ? & ? & ? & _ & _ & Htr)
         | (? & ? & ? & ? & ? & Htr & _)]; discriminate Htr.
  - intros (_ & _ & H).
    destruct (undispatched_run n opts ctx messages Hne) as [H1 H2].
    destruct (H messages eq_refl Hne) as [Hp | (n' & o' & errs & left & post & Htr & _)].
    + exact (H1 Hp).
    + apply H2. exists n', o', errs, left, post. exact Htr.
Qed.

Lemma resolution_demands_the_call (n : Z) (opts : list FetchOpt) (ctx : Ctx)
      (hook : bool) (messages : list Msg) (res : goerror) :
  filter decodes messages <> [] ->
  ~ resolution ctx hook (Val messages) [] res
  /\ ~ resolution ctx hook (Val messages)
         (EvFetch n opts (Val messages) :: acked_poison (T:=T) messages) res.
Proof.
  intros Hne. split.
  - intros H.
    destruct (H messages eq_refl Hne)
      as [(? & ? & ? & ? & ? & ? & ? & _ & _ & Htr)
         | (? & ? & ? & ? & ? & Htr & _)]; discriminate Htr.
  - intros H.
    destruct (undispatched_run n opts ctx messages Hne) as [H1 H2].
    destruct (H messages eq_refl Hne) as [Hp | (n' & o' & errs & left & post & Htr & _)].
    + exact (H1 Hp).
    + apply H2. exists n', o', errs, left, post. exact Htr.
Qed.

(** Nor does [resolution] hold of a call that runs the handler, gets
    one outcome per message, and then acks or naks nothing. *)
Lemma resolution_demands_the_acks (n : Z) (opts : list FetchOpt) (ctx : Ctx)
      (hook : bool) (messages : list Msg) (errs : list goerror) (left : list T)
      (res : goerror) :
  filter decodes messages <> [] ->
  List.length errs = List.length (filter decodes messages) ->
  ~ resolution ctx hook (Val messages)
      (EvFetch n opts (Val messages)
         :: acked_poison messages
         ++ [EvProcessor ctx (map body (filter decodes messages)) errs left])
      res.
Proof.
  intros Hne Hlen H.
  destruct (H messages eq_refl Hne)
    as [(n' & o' & pre & m & post & e & ackErr & _ & _ & Htr)
       | (n' & o' & errs' & left' & post & Htr & _ & Hres)].
  - injection Htr as _ _ Htr.
    assert (Hin : In (EvAck m (Some ackErr))
                     (acked_poison messages
                      ++ [EvProcessor ctx (map body (filter decodes messages))
                            errs left]))
      by (rewrite Htr; apply in_or_app; right; left; reflexivity).
    apply in_app_or in Hin. destruct Hin as [Hin | [Hin | []]]; [| discriminate Hin].
    apply acked_poison_inv in Hin. destruct Hin as (m' & Hm' & _).
    discriminate Hm'.
  - injection Htr as _ _ Htr.
    apply app_inv_head in Htr. injection Htr as <- <- <-.
    destruct (Hres Hlen) as (rs & HR & _).
    inversion HR as [Hm | | msg bd e msgs bs errs0 tr rs0 r _ Hm Hb He Htr Hrs].
    + symmetry in Hm. contradiction.
    + destruct hook; discriminate Htr.
Qed.

Lemma process_run_nothing_to_do n opts ctx hook (tr : list (event T)) res
      (messages : list Msg) :
  process_run n opts ctx hook tr res ->
  hd_error tr = Some (EvFetch n opts (Val messages)) ->
  nothing_to_do messages tr res.
Proof.
  intros Hrun Hhd Hnone'. 
  destruct Hrun as [err | ms tr0 e ackErr HD | ms tr0 HD Hnone
                    | ms tr0 errs HD Hsome Hlen
                    | ms tr0 errs tr' rs HD Hsome HR];
    simpl in Hhd; try discriminate Hhd; injection Hhd as ->;
    try contradiction.
  - pose proof (decode_run_no_processor _ _ _ HD) as Hno.
    destruct (decode_run_aborted _ _ _ _ HD) as (pre & m & post & Hm & _ & ->).
    split; [simpl; exact Hno |]. split.
    + intros Hacks. exfalso.
      assert (H : Some ackErr = None); [| discriminate H].
      apply (Hacks m). right. apply in_or_app. right. left. reflexivity.
    + intros ->. destruct pre; discriminate Hm.
  - pose proof (decode_run_no_processor _ _ _ HD) as Hno.
    split; [simpl; exact Hno |]. split; [reflexivity |].
    intros ->. split; [reflexivity |].
    rewrite (decode_run_complete _ _ HD). exists n, opts. reflexivity.
Qed.

Lemma Process_added (b : BatchGo.BatchProcessor) (ctx : Ctx)
      (s : state World (event T)) :
  exists res s',
    BatchGo.Process b ctx s = (Returns res, s')
    /\ hd_error (added (BatchGo.Process b ctx) s)
       = Some (EvFetch (BatchGo.batchSize b) (BatchGo.fetchOpts b) (fetched b s))
    /\ process_run (BatchGo.batchSize b) (BatchGo.fetchOpts b) ctx
                   (has_hook (BatchGo.ErrorHandler b))
                   (added (BatchGo.Process b ctx) s) res.
Proof.
  destruct (Process_run b ctx s) as (res & s' & tr & HP & HT & Hhd & Hrun).
  exists res, s'. split; [exact HP |].
  rewrite (added_intro _ _ tr); [auto |].
  rewrite HP. exact HT.
Qed.

Lemma Process_log_added (b : Part001.BatchProcessor) (l : Logger) (ctx : Ctx)
      (s : state World (event T)) :
  Part001.Log b = Some l ->
  exists res s',
    Part001.Process b ctx s = (Returns res, s')
    /\ hd_error (unlogged (added (Part001.Process b ctx) s))
       = Some (EvFetch (Part001.batchSize b) (Part001.fetchOpts b)
                       (fetched_log b l s))
    /\ process_run (Part001.batchSize b) (Part001.fetchOpts b) ctx
                   (has_hook (Part001.ErrorHandler b))
                   (unlogged (added (Part001.Process b ctx) s)) res.
Proof.
  intros HL.
  destruct (Process_log_run b l ctx s HL) as (res & s' & tr & HP & HT & Hhd & Hrun).
  exists res, s'. split; [exact HP |].
  rewrite (added_intro _ _ tr); [auto |].
  rewrite HP. exact HT.
Qed.

(** C2.  In both versions of Process, when the fetch delivers
    [messages]: every message that does not decode is acknowledged as
    soon as it is reached, before anything is done with a later message,
    and is left out of what the handler is given; when such an ack
    fails, Process returns at once the decode error joined with the ack
    error: the failed ack is the last thing it did, so the handler is
    not invoked and the remaining messages are not touched. *)
Theorem Process_acks_undecodable_messages
        (b : BatchGo.BatchProcessor) (bl : Part001.BatchProcessor) (l : Logger)
        (ctx : Ctx) (s : state World (event T)) (messages : list Msg) :
  (fetched b s = Val messages ->
   exists res s',
     BatchGo.Process b ctx s = (Returns res, s')
     /\ poison_handling messages (added (BatchGo.Process b ctx) s) res)
  /\ (Part001.Log bl = Some l ->
      fetched_log bl l s = Val messages ->
      exists res s',
        Part001.Process bl ctx s = (Returns res, s')
        /\ poison_handling messages
                           (unlogged (added (Part001.Process bl ctx) s)) res).
Proof.
  split.
  - intros HF.
    destruct (Process_added b ctx s) as (res & s' & HP & Hhd & Hrun).
    exists res, s'. split; [exact HP |].
    rewrite HF in Hhd.
    eapply process_run_poison_handling; eassumption.
  - intros HL HF.
    destruct (Process_log_added bl l ctx s HL) as (res & s' & HP & Hhd & Hrun).
    exists res, s'. split; [exact HP |].
    rewrite HF in Hhd.
    eapply process_run_poison_handling; eassumption.
Qed.

(** C3.  In both versions, a Process call returns, and it invokes the
    handler at most once, with its own context and with the bodies of
    the fetched messages that decode, in fetch order.  It does invoke
    it whenever some fetched message decodes, unless the ack of an
    undecodable message failed before: the call comes right after the
    fetch and the acks of the undecodable messages.  When the handler
    returns a slice whose length is not the number of decoded
    messages, Process returns the "expected a slice of %d errors"
    error, and the handler call is the last thing it did: no nak at
    all, and no ack other than those, issued while decoding, of
    messages that do not decode. *)
Theorem Process_handler_contract
        (b : BatchGo.BatchProcessor) (bl : Part001.BatchProcessor) (l : Logger)
        (ctx : Ctx) (s : state World (event T)) :
  (exists res s',
     BatchGo.Process b ctx s = (Returns res, s')
     /\ handler_contract ctx (fetched b s) (added (BatchGo.Process b ctx) s) res)
  /\ (Part001.Log bl = Some l ->
      exists res s',
        Part001.Process bl ctx s = (Returns res, s')
        /\ handler_contract ctx (fetched_log bl l s)
                            (unlogged (added (Part001.Process bl ctx) s)) res).
Proof.
  split.
  - destruct (Process_added b ctx s) as (res & s' & HP & Hhd & Hrun).
    exists res, s'. split; [exact HP |].
    eapply process_run_handler_contract; eassumption.
  - intros HL.
    destruct (Process_log_added bl l ctx s HL) as (res & s' & HP & Hhd & Hrun).
    exists res, s'. split; [exact HP |].
    eapply process_run_handler_contract; eassumption.
Qed.

(** C4.  In both versions, a Process call returns, and whenever some
    fetched message decodes and no ack of an undecodable message
    failed, the handler is invoked with the decoded bodies.  When it
    returns one outcome per message, what Process does next is, message
    by message in order: an ack for a nil outcome; for an error outcome
    the hook (when there is one), called with that outcome and with
    the message's element of the slice given to the handler, as the
    handler left it, and then a nak.  Every message gets its ack or
    nak whatever the earlier ones answered; Process returns the join
    of all the answers, which is nil exactly when every answer is
    nil. *)
Theorem Process_resolves_every_message
        (b : BatchGo.BatchProcessor) (bl : Part001.BatchProcessor) (l : Logger)
        (ctx : Ctx) (s : state World (event T)) :
  (exists res s',
     BatchGo.Process b ctx s = (Returns res, s')
     /\ resolution ctx (has_hook (BatchGo.ErrorHandler b)) (fetched b s)
                   (added (BatchGo.Process b ctx) s) res)
  /\ (Part001.Log bl = Some l ->
      exists res s',
        Part001.Process bl ctx s = (Returns res, s')
        /\ resolution ctx (has_hook (Part001.ErrorHandler bl)) (fetched_log bl l s)
                      (unlogged (added (Part001.Process bl ctx) s)) res).
Proof.
  split.
  - destruct (Process_added b ctx s) as (res & s' & HP & Hhd & Hrun).
    exists res, s'. split; [exact HP |].
    eapply process_run_resolution; eassumption.
  - intros HL.
    destruct (Process_log_added bl l ctx s HL) as (res & s' & HP & Hhd & Hrun).
    exists res, s'. split; [exact HP |].
    eapply process_run_resolution; eassumption.
Qed.

(** C5.  In both versions, when none of the fetched messages decodes,
    the handler is not invoked, and Process returns nil unless an ack
    of one of them failed; when the fetch delivers no message at all,
    Process returns nil having done nothing but the fetch. *)
Theorem Process_nothing_to_do
        (b : BatchGo.BatchProcessor) (bl : Part001.BatchProcessor) (l : Logger)
        (ctx : Ctx) (s : state World (event T)) (messages : list Msg) :
  (fetched b s = Val messages ->
   exists res s',
     BatchGo.Process b ctx s = (Returns res, s')
     /\ nothing_to_do messages (added (BatchGo.Process b ctx) s) res)
  /\ (Part001.Log bl = Some l ->
      fetched_log bl l s = Val messages ->
      exists res s',
        Part001.Process bl ctx s = (Returns res, s')
        /\ nothing_to_do messages
                         (unlogged (added (Part001.Process bl ctx) s)) res).
Proof.
  split.
  - intros HF.
    destruct (Process_added b ctx s) as (res & s' & HP & Hhd & Hrun).
    exists res, s'. split; [exact HP |].
    rewrite HF in Hhd.
    eapply process_run_nothing_to_do; eassumption.
  - intros HL HF.
    destruct (Process_log_added bl l ctx s HL) as (res & s' & HP & Hhd & Hrun).
    exists res, s'. split; [exact HP |].
    rewrite HF in Hhd.
    eapply process_run_nothing_to_do; eassumption.
Qed.
End RunProps.

(** ** The two versions of Process *)

Section SimProps.
Context {ext : External} {T : Type} {codec : Codec T}.
Variable R : World -> World -> Prop.
Variable processor : handler T.
Variable hook : option (T -> error -> World -> World).
Hypothesis HR : unobserved_logging R processor hook.

Local Notation "'sim'" := (simulates (T:=T) R).

Lemma simulates_ret {A B} (Q : A -> B -> Prop) (a : A) (b : B) :
  Q a b -> sim Q (ret a) (ret b).
Proof.
  intros HQ s1 s2 Hw. exists [], []. simpl. rewrite !app_nil_r. auto.
Qed.

Lemma simulates_panic {A B} (Q : A -> B -> Prop) :
  sim Q panic panic.
Proof.
  intros s1 s2 Hw. exists [], []. simpl. rewrite !app_nil_r. auto.
Qed.

Lemma simulates_bind {A B A' B'} (Q : A -> B -> Prop) (Q' : A' -> B' -> Prop)
      (m1 : Proc T A) (m2 : Proc T B) (k1 : A -> Proc T A') (k2 : B -> Proc T B') :
  sim Q m1 m2 ->
  (forall a b, Q a b -> sim Q' (k1 a) (k2 b)) ->
  sim Q' (bind m1 k1) (bind m2 k2).
Proof.
  intros Hm Hk s1 s2 Hw.
  destruct (Hm s1 s2 Hw) as (t1 & t2 & HT1 & HT2 & Ht & Hw' & Ho).
  unfold bind.
  destruct (m1 s1) as [[a | |] s1'], (m2 s2) as [[b | |] s2'];
    simpl in *; try contradiction.
  - destruct (Hk a b Ho s1' s2' Hw') as (u1 & u2 & HU1 & HU2 & Hu & Hw'' & Ho').
    exists (t1 ++ u1), (t2 ++ u2).
    rewrite HU1, HU2, HT1, HT2, !app_assoc.
    repeat split; auto.
    rewrite unlogged_app. congruence.
  - exists t1, t2. auto.
  - exists t1, t2. auto.
Qed.

(** The right side may pack its result with something else. *)
Lemma simulates_then_ret {A B} (Q : A -> B -> Prop) (f : A -> B)
      (m1 m2 : Proc T A) :
  sim eq m1 m2 ->
  (forall a, Q a (f a)) ->
  sim Q m1 (bind m2 (fun r => ret (f r))).
Proof.
  intros Hm HQ s1 s2 Hw.
  destruct (Hm s1 s2 Hw) as (t1 & t2 & HT1 & HT2 & Ht & Hw' & Ho).
  unfold bind.
  destruct (m1 s1) as [[a | |] s1'], (m2 s2) as [[b | |] s2'];
    simpl in *; try contradiction; exists t1, t2; repeat split; auto.
  subst b. apply HQ.
Qed.

(** A log record on the right changes nothing. *)
Lemma simulates_log {A B} (Q : A -> B -> Prop) (l : Logger) (level : Level)
      (msg : string) (attrs : list Attr) (m1 : Proc T A) (m2 : Proc T B) :
  sim Q m1 m2 ->
  sim Q m1 (bind (log (Some l) level msg attrs) (fun _ => m2)).
Proof.
  intros Hm s1 s2 Hw.
  erewrite bind_returns by apply log_run.
  match goal with
  | |- context [m2 ?s] => destruct (Hm s1 s) as (t1 & t2 & HT1 & HT2 & Ht & Hw' & Ho)
  end.
  { simpl. apply (ul_log HR), Hw. }
  exists t1, (EvLog l level msg attrs :: t2).
  rewrite HT2. simpl. rewrite <- app_assoc.
  repeat split; auto.
Qed.

Lemma simulates_extern {A} (f : World -> A * World) (ev : A -> event T) :
  (forall a, is_log (ev a) = false) ->
  (forall w1 w2, R w1 w2 ->
                 fst (f w1) = fst (f w2) /\ R (snd (f w1)) (snd (f w2))) ->
  sim eq (extern f ev) (extern f ev).
Proof.
  intros Hev Hf s1 s2 Hw.
  destruct (Hf _ _ Hw) as [Hfst Hsnd].
  rewrite !extern_run. simpl.
  exists [ev (fst (f (world s1)))], [ev (fst (f (world s2)))].
  repeat split; auto.
  unfold unlogged. simpl. rewrite Hev, Hfst. reflexivity.
Qed.

Lemma simulates_Ack (msg : Msg) : sim eq (Ack msg) (Ack msg).
Proof. apply simulates_extern; [reflexivity | apply (ul_ack HR)]. Qed.

Lemma simulates_Nak (msg : Msg) : sim eq (Nak msg) (Nak msg).
Proof. apply simulates_extern; [reflexivity | apply (ul_nak HR)]. Qed.

Lemma simulates_Fetch (c : Consumer) (n : Z) (opts : list FetchOpt) :
  sim eq (Fetch (T:=T) c n opts) (Fetch c n opts).
Proof. apply simulates_extern; [reflexivity | apply (ul_fetch HR)]. Qed.

Lemma simulates_processor (ctx : Ctx) (messages : list T) :
  sim eq (call_processor processor ctx messages)
            (call_processor processor ctx messages).
Proof.
  apply simulates_extern; [reflexivity |].
  intros w1 w2 Hw.
  destruct (ul_processor HR ctx messages w1 w2 Hw) as [Hfst Hsnd].
  destruct (processor ctx messages w1) as [r1 w1'].
  destruct (processor ctx messages w2) as [r2 w2'].
  simpl in *. subst r2. split; [reflexivity | exact Hsnd].
Qed.

Lemma simulates_hook (h : T -> error -> World -> World) (b : T) (e : error) :
  hook = Some h ->
  sim eq (call_ErrorHandler h b e) (call_ErrorHandler h b e).
Proof.
  intros Hh. apply simulates_extern; [reflexivity |].
  intros w1 w2 Hw. split; [reflexivity |]. simpl. eapply (ul_hook HR); eauto.
Qed.

Lemma simulates_index {A} (l : list A) (i : nat) :
  sim eq (index (E:=event T) l i) (index l i).
Proof.
  unfold index. destruct (nth_error l i);
    [apply simulates_ret; reflexivity | apply simulates_panic].
Qed.

Lemma simulates_store {A} (l : list A) (i : nat) (x : A) :
  sim eq (store (E:=event T) l i x) (store l i x).
Proof.
  unfold store. destruct (set_nth l i x);
    [apply simulates_ret; reflexivity | apply simulates_panic].
Qed.

Lemma simulates_decode (messages : list Msg) :
  forall bodies msgs,
    sim eq (BatchGo.decode messages bodies msgs)
              (Part001.decode messages bodies msgs).
Proof.
  induction messages as [| msg rest IH]; intros bodies msgs; simpl.
  - apply simulates_ret. reflexivity.
  - destruct (Unmarshal (msg_Data msg) zero) as [fr [e |]].
    + eapply simulates_bind; [apply simulates_Ack |].
      intros a ? <-. destruct a; [apply simulates_ret; reflexivity | apply IH].
    + apply IH.
Qed.

Lemma simulates_resolve (bl : Part001.BatchProcessor) (l : Logger)
      (msgBodies : list T) (msgs : list Msg) (errs : list goerror) :
  Part001.Log bl = Some l ->
  Part001.ErrorHandler bl = hook ->
  forall i n nackAckErrs,
    sim (fun rs p => rs = snd p)
              (BatchGo.resolve (without_Log bl) msgBodies msgs errs i nackAckErrs)
              (Part001.resolve bl msgBodies msgs errs i n nackAckErrs).
Proof.
  intros HL HH.
  induction errs as [| err rest IH]; intros i n nackAckErrs; simpl.
  - apply simulates_ret. reflexivity.
  - eapply simulates_bind; [apply simulates_index |].
    intros msg ? <-.
    eapply simulates_bind with (Q := fun r p => r = snd p).
    + destruct err as [e |].
      * rewrite HL. apply simulates_log.
        eapply simulates_bind with (Q := eq).
        -- unfold without_Log. cbn [BatchGo.ErrorHandler].
           destruct (Part001.ErrorHandler bl) as [h |].
           ++ eapply simulates_bind; [apply simulates_index |].
              intros bd ? <-. apply simulates_hook. symmetry. exact HH.
           ++ apply simulates_ret. reflexivity.
        -- intros _ _ _.
           apply simulates_then_ret; [apply simulates_Nak | reflexivity].
      * apply simulates_then_ret; [apply simulates_Ack | reflexivity].
    + intros r [n1 r'] ->. simpl.
      eapply simulates_bind; [apply simulates_store |].
      intros nae ? <-. apply IH.
Qed.

Lemma simulates_Process (bl : Part001.BatchProcessor) (l : Logger) (ctx : Ctx) :
  Part001.Log bl = Some l ->
  Part001.ErrorHandler bl = hook ->
  Part001.processor bl = processor ->
  sim eq (BatchGo.Process (without_Log bl) ctx) (Part001.Process bl ctx).
Proof.
  intros HL HH HP.
  unfold BatchGo.Process, Part001.Process. rewrite HL.
  apply simulates_log.
  eapply simulates_bind; [apply simulates_Fetch |].
  intros mb ? <-. destruct mb as [messages | err]; simpl.
  - apply simulates_log.
    eapply simulates_bind; [apply simulates_decode |].
    intros r ? <-. destruct r as [e | [msgBodies msgs]].
    + apply simulates_ret. reflexivity.
    + destruct (len msgs =? 0)%Z.
      * apply simulates_log, simulates_ret. reflexivity.
      * apply simulates_log.
        eapply simulates_bind; [rewrite HP; apply simulates_processor |].
        intros [errs left] ? <-.
        destruct (negb (len errs =? len msgs)%Z).
        -- apply simulates_ret. reflexivity.
        -- apply simulates_log.
           eapply simulates_bind; [apply (simulates_resolve bl l); assumption |].
           intros rs [n nae] ->. simpl.
           apply simulates_log, simulates_ret. reflexivity.
  - apply simulates_ret. reflexivity.
Qed.
End SimProps.

Section Versions.
Context {ext : External} {T : Type} {codec : Codec T}.

(** The constructor of the logging version always leaves a logger,
    whatever the options do. *)
Lemma NewBatchProcessor_has_logger
      (consumer : Consumer) (batchSize : Z)
      (processor : handler T)
      (opts : list (Part001.BatchProcessorOpt (T:=T))) :
  exists l,
    Part001.Log (Part001.NewBatchProcessor consumer batchSize processor opts)
    = Some l.
Proof.
  unfold Part001.NewBatchProcessor.
  match goal with
  | |- context [fold_left ?f opts ?bp] => set (built := fold_left f opts bp)
  end.
  destruct (Part001.Log built) as [l |] eqn:HL.
  - exists l. exact HL.
  - exists discardLogger. reflexivity.
Qed.

(** C10.  When logging is not observed by the broker and the
    callbacks, the logging version of Process and the one of
    [batch.go], given the same consumer, batch size, handler, fetch
    options and hook, and started in worlds that differ at most in
    what was logged, return the same error, make the same fetch,
    handler, hook, ack and nak calls with the same answers in the same
    order (the traces are equal once the log records are removed), and
    leave worlds that again differ at most in what was logged. *)
Theorem Process_versions_agree
        (R : World -> World -> Prop) (bl : Part001.BatchProcessor (T:=T))
        (l : Logger) (ctx : Ctx) (s1 s2 : state World (event T)) :
  unobserved_logging R (Part001.processor bl) (Part001.ErrorHandler bl) ->
  Part001.Log bl = Some l ->
  R (world s1) (world s2) ->
  exists res s1' s2',
    BatchGo.Process (without_Log bl) ctx s1 = (Returns res, s1')
    /\ Part001.Process bl ctx s2 = (Returns res, s2')
    /\ added (BatchGo.Process (without_Log bl) ctx) s1
       = unlogged (added (Part001.Process bl ctx) s2)
    /\ R (world s1') (world s2').
Proof.
  intros HR HL Hw.
  destruct (simulates_Process R _ _ HR bl l ctx HL eq_refl eq_refl s1 s2 Hw)
    as (t1 & t2 & HT1 & HT2 & Ht & Hw' & Ho).
  destruct (Process_run (without_Log bl) ctx s1) as (res & s1' & tr & HP & _).
  rewrite HP in *. simpl in *.
  destruct (Part001.Process bl ctx s2) as [[res2 | |] s2'] eqn:HP2;
    simpl in *; try contradiction.
  subst res2.
  exists res, s1', s2'.
  split; [reflexivity |]. split; [reflexivity |].
  split; [| exact Hw'].
  rewrite (added_intro _ _ t1) by (rewrite HP; exact HT1).
  rewrite (added_intro _ _ t2) by (rewrite HP2; exact HT2).
  exact Ht.
Qed.
End Versions.

(** ** Runs on the in-process broker *)

Section OnTheBroker.
Import Mem Fixtures.
Local Open Scope string_scope.

(** On the bucket written twice: an update expecting revision 1 gets
    the sentinel, one expecting revision 2 goes through as revision 3. *)
Lemma Update_stale_revision :
  fst (kv.Update users tt "user1" 44%N 1%N two_puts)
  = Returns (0%N, Some ErrOptimisticConcurrencyCheckFailed)
  /\ fst (kv.Update users tt "user1" 44%N 2%N two_puts) = Returns (3%N, None).
Proof.
  split.
  - refine (proj1 (Update_maps_wrong_last_sequence
                     users tt "user1" 44%N 1%N two_puts
                     (bytes "44") 0%N (Some (wrong_last_sequence 2)) _ _) _).
    + reflexivity.
    + vm_compute. reflexivity.
    + eexists; eexists. split; reflexivity.
  - refine (proj2 (Update_maps_wrong_last_sequence
                     users tt "user1" 44%N 2%N two_puts
                     (bytes "44") 3%N None _ _) _).
    + reflexivity.
    + vm_compute. reflexivity.
    + intros (a & t & H & _). discriminate H.
Defined.

(** A key that was never written. *)
Lemma absent_key_not_found :
  fst (kv.Get users tt "non-existent-key" two_puts)
  = Returns (0%N, 0%N, false, None)
  /\ fst (kv.GetRevision users tt "non-existent-key" 1%N two_puts)
     = Returns (0%N, false, None)
  /\ fst (kv.History users tt "non-existent-key" two_puts)
     = Returns ([], false, None).
Proof.
  destruct (not_found_is_not_an_error (T:=N) users tt "non-existent-key" 1%N two_puts)
    as (HG & HR & HH).
  split; [| split].
  - apply HG. vm_compute. reflexivity.
  - apply HR. vm_compute. reflexivity.
  - apply HH. vm_compute. reflexivity.
Defined.

(** List on a disconnected bucket. *)
Lemma List_offline :
  exists it s',
    kv.List (T:=N) offline tt fresh = (Returns (Some it), s')
    /\ failed_iterator (errorString "nats: connection closed") it
    /\ exists it',
        kv.Next it s' = (Returns (false, it'), s')
        /\ kv.It_Value it' = 0%N
        /\ kv.It_Error it' = Some (errorString "nats: connection closed")
        /\ kv.Stop it s' = (Returns None, s').
Proof.
  destruct (List_fails_closed (T:=N) offline tt fresh) as (_ & HF & HN).
  destruct (HF (errorString "nats: connection closed") eq_refl)
    as (it & s' & HL & Hit).
  exists it, s'. split; [exact HL |]. split; [exact Hit |].
  destruct (HN _ it s' Hit) as (it' & H1 & H2 & H3 & _ & H5).
  exists it'. auto.
Defined.

(** List on the bucket written twice: the first Next yields the
    current value of "user1". *)
Lemma List_online :
  exists it s1 it1 s2,
    kv.List (T:=N) users tt two_puts = (Returns (Some it), s1)
    /\ kv.Next it s1 = (Returns (true, it1), s2)
    /\ watching tt it1
    /\ kv.It_Value it1 = 43%N.
Proof.
  destruct (List_iterator_receives_each_time (T:=N) users tt two_puts tt eq_refl)
    as [(it & s1 & HL & HW) Hstep].
  pose proof (HW s1) as HN.
  assert (Hs1 : world s1 = set_updates (world two_puts)
                  [Some {| Value := bytes "43"; Revision := 2 |}; None]).
  { unfold kv.List, bind in HL. rewrite extern_run in HL.
    injection HL as _ <-. vm_compute. reflexivity. }
  rewrite Hs1 in HN. simpl in HN.
  eexists it, s1, _, _.
  split; [exact HL |]. split; [exact HN |].
  destruct (Hstep _ _ _ _ _ HW HN) as [HW1 _].
  split; [exact HW1 | reflexivity].
Defined.

(** C6 as stated fails for List: its call on the broker names no
    subject of any key, and it yields a value stored under a subject
    that is the subject of no key. *)
Lemma List_not_through_mapping :
  ~ through_mapping users (added (kv.List (T:=N) users tt) foreign_record)
  /\ exists it s1 it1 s2,
      kv.List (T:=N) users tt foreign_record = (Returns (Some it), s1)
      /\ kv.Next it s1 = (Returns (true, it1), s2)
      /\ kv.It_Value it1 = 7%N
      /\ writes (world foreign_record) = [("raw", Some (bytes "7"))]
      /\ forall key, kv.keyToSubject users key <> "raw".
Proof.
  split.
  - intros H. inversion H as [| c l (key & Hkey) _ Heq]. discriminate Hkey.
  - eexists; eexists; eexists; eexists.
    split; [reflexivity |]. split; [reflexivity |].
    split; [reflexivity |]. split; [reflexivity |].
    intros key H. discriminate H.
Qed.

(** C9 as stated fails: after a Next that failed to decode, the
    following Next returns an item; after a Next that met the end of
    the snapshot, the following Next does not return. *)
Lemma Next_after_no_item :
  ~ stays_finished (T:=N) users tt bad_then_good
  /\ exists it s1 it1 s2 it2 s3 it3 s4,
      kv.List (T:=N) users tt bad_then_good = (Returns (Some it), s1)
      /\ kv.Next it s1 = (Returns (false, it1), s2)
      /\ kv.It_Error it1 <> None
      /\ kv.Next it1 s2 = (Returns (true, it2), s3)
      /\ kv.It_Value it2 = 8%N
      /\ kv.Next it2 s3 = (Returns (false, it3), s4)
      /\ kv.It_Error it3 = None
      /\ fst (kv.Next it3 s4) = Blocks.
Proof.
  split.
  - intros H.
    destruct (H _ _ _ _ eq_refl eq_refl) as (it2 & s3 & HN).
    discriminate HN.
  - eexists; eexists; eexists; eexists; eexists; eexists; eexists; eexists.
    split; [reflexivity |]. split; [reflexivity |].
    split; [discriminate |]. split; [reflexivity |].
    split; [reflexivity |]. split; [reflexivity |].
    split; reflexivity.
Qed.

(** A batch with an undecodable message in the middle, whose ack fails
    (plain version) or succeeds (logging version). *)
Lemma Process_stuck_poison :
  (exists res s',
     BatchGo.Process (plain succeed) tt (pending [m0; m1_stuck; m2])
     = (Returns res, s')
     /\ poison_handling [m0; m1_stuck; m2]
          (added (BatchGo.Process (plain succeed) tt) (pending [m0; m1_stuck; m2]))
          res)
  /\ (exists res s',
        Part001.Process (logging succeed) tt (pending [m0; m1; m2])
        = (Returns res, s')
        /\ poison_handling [m0; m1; m2]
             (unlogged (added (Part001.Process (logging succeed) tt)
                              (pending [m0; m1; m2])))
             res).
Proof.
  split.
  - apply (proj1 (Process_acks_undecodable_messages
                    (plain succeed) (logging succeed) tt tt
                    (pending [m0; m1_stuck; m2]) [m0; m1_stuck; m2])).
    reflexivity.
  - apply (proj2 (Process_acks_undecodable_messages
                    (plain succeed) (logging succeed) tt tt
                    (pending [m0; m1; m2]) [m0; m1; m2])); reflexivity.
Defined.

(** A handler that returns an empty slice for the two messages that
    decode, [m0] and [m2]. *)
Lemma Process_short_slice :
  (exists res s',
     BatchGo.Process (plain too_short) tt (pending [m0; m1; m2]) = (Returns res, s')
     /\ handler_contract tt (Val [m0; m1; m2])
          (added (BatchGo.Process (plain too_short) tt) (pending [m0; m1; m2])) res)
  /\ (exists res s',
        Part001.Process (logging too_short) tt (pending [m0; m1; m2])
        = (Returns res, s')
        /\ handler_contract tt (Val [m0; m1; m2])
             (unlogged (added (Part001.Process (logging too_short) tt)
                              (pending [m0; m1; m2])))
             res).
Proof.
  destruct (Process_handler_contract (plain too_short) (logging too_short) tt tt
                                     (pending [m0; m1; m2])) as [H1 H2].
  split; [exact H1 | apply H2; reflexivity].
Defined.

(** A handler that fails the odd numbers and rewrites them in its
    argument, on a batch with an undecodable message and a message
    whose nak fails. *)
Lemma Process_mixed_outcomes :
  (exists res s',
     BatchGo.Process (plain fix_odd) tt (pending [m0; m3; m1; m5_stuck; m2])
     = (Returns res, s')
     /\ resolution tt true (Val [m0; m3; m1; m5_stuck; m2])
          (added (BatchGo.Process (plain fix_odd) tt)
                 (pending [m0; m3; m1; m5_stuck; m2]))
          res)
  /\ (exists res s',
        Part001.Process (logging fix_odd) tt (pending [m0; m3; m1; m5_stuck; m2])
        = (Returns res, s')
        /\ resolution tt true (Val [m0; m3; m1; m5_stuck; m2])
             (unlogged (added (Part001.Process (logging fix_odd) tt)
                              (pending [m0; m3; m1; m5_stuck; m2])))
             res).
Proof.
  destruct (Process_resolves_every_message (plain fix_odd) (logging fix_odd) tt tt
              (pending [m0; m3; m1; m5_stuck; m2])) as [H1 H2].
  split; [exact H1 | apply H2; reflexivity].
Defined.

(** Nothing pending; and a batch of one undecodable message. *)
Lemma Process_empty_stream :
  (exists res s',
     BatchGo.Process (plain succeed) tt (pending []) = (Returns res, s')
     /\ nothing_to_do [] (added (BatchGo.Process (plain succeed) tt) (pending [])) res)
  /\ (exists res s',
        Part001.Process (logging succeed) tt (pending [m1]) = (Returns res, s')
        /\ nothing_to_do [m1]
             (unlogged (added (Part001.Process (logging succeed) tt) (pending [m1])))
             res).
Proof.
  split.
  - apply (proj1 (Process_nothing_to_do (plain succeed) (logging succeed) tt tt
                                        (pending []) [])).
    reflexivity.
  - apply (proj2 (Process_nothing_to_do (plain succeed) (logging succeed) tt tt
                                        (pending [m1]) [m1])); reflexivity.
Defined.

(** The run of the tests' poison-message scenario: the undecodable
    message is acked first, the handler gets the two others, and both
    are then acked. *)
Example Process_poison_scenario :
  BatchGo.Process (plain succeed) tt (pending [m0; m1; m2])
  = (Returns None,
     {| world := set_acked empty [1; 0; 2]%nat;
        trace := [EvFetch 10 [] (Val [m0; m1; m2]);
                  EvAck m1 None;
                  EvProcessor tt [0; 2]%N [None; None] [0; 2]%N;
                  EvAck m0 None;
                  EvAck m2 None] |}).
Proof. reflexivity. Qed.

(** The same batch when the ack of the undecodable message fails:
    nothing happens after it. *)
Example Process_poison_ack_fails :
  BatchGo.Process (plain succeed) tt (pending [m0; m1_stuck; m2])
  = (Returns
       (Some (joinError
                [errorString
                   "failed to unmarshal, skipping invalid message: invalid character looking for beginning of value";
                 errorString "nats: message was already acknowledged"])),
     {| world := empty;
        trace := [EvFetch 10 [] (Val [m0; m1_stuck; m2]);
                  EvAck m1_stuck
                        (Some (errorString "nats: message was already acknowledged"))] |}).
Proof. reflexivity. Qed.

(** A handler that fails the odd numbers: 3 is handed to the hook and
    nak'ed, which puts it back in the queue; the nak of 5 fails and is
    the error returned; 0 and 2 are acked all the same. *)
Example Process_failures_scenario :
  BatchGo.Process (plain fail_odd) tt (pending [m0; m3; m1; m5_stuck; m2])
  = (Returns
       (Some (joinError [errorString "nats: message was already acknowledged"])),
     {| world := set_queue (set_acked empty [1; 0; 2]%nat) [m3];
        trace := [EvFetch 10 [] (Val [m0; m3; m1; m5_stuck; m2]);
                  EvAck m1 None;
                  EvProcessor tt [0; 3; 5; 2]%N
                    [None; Some (errorString "odd"); Some (errorString "odd"); None]
                    [0; 3; 5; 2]%N;
                  EvAck m0 None;
                  EvErrorHandler 3%N (errorString "odd");
                  EvNak m3 None;
                  EvErrorHandler 5%N (errorString "odd");
                  EvNak m5_stuck
                        (Some (errorString "nats: message was already acknowledged"));
                  EvAck m2 None] |}).
Proof. reflexivity. Qed.

(** The same batch under a handler that also rewrites the odd numbers
    in the slice it is given: the hook gets what the handler wrote, 4
    and 6; the acks and naks are those of the messages as fetched. *)
Example Process_rewriting_scenario :
  BatchGo.Process (plain fix_odd) tt (pending [m0; m3; m1; m5_stuck; m2])
  = (Returns
       (Some (joinError [errorString "nats: message was already acknowledged"])),
     {| world := set_queue (set_acked empty [1; 0; 2]%nat) [m3];
        trace := [EvFetch 10 [] (Val [m0; m3; m1; m5_stuck; m2]);
                  EvAck m1 None;
                  EvProcessor tt [0; 3; 5; 2]%N
                    [None; Some (errorString "odd"); Some (errorString "odd"); None]
                    [0; 4; 6; 2]%N;
                  EvAck m0 None;
                  EvErrorHandler 4%N (errorString "odd");
                  EvNak m3 None;
                  EvErrorHandler 6%N (errorString "odd");
                  EvNak m5_stuck
                        (Some (errorString "nats: message was already acknowledged"));
                  EvAck m2 None] |}).
Proof. reflexivity. Qed.

(** A handler that answers an empty slice for two messages: the
    handler call is the last event and the two messages are left
    alone. *)
Example Process_short_slice_scenario :
  BatchGo.Process (plain too_short) tt (pending [m0; m1; m2])
  = (Returns
       (Some (errorString
                "expected a slice of 2 errors - one for each msg, but got 0")),
     {| world := set_acked empty [1]%nat;
        trace := [EvFetch 10 [] (Val [m0; m1; m2]);
                  EvAck m1 None;
                  EvProcessor tt [0; 2]%N [] [0; 2]%N] |}).
Proof. reflexivity. Qed.

(** The logging version without a logger panics at its first line. *)
Example Process_nil_logger :
  fst (Part001.Process (Part001.set_Log (logging succeed) None) tt
                       (pending [m0; m1; m2]))
  = Panics.
Proof. reflexivity. Qed.

(** The subject of the tests' first key. *)
Example keyToSubject_user1 :
  kv.keyToSubject users "user1"
  = "users.0a041b9462caa4a31bac3567e0b6e6fd9100787db2ab433d96f6d178cabfce90".
Proof. vm_compute. reflexivity. Qed.

(** On the in-process broker nothing reads the log counter. *)
Lemma logging_unobserved (p : handler (ext:=broker) N)
      (h : option (N -> error -> server -> server)) :
  (forall ctx msgs w1 w2,
      same_but_logs w1 w2 ->
      fst (p ctx msgs w1) = fst (p ctx msgs w2)
      /\ same_but_logs (snd (p ctx msgs w1)) (snd (p ctx msgs w2))) ->
  (forall f, h = Some f ->
             forall m e w1 w2, same_but_logs w1 w2 -> same_but_logs (f m e w1) (f m e w2)) ->
  unobserved_logging (ext:=broker) same_but_logs p h.
Proof.
  intros Hp Hh.
  constructor; auto.
  - intros c n opts [a b c0 d e f] [a' b' c' d' e' f'] H.
    unfold same_but_logs in *. simpl in *.
    injection H; intros; subst. split; reflexivity.
  - intros m [a b c0 d e f] [a' b' c' d' e' f'] H.
    unfold same_but_logs in *. simpl in *.
    injection H; intros; subst.
    unfold ack. destruct (ack_fails m); split; reflexivity.
  - intros m [a b c0 d e f] [a' b' c' d' e' f'] H.
    unfold same_but_logs in *. simpl in *.
    injection H; intros; subst.
    unfold nak. destruct (ack_fails m); split; reflexivity.
Qed.

(** The two versions on the same batch. *)
Lemma Process_versions_on_broker :
  exists res s1' s2',
    BatchGo.Process (without_Log (logging fail_odd)) tt
                    (pending [m0; m3; m1; m5_stuck; m2]) = (Returns res, s1')
    /\ Part001.Process (logging fail_odd) tt
                       (pending [m0; m3; m1; m5_stuck; m2]) = (Returns res, s2')
    /\ added (BatchGo.Process (without_Log (logging fail_odd)) tt)
             (pending [m0; m3; m1; m5_stuck; m2])
       = unlogged (added (Part001.Process (logging fail_odd) tt)
                         (pending [m0; m3; m1; m5_stuck; m2]))
    /\ same_but_logs (world s1') (world s2').
Proof.
  apply (Process_versions_agree (ext:=broker) (T:=N) same_but_logs (logging fail_odd) tt tt).
  - apply logging_unobserved.
    + intros ctx msgs w1 w2 H. split; [reflexivity | exact H].
    + intros f [= <-] m e w1 w2 H. exact H.
  - reflexivity.
  - reflexivity.
Defined.
End OnTheBroker.

(* ===================================================================== *)
(** * Further properties of the code *)
(* ===================================================================== *)

(** ** Subjects *)

Section SubjectProps.
Context {ext : External}.
Local Open Scope string_scope.

Lemma digit_injective (n m : nat) :
  (n < 16)%nat -> (m < 16)%nat -> hex.digit n = hex.digit m -> n = m.
Proof.
  intros Hn Hm.
  do 16 (destruct n as [| n]; [do 16 (destruct m as [| m]; [reflexivity || discriminate |]); lia |]).
  lia.
Qed.

Lemma byte_to_nat_injective (a b : byte) :
  N.to_nat (Byte.to_N a) = N.to_nat (Byte.to_N b) -> a = b.
Proof.
  intros H. apply N2Nat.inj in H.
  assert (Ha : Some a = Some b) by (rewrite <- (Byte.of_to_N a), <- (Byte.of_to_N b), H; reflexivity).
  injection Ha. auto.
Qed.

Lemma EncodeToString_cons (x : byte) (a : list byte) :
  hex.EncodeToString (x :: a)
  = String (hex.digit (N.to_nat (Byte.to_N x) / 16))
           (String (hex.digit (N.to_nat (Byte.to_N x) mod 16))
                   (hex.EncodeToString a)).
Proof. reflexivity. Qed.

Lemma String_inj2 (c1 c2 d1 d2 : ascii) (r r' : string) :
  String c1 (String c2 r) = String d1 (String d2 r') ->
  c1 = d1 /\ c2 = d2 /\ r = r'.
Proof. intros [= -> -> ->]. auto. Qed.

(** Distinct byte sequences have distinct hexadecimal texts. *)
Lemma EncodeToString_injective (a : list byte) :
  forall b, hex.EncodeToString a = hex.EncodeToString b -> a = b.
Proof.
  induction a as [| x a IH]; intros [| y b] H;
    try discriminate H; [reflexivity |].
  rewrite !EncodeToString_cons in H.
  apply String_inj2 in H. destruct H as (Hhi & Hlo & Hrest).
  pose proof (Byte.to_N_bounded x) as Hx.
  pose proof (Byte.to_N_bounded y) as Hy.
  set (n := N.to_nat (Byte.to_N x)) in *.
  set (m := N.to_nat (Byte.to_N y)) in *.
  assert (Hn : (n < 256)%nat) by (unfold n; lia).
  assert (Hm : (m < 256)%nat) by (unfold m; lia).
  apply digit_injective in Hhi;
    [| apply Nat.Div0.div_lt_upper_bound; lia | apply Nat.Div0.div_lt_upper_bound; lia].
  apply digit_injective in Hlo;
    [| apply Nat.mod_upper_bound; lia | apply Nat.mod_upper_bound; lia].
  assert (Hnm : n = m).
  { rewrite (Nat.div_mod_eq n 16), (Nat.div_mod_eq m 16). congruence. }
  f_equal; [apply byte_to_nat_injective; exact Hnm | apply IH; exact Hrest].
Qed.

Lemma length_append (a b : string) :
  String.length (a ++ b) = (String.length a + String.length b)%nat.
Proof. induction a as [| c a IH]; simpl; [reflexivity | rewrite IH; reflexivity]. Qed.

Lemma append_same_length_suffix (a : string) :
  forall b s t,
    String.length s = String.length t ->
    a ++ s = b ++ t -> a = b /\ s = t.
Proof.
  induction a as [| c a IH]; intros b s t Hlen H.
  - destruct b as [| d b]; [auto |].
    simpl in H. exfalso.
    assert (Hl : String.length s = String.length (String d (b ++ t))) by (rewrite H; reflexivity).
    simpl in Hl. rewrite length_append in Hl. lia.
  - destruct b as [| d b]; simpl in H.
    + exfalso.
      assert (Hl : String.length (String c (a ++ s)) = String.length t) by (rewrite H; reflexivity).
      simpl in Hl. rewrite length_append in Hl. lia.
    + injection H as <- H.
      destruct (IH b s t Hlen H) as [-> ->]. auto.
Qed.

(** X1.  Two keys of two stores get the same subject exactly when the
    stores have the same prefix and the keys the same SHA-256. *)
Theorem keyToSubject_collides_iff (db1 db2 : kv.KV) (key1 key2 : string) :
  kv.keyToSubject db1 key1 = kv.keyToSubject db2 key2
  <-> kv.subject db1 = kv.subject db2
      /\ sha256.Sum256 (list_byte_of_string key1)
         = sha256.Sum256 (list_byte_of_string key2).
Proof.
  unfold kv.keyToSubject, sha256.Sum, sha256.Write, sha256.New. simpl app.
  split.
  - intros H.
    apply append_same_length_suffix in H.
    + destruct H as [Hp H]. injection H as H.
      split; [exact Hp | apply EncodeToString_injective, H].
    + simpl. rewrite !EncodeToString_length, !Sum256_length. reflexivity.
  - intros [-> ->]. reflexivity.
Qed.
End SubjectProps.

(** ** Readers of the bucket *)

Section ReaderProps.
Context {ext : External} {T : Type} {codec : Codec T}.

Lemma entry_decoded (entry : KeyValueEntry) :
  Unmarshal (Value entry) zero = (entry_value entry, entry_error entry).
Proof. unfold entry_value, entry_error. destruct (Unmarshal (Value entry) zero); reflexivity. Qed.

(** One round of the loop of [History], on the first free slot. *)
Lemma History_loop_step (entry : KeyValueEntry) (rest : list KeyValueEntry)
      (done : list T) (slots : list T) (s : state World kv.call) :
  kv.History_loop (entry :: rest) (List.length done) (done ++ zero :: slots) s
  = match entry_error entry with
    | Some e => (Returns (done ++ entry_value entry :: slots, false, Some e), s)
    | None =>
        kv.History_loop rest (S (List.length done))
                        (done ++ entry_value entry :: slots) s
    end.
Proof.
  cbn [kv.History_loop].
  erewrite bind_returns by (apply index_middle; reflexivity).
  rewrite entry_decoded.
  erewrite bind_returns by (apply store_middle; reflexivity).
  destruct (entry_error entry); reflexivity.
Qed.

Lemma History_loop_all (entries : list KeyValueEntry) :
  forall (done : list T) (s : state World kv.call),
    Forall (fun e => entry_error e = None) entries ->
    kv.History_loop entries (List.length done)
                    (done ++ repeat zero (List.length entries)) s
    = (Returns (done ++ map entry_value entries, true, None), s).
Proof.
  induction entries as [| entry rest IH]; intros done s HF.
  - reflexivity.
  - inversion HF as [| ? ? He HF']; subst.
    cbn [repeat List.length map].
    rewrite History_loop_step, He.
    specialize (IH (done ++ [entry_value entry]) s HF').
    rewrite length_app, <- !app_assoc in IH. simpl in IH.
    rewrite Nat.add_1_r in IH. exact IH.
Qed.

Lemma History_loop_first_failure (good : list KeyValueEntry) :
  forall (bad : KeyValueEntry) (rest : list KeyValueEntry) (e : error)
         (done : list T) (s : state World kv.call),
    Forall (fun e => entry_error e = None) good ->
    entry_error bad = Some e ->
    kv.History_loop (good ++ bad :: rest) (List.length done)
                    (done ++ repeat zero (List.length (good ++ bad :: rest))) s
    = (Returns (done ++ map entry_value good ++ entry_value bad
                     :: repeat zero (List.length rest), false, Some e), s).
Proof.
  induction good as [| entry good IH]; intros bad rest e done s HF Hbad.
  - cbn [app repeat List.length map].
    rewrite History_loop_step, Hbad. reflexivity.
  - inversion HF as [| ? ? He HF']; subst.
    cbn [app repeat List.length map].
    rewrite History_loop_step, He.
    specialize (IH bad rest e (done ++ [entry_value entry]) s HF' Hbad).
    rewrite length_app, <- !app_assoc in IH. simpl in IH.
    rewrite Nat.add_1_r in IH. exact IH.
Qed.

(** X2.  When the broker answers the history of a key and every entry
    decodes, History returns the decoded values in the broker's order,
    found = true and a nil error. *)
Theorem History_decodes_in_order
        (db : kv.KV) (ctx : Ctx) (key : string) (s : state World kv.call)
        (entries : list KeyValueEntry) :
  fst (kv_History (kv.kv db) ctx (kv.keyToSubject db key) (world s)) = Val entries ->
  Forall (fun e => entry_error e = None) entries ->
  fst (kv.History db ctx key s) = Returns (map entry_value entries, true, None).
Proof.
  intros HB HF.
  unfold kv.History. erewrite bind_returns by apply extern_run.
  rewrite HB.
  rewrite (History_loop_all entries [] _ HF). reflexivity.
Qed.

(** X3.  When an entry of the history does not decode, History stops
    at the first such entry: it returns found = false and that decode
    error, with a slice as long as the history that holds the values
    decoded before it, what the decoder left of it, and zero values
    after. *)
Theorem History_stops_at_first_failure
        (db : kv.KV) (ctx : Ctx) (key : string) (s : state World kv.call)
        (good rest : list KeyValueEntry) (bad : KeyValueEntry) (e : error) :
  fst (kv_History (kv.kv db) ctx (kv.keyToSubject db key) (world s))
  = Val (good ++ bad :: rest) ->
  Forall (fun e => entry_error e = None) good ->
  entry_error bad = Some e ->
  fst (kv.History db ctx key s)
  = Returns (map entry_value good ++ entry_value bad
                 :: repeat zero (List.length rest), false, Some e).
Proof.
  intros HB HF Hbad.
  unfold kv.History. erewrite bind_returns by apply extern_run.
  rewrite HB.
  rewrite (History_loop_first_failure good bad rest e [] _ HF Hbad). reflexivity.
Qed.
End ReaderProps.

Section ReaderFlags.
Context {ext : External} {T : Type} {codec : Codec T}.

Lemma first_failure (entries : list KeyValueEntry) :
  Forall (fun e => entry_error (T:=T) e = None) entries
  \/ exists good bad rest e,
      entries = good ++ bad :: rest
      /\ Forall (fun e => entry_error (T:=T) e = None) good
      /\ entry_error (T:=T) bad = Some e.
Proof.
  induction entries as [| entry entries IH].
  - left. constructor.
  - destruct (entry_error (T:=T) entry) as [e |] eqn:He.
    + right. exists [], entry, entries, e. auto.
    + destruct IH as [IH | (good & bad & rest & e & -> & HF & Hb)].
      * left. constructor; assumption.
      * right. exists (entry :: good), bad, rest, e.
        repeat split; auto.
Qed.

Lemma error_eqb_true (a b : error) : error_eqb a b = true -> a = b.
Proof. apply error_eqb_eq. Qed.

Lemma error_eqb_false (a b : error) : error_eqb a b = false -> a <> b.
Proof. intros H ->. rewrite (proj2 (error_eqb_eq b b) eq_refl) in H. discriminate. Qed.

(** X4.  Get, GetRevision and History always return; none of them
    returns found = true together with an error; and each returns
    found = false with a nil error exactly when the broker answered
    [ErrKeyNotFound]. *)
Theorem readers_found_and_error
        (db : kv.KV) (ctx : Ctx) (key : string) (revision : N)
        (s : state World kv.call) :
  (exists v rev found err,
      fst (kv.Get (T:=T) db ctx key s) = Returns (v, rev, found, err)
      /\ (found = true -> err = None)
      /\ (found = false /\ err = None
          <-> fst (kv_Get (kv.kv db) ctx (kv.keyToSubject db key) (world s))
              = Fail ErrKeyNotFound))
  /\ (exists v found err,
        fst (kv.GetRevision (T:=T) db ctx key revision s) = Returns (v, found, err)
        /\ (found = true -> err = None)
        /\ (found = false /\ err = None
            <-> fst (kv_GetRevision (kv.kv db) ctx (kv.keyToSubject db key)
                                    revision (world s))
                = Fail ErrKeyNotFound))
  /\ (exists vs found err,
        fst (kv.History (T:=T) db ctx key s) = Returns (vs, found, err)
        /\ (found = true -> err = None)
        /\ (found = false /\ err = None
            <-> fst (kv_History (kv.kv db) ctx (kv.keyToSubject db key) (world s))
                = Fail ErrKeyNotFound)).
Proof.
  split; [| split].
  - unfold kv.Get. erewrite bind_returns by apply extern_run.
    destruct (fst (kv_Get (kv.kv db) ctx (kv.keyToSubject db key) (world s)))
      as [entry | e].
    + destruct (Unmarshal (Value entry) zero) as [v [e |]];
        eexists; eexists; eexists; eexists; (split; [reflexivity |]);
        (split; [intros H; try discriminate H; reflexivity |]);
        (split; [intros [H1 H2]; discriminate | discriminate]).
    + destruct (error_eqb e ErrKeyNotFound) eqn:He.
      * apply error_eqb_true in He. subst e.
        eexists; eexists; eexists; eexists. split; [reflexivity |].
        split; [reflexivity |]. split; auto.
      * apply error_eqb_false in He.
        eexists; eexists; eexists; eexists. split; [reflexivity |].
        split; [discriminate |].
        split; [intros [_ H]; discriminate H | intros [= H]; contradiction].
  - unfold kv.GetRevision. erewrite bind_returns by apply extern_run.
    destruct (fst (kv_GetRevision (kv.kv db) ctx (kv.keyToSubject db key)
                                  revision (world s))) as [entry | e].
    + destruct (Unmarshal (Value entry) zero) as [v [e |]];
        eexists; eexists; eexists; (split; [reflexivity |]);
        (split; [intros H; try discriminate H; reflexivity |]);
        (split; [intros [H1 H2]; discriminate | discriminate]).
    + destruct (error_eqb e ErrKeyNotFound) eqn:He.
      * apply error_eqb_true in He. subst e.
        eexists; eexists; eexists. split; [reflexivity |].
        split; [reflexivity |]. split; auto.
      * apply error_eqb_false in He.
        eexists; eexists; eexists. split; [reflexivity |].
        split; [discriminate |].
        split; [intros [_ H]; discriminate H | intros [= H]; contradiction].
  - unfold kv.History. erewrite bind_returns by apply extern_run.
    destruct (fst (kv_History (kv.kv db) ctx (kv.keyToSubject db key) (world s)))
      as [entries | e].
    + destruct (first_failure entries)
        as [HF | (good & bad & rest & e & -> & HF & Hb)].
      * rewrite (History_loop_all entries [] _ HF).
        eexists; eexists; eexists. split; [reflexivity |].
        split; [reflexivity |].
        split; [intros [H _]; discriminate H | discriminate].
      * rewrite (History_loop_first_failure good bad rest e [] _ HF Hb).
        eexists; eexists; eexists. split; [reflexivity |].
        split; [discriminate |].
        split; [intros [_ H]; discriminate H | discriminate].
    + destruct (error_eqb e ErrKeyNotFound) eqn:He.
      * apply error_eqb_true in He. subst e.
        eexists; eexists; eexists. split; [reflexivity |].
        split; [reflexivity |]. split; auto.
      * apply error_eqb_false in He.
        eexists; eexists; eexists. split; [reflexivity |].
        split; [discriminate |].
        split; [intros [_ H]; discriminate H | intros [= H]; contradiction].
Qed.

(** X5.  On a bucket that keeps what is written, with a codec that
    reads back what it wrote: a Get after a Put or an Update that
    succeeded returns the value written, the revision the write
    returned, found = true and a nil error; a Get after a Delete that
    succeeded returns found = false and a nil error. *)
Theorem Get_after_write
        (db : kv.KV) (ctx : Ctx) (key : string) (value : T)
        (s : state World kv.call) :
  keeps_writes (kv.kv db) ->
  round_trips (T:=T) ->
  (forall rev s1,
      kv.Put db ctx key value s = (Returns (rev, None), s1) ->
      fst (kv.Get db ctx key s1) = Returns (value, rev, true, None))
  /\ (forall last rev s1,
        kv.Update db ctx key value last s = (Returns (rev, None), s1) ->
        fst (kv.Get db ctx key s1) = Returns (value, rev, true, None))
  /\ (forall s1,
        kv.Delete db ctx key s = (Returns None, s1) ->
        fst (kv.Get (T:=T) db ctx key s1) = Returns (zero, 0%N, false, None)).
Proof.
  intros HK HRT.
  split; [| split].
  - intros rev s1 HP.
    unfold kv.Put in HP.
    destruct (Marshal value) as [entry | e] eqn:HM; [| discriminate HP].
    rewrite extern_run in HP.
    destruct (kv_Put (kv.kv db) ctx (kv.keyToSubject db key) entry (world s))
      as [[rev' err'] w1] eqn:HB.
    simpl in HP. injection HP as -> -> <-.
    unfold kv.Get. erewrite bind_returns by apply extern_run. cbn [world].
    rewrite (kw_put HK _ ctx _ _ _ HB). cbn [Value Revision].
    rewrite (HRT _ _ HM). reflexivity.
  - intros last rev s1 HU.
    unfold kv.Update in HU.
    destruct (Marshal value) as [entry | e] eqn:HM; [| discriminate HU].
    erewrite bind_returns in HU by apply extern_run.
    destruct (kv_Update (kv.kv db) ctx (kv.keyToSubject db key) entry last (world s))
      as [[rev' err'] w1] eqn:HB.
    cbn [fst snd] in HU.
    assert (Hres : rev' = rev /\ err' = None
                   /\ s1 = {| world := w1;
                              trace := trace s ++
                                [kv.CallUpdate (kv.keyToSubject db key) entry last
                                               (rev', err')] |}).
    { destruct (errors_As err') as [[[apiErr |] text] |];
        try (injection HU as -> -> <-; auto).
      destruct (ErrorCode apiErr =? JSErrCodeStreamWrongLastSequence)%Z;
        [discriminate HU | injection HU as -> -> <-; auto]. }
    destruct Hres as (-> & -> & ->).
    unfold kv.Get. erewrite bind_returns by apply extern_run. cbn [world].
    rewrite (kw_update HK _ ctx _ _ _ _ HB). cbn [Value Revision].
    rewrite (HRT _ _ HM). reflexivity.
  - intros s1 HD.
    unfold kv.Delete in HD. rewrite extern_run in HD.
    destruct (kv_Delete (kv.kv db) ctx (kv.keyToSubject db key) (world s))
      as [err' w1] eqn:HB.
    simpl in HD. injection HD as -> <-.
    unfold kv.Get. erewrite bind_returns by apply extern_run. cbn [world].
    rewrite (kw_delete HK _ ctx _ _ HB). reflexivity.
Qed.
End ReaderFlags.

(** ** The publisher *)

Section PublisherProps.
Context {ext : External} {conn : Connection} {T : Type} {codec : Codec T}.

(** How a Publish call can end: everything sent, or stopped at the
    first value that does not encode or is refused. *)
Lemma Publish_run (p : Part002.Publisher) (topic : string) (vs : list T) :
  forall s : state World Part002.sent,
  exists res s' tr,
    Part002.Publish p topic vs s = (Returns res, s')
    /\ trace s' = trace s ++ tr
    /\ ((res = None /\ exists bs, encoded vs bs /\ tr = published topic bs)
        \/ (exists pre v post bs,
               vs = pre ++ v :: post
               /\ encoded pre bs
               /\ ((exists e,
                       Marshal v = Fail e
                       /\ res = Some (Errorf_w "failed to marshal message: " e)
                       /\ tr = published topic bs)
                   \/ (exists b e,
                          Marshal v = Val b
                          /\ res = Some (Errorf_w "failed to publish message: " e)
                          /\ tr = published topic bs
                                  ++ [Part002.EvPublish topic b (Some e)])))).
Proof.
  induction vs as [| v vs IH]; intros s.
  - exists None, s, []. rewrite app_nil_r.
    split; [reflexivity |]. split; [reflexivity |].
    left. split; [reflexivity |]. exists []. split; [constructor | reflexivity].
  - cbn [Part002.Publish].
    destruct (Marshal v) as [b | e] eqn:HM.
    + erewrite bind_returns by apply extern_run.
      destruct (fst (conn_Publish (Part002.NC p) topic b (world s))) as [e |] eqn:HP.
      * eexists; eexists; exists [Part002.EvPublish topic b (Some e)].
        split; [reflexivity |]. split; [reflexivity |].
        right. exists [], v, vs, []. split; [reflexivity |].
        split; [constructor |].
        right. exists b, e. auto.
      * match goal with
        | |- context [Part002.Publish p topic vs ?s1] =>
            destruct (IH s1) as (res & s' & tr & HR & HT & Hcase)
        end.
        exists res, s', (Part002.EvPublish topic b None :: tr).
        split; [exact HR |].
        split; [rewrite HT; cbn [trace]; rewrite <- app_assoc; reflexivity |].
        destruct Hcase as [(-> & bs & Henc & ->)
                          | (pre & v' & post & bs & -> & Henc & Hfail)].
        -- left. split; [reflexivity |]. exists (b :: bs).
           split; [constructor; assumption | reflexivity].
        -- right. exists (v :: pre), v', post, (b :: bs).
           split; [reflexivity |].
           split; [constructor; assumption |].
           destruct Hfail as [(e & H1 & H2 & ->) | (b' & e & H1 & H2 & ->)].
           ++ left. exists e. auto.
           ++ right. exists b', e. auto.
    + exists (Some (Errorf_w "failed to marshal message: " e)), s, [].
      rewrite app_nil_r.
      split; [reflexivity |]. split; [reflexivity |].
      right. exists [], v, vs, []. split; [reflexivity |].
      split; [constructor |].
      left. exists e. auto.
Qed.

Lemma Publish_added (p : Part002.Publisher) (topic : string) (vs : list T)
      (s : state World Part002.sent) (res : goerror) (s' : state World Part002.sent)
      (tr : list Part002.sent) :
  Part002.Publish p topic vs s = (Returns res, s') ->
  trace s' = trace s ++ tr ->
  added (Part002.Publish p topic vs) s = tr.
Proof. intros HR HT. apply added_intro. rewrite HR. exact HT. Qed.

Lemma published_length (topic : string) (bs : list (list byte)) :
  List.length (published topic bs) = List.length bs.
Proof. apply length_map. Qed.

Lemma encoded_length (vs : list T) (bs : list (list byte)) :
  encoded vs bs -> List.length vs = List.length bs.
Proof. induction 1; simpl; auto. Qed.

(** X6.  Publish always returns.  It returns nil exactly when it has
    sent every value: one Publish per value on the topic, in order,
    each with the JSON encoding of its value and each accepted.  With
    no value it sends nothing and returns nil. *)
Theorem Publish_nil_iff_all_sent
        (p : Part002.Publisher) (topic : string) (vs : list T)
        (s : state World Part002.sent) :
  exists res s',
    Part002.Publish p topic vs s = (Returns res, s')
    /\ (res = None
        <-> exists bs,
            encoded vs bs
            /\ added (Part002.Publish p topic vs) s = published topic bs).
Proof.
  destruct (Publish_run p topic vs s) as (res & s' & tr & HR & HT & Hcase).
  exists res, s'. split; [exact HR |].
  rewrite (Publish_added _ _ _ _ _ _ _ HR HT).
  destruct Hcase as [(-> & bs & Henc & ->)
                    | (pre & v & post & bs & -> & Henc & Hfail)].
  - split; [intros _; exists bs; auto | reflexivity].
  - split.
    + intros ->.
      destruct Hfail as [(e & _ & H & _) | (b & e & _ & H & _)]; discriminate H.
    + intros (bs' & Henc' & Htr). exfalso.
      apply encoded_length in Henc. apply encoded_length in Henc'.
      rewrite length_app in Henc'. simpl in Henc'.
      destruct Hfail as [(e & _ & _ & ->) | (b & e & _ & _ & ->)].
      * apply (f_equal (@List.length _)) in Htr.
        rewrite !published_length in Htr. lia.
      * assert (Hin : In (Part002.EvPublish topic b (Some e)) (published topic bs')).
        { rewrite <- Htr. apply in_or_app. right. left. reflexivity. }
        unfold published in Hin. apply in_map_iff in Hin.
        destruct Hin as (x & Hx & _). discriminate Hx.
Qed.

(** X7.  When Publish returns an error, the values before the first
    one that failed have been sent and accepted, in order, and nothing
    after it is encoded or sent.  The error wraps the encoder's error
    when that value did not encode, and the connection's error when
    its Publish was refused. *)
Theorem Publish_error_after_prefix
        (p : Part002.Publisher) (topic : string) (vs : list T)
        (s : state World Part002.sent) (err : error) :
  fst (Part002.Publish p topic vs s) = Returns (Some err) ->
  exists pre v post bs,
    vs = pre ++ v :: post
    /\ encoded pre bs
    /\ ((exists e,
            Marshal v = Fail e
            /\ err = wrapError ("failed to marshal message: " ++ Error e) e
            /\ added (Part002.Publish p topic vs) s = published topic bs)
        \/ (exists b e,
               Marshal v = Val b
               /\ err = wrapError ("failed to publish message: " ++ Error e) e
               /\ added (Part002.Publish p topic vs) s
                  = published topic bs ++ [Part002.EvPublish topic b (Some e)])).
Proof.
  intros Herr.
  destruct (Publish_run p topic vs s) as (res & s' & tr & HR & HT & Hcase).
  rewrite (Publish_added _ _ _ _ _ _ _ HR HT).
  rewrite HR in Herr. simpl in Herr. injection Herr as ->.
  destruct Hcase as [(H & _) | (pre & v & post & bs & -> & Henc & Hfail)];
    [discriminate H |].
  exists pre, v, post, bs. split; [reflexivity |]. split; [exact Henc |].
  destruct Hfail as [(e & H1 & [= ->] & ->) | (b & e & H1 & [= ->] & ->)].
  - left. exists e. auto.
  - right. exists b, e. auto.
Qed.
End PublisherProps.

(** ** More on the runs of Process *)

Section MoreRunProps.
Context {ext : External} {T : Type} {codec : Codec T}.

(** *** Traces with and without log records *)

Lemma resolutions_unlogged (tr : list (event T)) :
  resolutions (unlogged tr) = resolutions tr.
Proof.
  induction tr as [| ev tr IH]; [reflexivity |].
  destruct ev; simpl; rewrite ?IH; reflexivity.
Qed.

Lemma broker_errors_unlogged (tr : list (event T)) :
  broker_errors (unlogged tr) = broker_errors tr.
Proof.
  induction tr as [| ev tr IH]; [reflexivity |].
  destruct ev as [n o [ms | e] | m [e |] | m [e |] | c b r | b e | l lv msg at'];
    simpl; rewrite ?IH; reflexivity.
Qed.

Lemma In_unlogged (ev : event T) (tr : list (event T)) :
  is_log ev = false -> In ev tr -> In ev (unlogged tr).
Proof.
  intros Hl Hin. apply filter_In. split; [exact Hin | rewrite Hl; reflexivity].
Qed.

Lemma resolutions_app (a b : list (event T)) :
  resolutions (a ++ b) = resolutions a ++ resolutions b.
Proof.
  induction a as [| ev a IH]; [reflexivity |].
  destruct ev; simpl; rewrite ?IH; reflexivity.
Qed.

Lemma broker_errors_app (a b : list (event T)) :
  broker_errors (a ++ b) = broker_errors a ++ broker_errors b.
Proof.
  induction a as [| ev a IH]; [reflexivity |].
  destruct ev as [n o [ms | e] | m [e |] | m [e |] | c b' r | b' e | l lv msg at'];
    simpl; rewrite ?IH; reflexivity.
Qed.

Lemma resolved_acked_poison (l : list Msg) :
  resolved (acked_poison (T:=T) l) = filter poison l.
Proof.
  unfold resolved, acked_poison.
  induction (filter poison l) as [| m ms IH]; simpl; [reflexivity |].
  f_equal. exact IH.
Qed.

Lemma broker_errors_acked_poison (l : list Msg) :
  broker_errors (acked_poison (T:=T) l) = [].
Proof.
  unfold acked_poison. induction (filter poison l) as [| m ms IH]; simpl; auto.
Qed.

Lemma resolved_app (a b : list (event T)) :
  resolved (a ++ b) = resolved a ++ resolved b.
Proof. unfold resolved. rewrite resolutions_app, map_app. reflexivity. Qed.

Lemma resolve_run_resolved (hook : bool) (msgs : list Msg) (bodies : list T)
      (errs : list goerror) (tr : list (event T)) (rs : list goerror) :
  resolve_run hook msgs bodies errs tr rs -> resolved tr = msgs.
Proof.
  unfold resolved.
  induction 1 as [| msg b msgs bs errs tr rs r _ IH
                  | msg b e msgs bs errs tr rs r _ IH]; simpl; auto.
  - rewrite IH. reflexivity.
  - destruct hook; simpl; rewrite IH; reflexivity.
Qed.

Lemma resolve_run_broker_errors (hook : bool) (msgs : list Msg) (bodies : list T)
      (errs : list goerror) (tr : list (event T)) (rs : list goerror) :
  resolve_run hook msgs bodies errs tr rs -> broker_errors tr = non_nil rs.
Proof.
  induction 1 as [| msg b msgs bs errs tr rs r _ IH
                  | msg b e msgs bs errs tr rs r _ IH]; simpl; auto.
  - destruct r; rewrite IH; reflexivity.
  - destruct hook, r; simpl; rewrite IH; reflexivity.
Qed.

Lemma partition_permutation (l : list Msg) :
  Permutation l (filter (poison (T:=T)) l ++ filter (decodes (T:=T)) l).
Proof.
  induction l as [| m l IH]; [constructor |].
  unfold poison in *. simpl. destruct (decodes m); simpl.
  - apply Permutation_cons_app, IH.
  - constructor. exact IH.
Qed.

(** Each fetched message is acked or nak'ed at most once, and nothing
    else is; when the handler answered with one outcome per message,
    each exactly once. *)
Lemma process_run_resolves_once n opts ctx hook (tr : list (event T)) res
      (messages : list Msg) :
  process_run n opts ctx hook tr res ->
  hd_error tr = Some (EvFetch n opts (Val messages)) ->
  exists untouched,
    Permutation messages (resolved tr ++ untouched)
    /\ forall ctx' bodies errs left,
        In (EvProcessor ctx' bodies errs left) tr ->
        List.length errs = List.length bodies ->
        untouched = [].
Proof.
  intros Hrun Hhd.
  destruct Hrun as [err | ms tr0 e ackErr HD | ms tr0 HD Hnone
                    | ms tr0 errs left HD Hsome Hleft Hlen
                    | ms tr0 errs left tr' rs HD Hsome Hleft HR];
    simpl in Hhd; try discriminate Hhd; injection Hhd as ->.
  - pose proof (decode_run_no_processor _ _ _ HD) as Hno.
    destruct (decode_run_aborted _ _ _ _ HD) as (pre & m & post & -> & Hm & ->).
    exists (filter decodes pre ++ post). split.
    + change (EvFetch n opts (Val (pre ++ m :: post))
                :: acked_poison pre ++ [EvAck m (Some ackErr)])
        with ([EvFetch n opts (Val (pre ++ m :: post))]
                ++ acked_poison pre ++ [EvAck m (Some ackErr)]).
      rewrite !resolved_app, resolved_acked_poison.
      cbn [resolved resolutions map app fst snd].
      rewrite <- !app_assoc. cbn [app].
      apply Permutation_trans
        with ((filter poison pre ++ filter decodes pre) ++ m :: post).
      * apply Permutation_app_tail, partition_permutation.
      * rewrite <- app_assoc. apply Permutation_app_head.
        apply Permutation_sym, Permutation_middle.
    + intros ctx' bodies errs left [H | H]; [discriminate H |].
      apply (filter_nil_not_In _ _ _ Hno) in H. discriminate H.
  - pose proof (decode_run_no_processor _ _ _ HD) as Hno.
    rewrite (decode_run_complete _ _ HD) in *.
    exists []. split; [| auto].
    change (EvFetch n opts (Val messages) :: acked_poison messages)
      with ([EvFetch n opts (Val messages)] ++ acked_poison messages).
    rewrite resolved_app, resolved_acked_poison, app_nil_r.
    cbn [resolved resolutions map app].
    rewrite <- (app_nil_r (filter poison messages)), <- Hnone.
    apply partition_permutation.
  - pose proof (decode_run_no_processor _ _ _ HD) as Hno.
    rewrite (decode_run_complete _ _ HD) in *.
    exists (filter decodes messages). split.
    + change (EvFetch n opts (Val messages)
                :: acked_poison messages
                ++ [EvProcessor ctx (map body (filter decodes messages)) errs left])
        with ([EvFetch n opts (Val messages)]
                ++ acked_poison messages
                ++ [EvProcessor ctx (map body (filter decodes messages)) errs left]).
      rewrite !resolved_app, resolved_acked_poison.
      cbn [resolved resolutions map app]. rewrite app_nil_r.
      apply partition_permutation.
    + intros ctx' bodies errs' left' [H | H]; [discriminate H |].
      apply in_app_or in H. destruct H as [H | [H | []]].
      * apply (filter_nil_not_In _ _ _ Hno) in H. discriminate H.
      * injection H as <- <- <- <-. rewrite length_map. intros Heq. contradiction.
  - rewrite (decode_run_complete _ _ HD) in *.
    exists []. split; [| auto]. rewrite app_nil_r.
    change (EvFetch n opts (Val messages)
              :: acked_poison messages
              ++ EvProcessor ctx (map body (filter decodes messages)) errs left :: tr')
      with ([EvFetch n opts (Val messages)]
              ++ acked_poison messages
              ++ [EvProcessor ctx (map body (filter decodes messages)) errs left] ++ tr').
    rewrite !resolved_app, resolved_acked_poison,
      (resolve_run_resolved _ _ _ _ _ _ HR).
    cbn [resolved resolutions map app].
    apply partition_permutation.
Qed.

(** X8.  In both versions, a Process call whose fetch delivered
    [messages] acks or naks each of them at most once and nothing
    else; when the handler answered with one outcome per message,
    each of them exactly once. *)
Theorem Process_resolves_each_message_once
        (b : BatchGo.BatchProcessor) (bl : Part001.BatchProcessor) (l : Logger)
        (ctx : Ctx) (s : state World (event T)) (messages : list Msg) :
  (fetched b s = Val messages ->
   exists untouched,
     Permutation messages (resolved (added (BatchGo.Process b ctx) s) ++ untouched)
     /\ forall ctx' bodies errs left,
         In (EvProcessor ctx' bodies errs left) (added (BatchGo.Process b ctx) s) ->
         List.length errs = List.length bodies ->
         untouched = [])
  /\ (Part001.Log bl = Some l ->
      fetched_log bl l s = Val messages ->
      exists untouched,
        Permutation messages
                    (resolved (added (Part001.Process bl ctx) s) ++ untouched)
        /\ forall ctx' bodies errs left,
            In (EvProcessor ctx' bodies errs left) (added (Part001.Process bl ctx) s) ->
            List.length errs = List.length bodies ->
            untouched = []).
Proof.
  split.
  - intros HF.
    destruct (Process_added b ctx s) as (res & s' & HP & Hhd & Hrun).
    rewrite HF in Hhd.
    apply (process_run_resolves_once _ _ _ _ _ _ _ Hrun Hhd).
  - intros HL HF.
    destruct (Process_log_added bl l ctx s HL) as (res & s' & HP & Hhd & Hrun).
    rewrite HF in Hhd.
    destruct (process_run_resolves_once _ _ _ _ _ _ _ Hrun Hhd)
      as (untouched & Hperm & Hall).
    exists untouched. split.
    + unfold resolved in *. rewrite resolutions_unlogged in Hperm. exact Hperm.
    + intros ctx' bodies errs left Hin Hlen.
      apply (Hall ctx' bodies errs left); [| exact Hlen].
      apply In_unlogged; [reflexivity | exact Hin].
Qed.
End MoreRunProps.

(** ** What Process returns and hands over *)

Section ResultProps.
Context {ext : External} {T : Type} {codec : Codec T}.

Lemma errors_As_joinError (es : list error) :
  errors_As_JetStreamError (joinError es) = first_JetStreamError es.
Proof.
  induction es as [| e es IH]; [reflexivity |].
  simpl in *. destruct (errors_As_JetStreamError e); [reflexivity | exact IH].
Qed.

Lemma errors_As_Join (rs : list goerror) :
  errors_As (errors_Join rs) = first_JetStreamError (non_nil rs).
Proof.
  unfold errors_Join. destruct (non_nil rs) as [| e es] eqn:H; [reflexivity |].
  unfold errors_As. apply errors_As_joinError.
Qed.

Lemma process_run_errors_As n opts ctx hook (tr : list (event T)) res :
  process_run n opts ctx hook tr res ->
  errors_As res = first_JetStreamError (broker_errors tr).
Proof.
  intros Hrun.
  destruct Hrun as [err | ms tr0 e ackErr HD | ms tr0 HD Hnone
                    | ms tr0 errs left HD Hsome Hleft Hlen
                    | ms tr0 errs left tr' rs HD Hsome Hleft HR].
  - simpl. destruct (errors_As_JetStreamError err); reflexivity.
  - destruct (decode_run_aborted _ _ _ _ HD) as (pre & m & post & -> & Hm & ->).
    cbn [broker_errors]. rewrite broker_errors_app, broker_errors_acked_poison.
    simpl. destruct (errors_As_JetStreamError ackErr); reflexivity.
  - rewrite (decode_run_complete _ _ HD).
    cbn [broker_errors]. rewrite broker_errors_acked_poison. reflexivity.
  - rewrite (decode_run_complete _ _ HD).
    cbn [broker_errors]. rewrite broker_errors_app, broker_errors_acked_poison.
    reflexivity.
  - rewrite (decode_run_complete _ _ HD).
    cbn [broker_errors]. rewrite broker_errors_app, broker_errors_acked_poison.
    cbn [broker_errors app].
    rewrite (resolve_run_broker_errors _ _ _ _ _ _ HR).
    apply errors_As_Join.
Qed.

(** X9.  In both versions, [errors.As] with a JetStream error target
    on the error Process returns finds the first JetStream error among
    the errors the broker answered during the call (a failed fetch, a
    failed ack, a failed nak, in that order), and nothing when there
    is none: a decode error, a handler outcome and the slice-length
    error never show as one. *)
Theorem Process_error_is_the_brokers
        (b : BatchGo.BatchProcessor) (bl : Part001.BatchProcessor) (l : Logger)
        (ctx : Ctx) (s : state World (event T)) :
  (exists res s',
      BatchGo.Process b ctx s = (Returns res, s')
      /\ errors_As res
         = first_JetStreamError (broker_errors (added (BatchGo.Process b ctx) s)))
  /\ (Part001.Log bl = Some l ->
      exists res s',
        Part001.Process bl ctx s = (Returns res, s')
        /\ errors_As res
           = first_JetStreamError
               (broker_errors (added (Part001.Process bl ctx) s))).
Proof.
  split.
  - destruct (Process_added b ctx s) as (res & s' & HP & _ & Hrun).
    exists res, s'. split; [exact HP |].
    apply (process_run_errors_As _ _ _ _ _ _ Hrun).
  - intros HL.
    destruct (Process_log_added bl l ctx s HL) as (res & s' & HP & _ & Hrun).
    exists res, s'. split; [exact HP |].
    rewrite <- broker_errors_unlogged.
    apply (process_run_errors_As _ _ _ _ _ _ Hrun).
Qed.

(** *** What was published is what the handler gets *)

Lemma encoded_all_decode (messages : list Msg) (vs : list T) :
  round_trips (T:=T) ->
  encoded vs (map msg_Data messages) ->
  filter decodes messages = messages
  /\ map body messages = vs
  /\ acked_poison (T:=T) messages = [].
Proof.
  intros HRT. revert vs.
  induction messages as [| m ms IH]; intros vs Henc.
  - inversion Henc. auto.
  - inversion Henc as [| v b vs' bs' Hv Hrest]; subst.
    destruct (IH vs' Hrest) as (H1 & H2 & H3).
    pose proof (HRT _ _ Hv) as HU.
    assert (Hd : decodes m = true) by (unfold decodes, decode_error; rewrite HU; reflexivity).
    assert (Hb : body m = v) by (unfold body; rewrite HU; reflexivity).
    unfold acked_poison, poison in *. simpl. rewrite Hd. simpl.
    rewrite H1, H2, Hb. auto.
Qed.

Lemma process_run_hands_over n opts ctx hook (tr : list (event T)) res
      (messages : list Msg) (vs : list T) :
  round_trips (T:=T) ->
  encoded vs (map msg_Data messages) ->
  messages <> [] ->
  process_run n opts ctx hook tr res ->
  hd_error tr = Some (EvFetch n opts (Val messages)) ->
  exists errs left post,
    tr = EvFetch n opts (Val messages) :: EvProcessor ctx vs errs left :: post.
Proof.
  intros HRT Henc Hne Hrun Hhd.
  destruct (encoded_all_decode _ _ HRT Henc) as (Hall & Hbody & Hpoison).
  destruct Hrun as [err | ms tr0 e ackErr HD | ms tr0 HD Hnone
                    | ms tr0 errs left HD Hsome Hleft Hlen
                    | ms tr0 errs left tr' rs HD Hsome Hleft HR];
    simpl in Hhd; try discriminate Hhd; injection Hhd as ->.
  - exfalso.
    destruct (decode_run_aborted _ _ _ _ HD) as (pre & m & post & Hms & Hm & _).
    assert (Hin : In m (filter decodes messages)).
    { rewrite Hall, Hms. apply in_or_app. right. left. reflexivity. }
    apply filter_In in Hin. destruct Hin as [_ Hd].
    unfold decodes in Hd. rewrite Hm in Hd. discriminate Hd.
  - exfalso. rewrite Hall in Hnone. contradiction.
  - rewrite (decode_run_complete _ _ HD), Hpoison, Hall, Hbody.
    eexists; eexists; eexists. reflexivity.
  - rewrite (decode_run_complete _ _ HD), Hpoison, Hall, Hbody.
    eexists; eexists; eexists. reflexivity.
Qed.

(** X10.  With a codec that reads back what it wrote, in both versions:
    when the payloads of the fetched messages are the encodings of the
    values [vs], as Publish sends them, Process acks nothing before the
    handler and hands it exactly [vs], in fetch order. *)
Theorem Process_hands_over_what_was_encoded
        (b : BatchGo.BatchProcessor) (bl : Part001.BatchProcessor) (l : Logger)
        (ctx : Ctx) (s : state World (event T)) (messages : list Msg)
        (vs : list T) :
  round_trips (T:=T) ->
  encoded vs (map msg_Data messages) ->
  messages <> [] ->
  (fetched b s = Val messages ->
   exists errs left post,
     added (BatchGo.Process b ctx) s
     = EvFetch (BatchGo.batchSize b) (BatchGo.fetchOpts b) (Val messages)
         :: EvProcessor ctx vs errs left :: post)
  /\ (Part001.Log bl = Some l ->
      fetched_log bl l s = Val messages ->
      exists errs left post,
        unlogged (added (Part001.Process bl ctx) s)
        = EvFetch (Part001.batchSize bl) (Part001.fetchOpts bl) (Val messages)
            :: EvProcessor ctx vs errs left :: post).
Proof.
  intros HRT Henc Hne. split.
  - intros HF.
    destruct (Process_added b ctx s) as (res & s' & HP & Hhd & Hrun).
    rewrite HF in Hhd.
    apply (process_run_hands_over _ _ _ _ _ _ _ _ HRT Henc Hne Hrun Hhd).
  - intros HL HF.
    destruct (Process_log_added bl l ctx s HL) as (res & s' & HP & Hhd & Hrun).
    rewrite HF in Hhd.
    apply (process_run_hands_over _ _ _ _ _ _ _ _ HRT Henc Hne Hrun Hhd).
Qed.
End ResultProps.

(** ** Indexing *)

Section RangeProps.
Context {ext : External} {T : Type} {codec : Codec T}.

Lemma bind_panics {W E A B} (m : M W E A) (k : A -> M W E B)
      (s s1 : state W E) :
  m s = (Panics, s1) -> bind m k s = (Panics, s1).
Proof. unfold bind. intros ->. reflexivity. Qed.

Lemma index_beyond {E A} (l : list A) (i : nat) (s : state World E) :
  (List.length l <= i)%nat -> index l i s = (Panics, s).
Proof.
  intros H. unfold index.
  rewrite (proj2 (nth_error_None l i) H). reflexivity.
Qed.

(** The resolve loop of [batch.go] on more outcomes than messages runs
    into [msgs[i]] out of range, if nothing panics before. *)
Lemma resolve_beyond (b : BatchGo.BatchProcessor) (errs : list goerror) :
  forall (i : nat) (pm ms : list Msg) (msgBodies : list T)
         (nackAckErrs : list goerror) (s : state World (event T)),
    List.length pm = i ->
    (List.length ms < List.length errs)%nat ->
    fst (BatchGo.resolve b msgBodies (pm ++ ms) errs i nackAckErrs s) = Panics.
Proof.
  induction errs as [| err rest IH];
    intros i pm ms msgBodies nackAckErrs s Hpm Hlt; [simpl in Hlt; lia |].
  cbn [BatchGo.resolve].
  destruct ms as [| msg ms].
  - rewrite (bind_panics _ _ s s); [reflexivity |].
    apply index_beyond. rewrite length_app. simpl. lia.
  - erewrite bind_returns by (apply index_middle, Hpm).
    match goal with
    | |- fst (bind ?m _ s) = _ =>
        assert (Hatt : (exists r s1, m s = (Returns r, s1))
                       \/ (exists s1, m s = (Panics, s1)))
    end.
    { destruct err as [e |].
      - destruct (BatchGo.ErrorHandler b) as [h |].
        + unfold index. destruct (nth_error msgBodies i) as [bd |].
          * left. unfold call_ErrorHandler, Nak, ret.
            erewrite bind_returns.
            2:{ erewrite bind_returns by reflexivity. apply extern_run. }
            rewrite extern_run. eauto.
          * right. eexists.
            apply bind_panics. apply bind_panics. reflexivity.
        + left. erewrite bind_returns by reflexivity.
          unfold Nak. rewrite extern_run. eauto.
      - left. unfold Ack. rewrite extern_run. eauto. }
    destruct Hatt as [(r & s1 & Hatt) | (s1 & Hatt)].
    + erewrite bind_returns by exact Hatt.
      unfold store. destruct (set_nth nackAckErrs i r) as [nae |].
      * erewrite bind_returns by reflexivity.
        replace (pm ++ msg :: ms) with ((pm ++ [msg]) ++ ms)
          by (rewrite <- app_assoc; reflexivity).
        apply IH; [rewrite length_app; simpl; lia | simpl in Hlt; lia].
      * rewrite (bind_panics _ _ s1 s1); reflexivity.
    + rewrite (bind_panics _ _ s s1); [reflexivity | exact Hatt].
Qed.

(** The same for the loop of the logging version. *)
Lemma resolve_log_beyond (b : Part001.BatchProcessor) (errs : list goerror) :
  forall (i : nat) (pm ms : list Msg) (msgBodies : list T) (n : Z)
         (nackAckErrs : list goerror) (s : state World (event T)),
    List.length pm = i ->
    (List.length ms < List.length errs)%nat ->
    fst (Part001.resolve b msgBodies (pm ++ ms) errs i n nackAckErrs s) = Panics.
Proof.
  induction errs as [| err rest IH];
    intros i pm ms msgBodies n nackAckErrs s Hpm Hlt; [simpl in Hlt; lia |].
  cbn [Part001.resolve].
  destruct ms as [| msg ms].
  - rewrite (bind_panics _ _ s s); [reflexivity |].
    apply index_beyond. rewrite length_app. simpl. lia.
  - erewrite bind_returns by (apply index_middle, Hpm).
    match goal with
    | |- fst (bind ?m _ s) = _ =>
        assert (Hatt : (exists p s1, m s = (Returns p, s1))
                       \/ (exists s1, m s = (Panics, s1)))
    end.
    { destruct err as [e |].
      - destruct (Part001.Log b) as [l |];
          [| right; eexists; apply bind_panics; reflexivity].
        erewrite bind_returns by apply log_run.
        destruct (Part001.ErrorHandler b) as [h |].
        + unfold index. destruct (nth_error msgBodies i) as [bd |].
          * left. unfold call_ErrorHandler, Nak, ret.
            erewrite bind_returns.
            2:{ erewrite bind_returns by reflexivity. apply extern_run. }
            erewrite bind_returns by apply extern_run. eauto.
          * right. eexists.
            apply bind_panics. apply bind_panics. reflexivity.
        + left. erewrite bind_returns by reflexivity.
          unfold Nak. erewrite bind_returns by apply extern_run.
          unfold ret. eauto.
      - left. unfold Ack. erewrite bind_returns by apply extern_run.
        unfold ret. eauto. }
    destruct Hatt as [([n1 r] & s1 & Hatt) | (s1 & Hatt)].
    + erewrite bind_returns by exact Hatt. cbv beta iota.
      unfold store. destruct (set_nth nackAckErrs i r) as [nae |].
      * erewrite bind_returns by reflexivity.
        replace (pm ++ msg :: ms) with ((pm ++ [msg]) ++ ms)
          by (rewrite <- app_assoc; reflexivity).
        apply IH; [rewrite length_app; simpl; lia | simpl in Hlt; lia].
      * rewrite (bind_panics _ _ s1 s1); reflexivity.
    + rewrite (bind_panics _ _ s s1); [reflexivity | exact Hatt].
Qed.

(** X11.  Provided the calls that Process makes outside its own code
    return (the consumer's Fetch, the messages' Ack and Nak, the
    handler, the hook, and the logger when there is one: the embedding
    takes them to return), Process returns, in both versions: none of
    its own statements panics, and in particular every index into
    msgs, msgBodies and nackAckErrs is in range, whatever the handler
    answers.  This rests on the length check before the loop: the same
    loop run on more outcomes than messages does panic.  The logging
    version with a nil logger panics at its first statement, before
    any call on the broker. *)
Theorem Process_indexes_in_range
        (b : BatchGo.BatchProcessor) (bl : Part001.BatchProcessor)
        (ctx : Ctx) (s : state World (event T)) :
  (exists res s', BatchGo.Process b ctx s = (Returns res, s'))
  /\ (Part001.Log bl <> None ->
      exists res s', Part001.Process bl ctx s = (Returns res, s'))
  /\ (Part001.Log bl = None -> Part001.Process bl ctx s = (Panics, s))
  /\ (forall (msgs : list Msg) (msgBodies : list T) (errs nackAckErrs : list goerror)
             (n : Z) (s0 : state World (event T)),
         (List.length msgs < List.length errs)%nat ->
         fst (BatchGo.resolve b msgBodies msgs errs 0 nackAckErrs s0) = Panics
         /\ fst (Part001.resolve bl msgBodies msgs errs 0 n nackAckErrs s0) = Panics).
Proof.
  split; [| split; [| split]].
  - destruct (Process_run b ctx s) as (res & s' & _ & HP & _). eauto.
  - intros HL. destruct (Part001.Log bl) as [l |] eqn:Hl; [| contradiction].
    destruct (Process_log_run bl l ctx s Hl) as (res & s' & _ & HP & _). eauto.
  - intros HL. unfold Part001.Process. rewrite HL. reflexivity.
  - intros msgs msgBodies errs nackAckErrs n s0 Hlt. split.
    + apply (resolve_beyond b errs 0 [] msgs); [reflexivity | exact Hlt].
    + apply (resolve_log_beyond bl errs 0 [] msgs); [reflexivity | exact Hlt].
Qed.
End RangeProps.


(** ** What the logging version reports *)

Section CountProps.
Context {ext : External} {T : Type} {codec : Codec T}.
Local Open Scope Z_scope.

Lemma bind_inv {W E A B} (m : M W E A) (k : A -> M W E B)
      (s s' : state W E) (x : B) :
  bind m k s = (Returns x, s') ->
  exists a s1, m s = (Returns a, s1) /\ k a s1 = (Returns x, s').
Proof.
  unfold bind. destruct (m s) as [[a | |] s1]; try discriminate.
  intros H. exists a, s1. split; [reflexivity | exact H].
Qed.

Lemma int_small (z : Z) : - 2 ^ 63 <= z < 2 ^ 63 -> int z = z.
Proof.
  intros H. unfold int.
  rewrite Z.mod_small; lia.
Qed.

Lemma failed_count_bounds (errs : list goerror) :
  0 <= failed_count errs <= len errs.
Proof.
  unfold failed_count, len.
  induction errs as [| [e |] rest IH]; simpl List.length; lia.
Qed.

Lemma errCount_after_small (errs : list goerror) :
  forall n, 0 <= n -> n + len errs < 2 ^ 63 ->
            errCount_after n errs = n + failed_count errs.
Proof.
  unfold failed_count, len.
  induction errs as [| [e |] rest IH]; intros n Hn Hb; simpl in *.
  - lia.
  - rewrite int_small by lia. rewrite IH by lia. lia.
  - rewrite IH by lia. lia.
Qed.

(** The counter [resolve] returns is the one it was given, stepped once
    for each error outcome. *)
Lemma resolve_log_count (b : Part001.BatchProcessor) (l : Logger)
      (errs : list goerror) :
  Part001.Log b = Some l ->
  forall (i : nat) (msgBodies : list T) (msgs : list Msg) (n : Z)
         (nackAckErrs rs : list goerror) (n' : Z) (s s' : state World (event T)),
    Part001.resolve b msgBodies msgs errs i n nackAckErrs s
    = (Returns (n', rs), s') ->
    n' = errCount_after n errs.
Proof.
  intros HL.
  induction errs as [| err rest IH];
    intros i msgBodies msgs n nackAckErrs rs n' s s' H.
  - simpl in H. injection H; intros; subst. reflexivity.
  - cbn [Part001.resolve] in H.
    apply bind_inv in H. destruct H as (msg & s1 & _ & H).
    apply bind_inv in H. destruct H as ([n1 r] & s2 & Hatt & H).
    apply bind_inv in H. destruct H as (nack' & s3 & _ & H).
    apply IH in H. subst n'.
    destruct err as [e |]; cbn [errCount_after].
    + apply bind_inv in Hatt. destruct Hatt as (u & s4 & _ & Hatt).
      apply bind_inv in Hatt. destruct Hatt as (u' & s5 & _ & Hatt).
      apply bind_inv in Hatt. destruct Hatt as (r' & s6 & _ & Hatt).
      injection Hatt; intros; subst. reflexivity.
    + apply bind_inv in Hatt. destruct Hatt as (r' & s6 & _ & Hatt).
      injection Hatt; intros; subst. reflexivity.
Qed.

Lemma not_In_no_processor (tr : list (event T)) ctx bodies errs left :
  filter is_processor tr = [] -> ~ In (EvProcessor ctx bodies errs left) tr.
Proof.
  intros H Hin. apply (filter_nil_not_In _ _ _ H) in Hin. discriminate Hin.
Qed.

(** X12.  The logging version closes a run whose handler answered one
    outcome per message with the record "Acknowledged messages", whose
    attributes count the outcomes: [nacks] is the number of error
    outcomes and [acks] the number of nil outcomes, whatever the broker
    answered to the acks and naks themselves. *)
Theorem Process_logs_the_counts (bl : Part001.BatchProcessor) (l : Logger)
        (ctx ctx' : Ctx) (s : state World (event T))
        (bodies : list T) (errs : list goerror) (left : list T) :
  Part001.Log bl = Some l ->
  In (EvProcessor ctx' bodies errs left) (added (Part001.Process bl ctx) s) ->
  List.length errs = List.length bodies ->
  len errs < 2 ^ 63 ->
  exists pre,
    added (Part001.Process bl ctx) s
    = pre ++ [EvLog l LevelDebug "Acknowledged messages"
                [slog_Int "acks" (len errs - failed_count errs);
                 slog_Int "nacks" (failed_count errs)]].
Proof.
  intros HL Hin Hlen Hsmall.
  revert Hin.
  unfold Part001.Process. rewrite HL.
  match goal with
  | |- In _ (added ?m s) -> exists pre, added ?m s = _ => set (run := m)
  end.
  assert (Hrun : exists tr,
             trace (snd (run s)) = trace s ++ tr
             /\ (In (EvProcessor ctx' bodies errs left) tr ->
                 exists pre,
                   tr = pre ++ [EvLog l LevelDebug "Acknowledged messages"
                                  [slog_Int "acks" (len errs - failed_count errs);
                                   slog_Int "nacks" (failed_count errs)]])).
  2:{ destruct Hrun as (tr & HT & Hlast).
      rewrite (added_intro run s tr HT). exact Hlast. }
  subst run.
  erewrite bind_returns by apply log_run.
  unfold Fetch at 1. erewrite bind_returns by apply extern_run.
  cbn [world trace].
  destruct (fst (consumer_Fetch (Part001.consumer bl) (Part001.batchSize bl)
                                (Part001.fetchOpts bl) _))
    as [messages | err]; cbv beta iota.
  - erewrite bind_returns by apply log_run.
    match goal with
    | |- context [bind (Part001.decode messages [] []) _ ?s1] =>
        destruct (decode_spec messages [] [] s1)
          as (tr & o & r & s2 & HD & HT & HR & HO)
    end.
    rewrite <- decode_same in HD.
    erewrite bind_returns by exact HD.
    cbn [trace world] in HT.
    pose proof (decode_run_no_processor _ _ _ HR) as Hnp.
    destruct o as [[e ackErr] |]; subst r.
    + eexists. split; [unfold ret; cbn [snd trace]; rewrite HT, <- !app_assoc; reflexivity |].
      cbn [app]. intros [Hin | [Hin | [Hin | Hin]]]; try discriminate.
      exfalso. exact (not_In_no_processor _ _ _ _ _ Hnp Hin).
    + cbn [app].
      destruct (len (filter decodes messages) =? 0)%Z eqn:Hz.
      * erewrite bind_returns by apply log_run.
        eexists. split; [unfold ret; cbn [snd trace]; rewrite HT, <- !app_assoc; reflexivity |].
        cbn [app]. intros [Hin | [Hin | [Hin | Hin]]]; try discriminate.
        apply in_app_or in Hin. destruct Hin as [Hin | [Hin | []]];
          [| discriminate].
        exfalso. exact (not_In_no_processor _ _ _ _ _ Hnp Hin).
      * erewrite bind_returns by apply log_run.
        erewrite bind_returns by apply call_processor_run. cbv beta iota.
        cbn [world trace].
        match goal with
        | |- context [EvProcessor ctx _ ?r ?lf] =>
            set (answer := r); set (written := lf)
        end.
        assert (Hwritten : List.length written
                           = List.length (filter decodes messages))
          by (unfold written; rewrite overwrite_length, length_map; reflexivity).
        destruct (len answer =? len (filter decodes messages))%Z eqn:Hlens;
          cbn [negb].
        -- apply len_eqb in Hlens.
           erewrite bind_returns by apply log_run.
           match goal with
           | |- context [bind (Part001.resolve bl _ _ answer 0 _ _) _ ?s3] =>
               destruct (resolve_log_spec bl l answer HL 0 []
                           (filter decodes messages)
                           [] written [] 0%Z s3)
                 as (tr' & rs & n' & s4 & HRes & HT' & HRun);
               try reflexivity; try congruence
           end.
           cbn [app] in HRes.
           pose proof (resolve_log_count bl l answer HL _ _ _ _ _ _ _ _ _ HRes)
             as Hn.
           erewrite bind_returns by exact HRes. cbv beta iota.
           erewrite bind_returns by apply log_run.
           eexists.
           split; [unfold ret; cbn [snd trace]; rewrite HT'; cbn [trace];
                   rewrite HT, <- !app_assoc; reflexivity |].
           cbn [app].
           intros [Hin | [Hin | [Hin | Hin]]]; try discriminate.
           apply in_app_or in Hin. destruct Hin as [Hin | Hin];
             [exfalso; exact (not_In_no_processor _ _ _ _ _ Hnp Hin) |].
           destruct Hin as [Hin | [Hin | [Hin | Hin]]]; try discriminate.
           ++ injection Hin; intros Hl He Hb Hc. subst errs.
              rewrite Hn, errCount_after_small by lia.
              rewrite Z.add_0_l.
              replace (len (filter decodes messages)) with (len answer)
                by (unfold len; rewrite Hlens; reflexivity).
              rewrite int_small
                by (pose proof (failed_count_bounds answer); unfold len in *; lia).
              eexists (_ :: _ :: _ :: tr ++ _ :: _ :: _ :: tr').
              cbn [app]. rewrite <- !app_assoc. reflexivity.
           ++ exfalso. apply in_app_or in Hin. destruct Hin as [Hin | [Hin | []]];
                [| discriminate].
              apply resolve_run_no_processor in HRun.
              assert (Hu : In (EvProcessor ctx' bodies errs left) (unlogged tr'))
                by (apply filter_In; split; [exact Hin | reflexivity]).
              exact (not_In_no_processor _ _ _ _ _ HRun Hu).
        -- eexists. split; [unfold ret; cbn [snd trace]; rewrite HT, <- !app_assoc; reflexivity |].
           cbn [app]. intros [Hin | [Hin | [Hin | Hin]]]; try discriminate.
           apply in_app_or in Hin. destruct Hin as [Hin | Hin];
             [exfalso; exact (not_In_no_processor _ _ _ _ _ Hnp Hin) |].
           destruct Hin as [Hin | [Hin | []]]; try discriminate.
           injection Hin; intros Hl He Hb Hc. subst errs bodies.
           exfalso. rewrite length_map in Hlen.
           apply len_eqb in Hlen. congruence.
  - eexists. split; [unfold ret; cbn [snd trace]; rewrite <- !app_assoc; reflexivity |].
    cbn [app]. intros [Hin | [Hin | []]]; discriminate.
Qed.
End CountProps.

(** ** The constructor and its options *)

Section ConstructorProps.
Context {ext : External} {T : Type} {codec : Codec T}.

Lemma options_fold (os : list option_of) :
  forall bp : Part001.BatchProcessor (T:=T),
    fold_left (fun bp opt => opt bp) (map (to_opt (T:=T)) os) bp
    = {| Part001.Log := logger_of os (Part001.Log bp);
         Part001.consumer := Part001.consumer bp;
         Part001.batchSize := Part001.batchSize bp;
         Part001.processor := Part001.processor bp;
         Part001.fetchOpts := Part001.fetchOpts bp ++ fetch_of os;
         Part001.ErrorHandler := Part001.ErrorHandler bp |}.
Proof.
  induction os as [| [log | opts] rest IH]; intros bp; simpl.
  - rewrite app_nil_r. destruct bp; reflexivity.
  - rewrite IH. reflexivity.
  - rewrite IH. simpl. rewrite <- app_assoc. reflexivity.
Qed.

(** X13.  The constructor of the logging version, given any sequence of
    its two options: the processor it builds logs to the logger of the
    last WithLogger option, or to the discarding logger when there is
    none or the last one gave nil; its fetch options are those of the
    WithFetchOpts options concatenated in order; it has no hook; and
    without its logger it is the processor that the constructor of
    [batch.go] builds from the same consumer, batch size, handler and
    those fetch options. *)
Theorem NewBatchProcessor_applies_options
        (consumer : Consumer) (batchSize : Z)
        (processor : handler T)
        (os : list option_of) :
  Part001.NewBatchProcessor consumer batchSize processor (map (to_opt (T:=T)) os)
  = {| Part001.Log := Some match logger_of os None with
                           | Some l => l
                           | None => discardLogger
                           end;
       Part001.consumer := consumer;
       Part001.batchSize := batchSize;
       Part001.processor := processor;
       Part001.fetchOpts := fetch_of os;
       Part001.ErrorHandler := None |}
  /\ without_Log (Part001.NewBatchProcessor consumer batchSize processor
                    (map (to_opt (T:=T)) os))
     = BatchGo.NewBatchProcessor consumer batchSize processor (fetch_of os).
Proof.
  unfold Part001.NewBatchProcessor. rewrite options_fold.
  cbn [Part001.Log Part001.consumer Part001.batchSize Part001.processor
       Part001.fetchOpts Part001.ErrorHandler app].
  destruct (logger_of os None) as [l |]; split; reflexivity.
Qed.
End ConstructorProps.

(** ** The loop over an iterator *)

Section IterateProps.
Context {ext : External} {T : Type} {codec : Codec T}.

Lemma List_watching (db : kv.KV) (ctx : Ctx) (s : state World kv.call)
      (kw : KeyWatcher) :
  fst (kv_WatchAll (kv.kv db) ctx [IgnoreDeletes] (world s)) = Val kw ->
  exists it,
    kv.List (T:=T) db ctx s
    = (Returns (Some it),
       {| world := snd (kv_WatchAll (kv.kv db) ctx [IgnoreDeletes] (world s));
          trace := trace s ++ [kv.CallWatchAll [IgnoreDeletes] (Val kw)] |})
    /\ watching kw it
    /\ kv.stop it = extern (watcher_Stop kw) (kv.CallStop kw).
Proof.
  intros HW. unfold kv.List, bind. rewrite extern_run, HW.
  eexists. split; [reflexivity |]. split; [| reflexivity].
  intros s0. unfold kv.Next, bind. simpl. rewrite extern_run.
  destruct (updates_recv kw (world s0)) as [r w1]. simpl.
  destruct r as [[update |] |]; try reflexivity.
  destruct (Unmarshal (Value update) zero) as [v [e |]]; reflexivity.
Qed.

Lemma watching_assigned (kw : KeyWatcher) (it : kv.Iterator) (v : T)
      (e : goerror) :
  watching kw it -> watching kw (assigned it v e).
Proof.
  intros Hit s0. specialize (Hit s0). unfold kv.Next in *. exact Hit.
Qed.

Lemma collect_delivers (kw : KeyWatcher) (stopper : option KeyValueEntry)
      (good : list KeyValueEntry) :
  Forall (fun e => entry_error (T:=T) e = None) good ->
  stops (T:=T) stopper ->
  forall (fuel : nat) (it : kv.Iterator) (actual : list T)
         (s : state World kv.call),
    watching kw it ->
    delivers kw (world s) (map Some good ++ [stopper]) ->
    (List.length good < fuel)%nat ->
    exists v s',
      Part000.collect fuel it actual s
      = (Returns (Some (actual ++ map entry_value good,
                        assigned it v (stopper_error stopper))), s')
      /\ trace s' = trace s ++ recvs kw (map Some good ++ [stopper]).
Proof.
  intros Hgood Hstop.
  induction Hgood as [| e good He _ IH]; intros fuel it actual s Hit Hd Hf.
  - destruct fuel as [| fuel]; [simpl in Hf; lia |].
    simpl in Hd. inversion Hd as [| w u w' rest Hr _]; subst.
    cbn [Part000.collect]. unfold bind at 1. rewrite (Hit s), Hr.
    rewrite app_nil_r.
    destruct stopper as [entry |]; cbn [stopper_error stops] in *.
    + unfold entry_error in *.
      destruct (Unmarshal (Value entry) zero) as [v err].
      cbn [snd] in *. destruct err as [err |]; [| contradiction].
      cbn [is_nil]. eexists; eexists. split; reflexivity.
    + eexists; eexists. split; reflexivity.
  - destruct fuel as [| fuel]; [simpl in Hf; lia |].
    simpl in Hd, Hf. inversion Hd as [| w u w' rest Hr Hd']; subst.
    cbn [Part000.collect]. unfold bind at 1. rewrite (Hit s), Hr.
    assert (Hv : entry_value (T:=T) e = fst (Unmarshal (Value e) zero))
      by reflexivity.
    cbn [map]. rewrite Hv. clear Hv.
    unfold entry_error in He.
    destruct (Unmarshal (Value e) zero) as [v err]. cbn [snd fst] in *.
    subst err. cbn [is_nil].
    match goal with
    | |- context [Part000.collect fuel ?it1 ?acc ?s1] =>
        destruct (IH fuel it1 acc s1) as (v' & s' & HC & HT);
        [apply watching_assigned, Hit | exact Hd' | lia |]
    end.
    exists v', s'. split.
    + cbn [kv.It_Value assigned] in HC |- *.
      rewrite HC. rewrite <- app_assoc. reflexivity.
    + rewrite HT. cbn [trace map app recvs]. rewrite <- app_assoc. reflexivity.
Qed.

(** X14.  The loop the tests write over List, on an established watch
    whose channel delivers entries that decode and then one that stops
    the loop (the nil entry, or an entry that does not decode): with
    more rounds than those entries, the loop ends with the decoded
    values in delivery order and the iterator's Error is nil after the
    nil entry, the decode error otherwise; the broker saw the WatchAll,
    one receive per delivered item, and one Stop, in that order. *)
Theorem list_all_collects_in_order
        (db : kv.KV) (ctx : Ctx) (s : state World kv.call) (kw : KeyWatcher)
        (good : list KeyValueEntry) (stopper : option KeyValueEntry)
        (fuel : nat) :
  fst (kv_WatchAll (kv.kv db) ctx [IgnoreDeletes] (world s)) = Val kw ->
  delivers kw (snd (kv_WatchAll (kv.kv db) ctx [IgnoreDeletes] (world s)))
           (map Some good ++ [stopper]) ->
  Forall (fun e => entry_error (T:=T) e = None) good ->
  stops (T:=T) stopper ->
  (List.length good < fuel)%nat ->
  fst (Part000.list_all (T:=T) fuel db ctx s)
  = Returns (Some (map entry_value good, stopper_error stopper))
  /\ exists r,
      added (Part000.list_all (T:=T) fuel db ctx) s
      = [kv.CallWatchAll [IgnoreDeletes] (Val kw)]
        ++ recvs kw (map Some good ++ [stopper])
        ++ [kv.CallStop kw r].
Proof.
  intros HW Hd Hgood Hstop Hf.
  destruct (List_watching db ctx s kw HW) as (it & HL & Hit & Hst).
  match type of HL with
  | _ = (_, ?s1) =>
      destruct (collect_delivers kw stopper good Hgood Hstop fuel it [] s1 Hit Hd Hf)
        as (v & s2 & HC & HT)
  end.
  cbn [app] in HC. cbn [trace] in HT.
  assert (HR : Part000.list_all (T:=T) fuel db ctx s
               = (Returns (Some (map entry_value good, stopper_error stopper)),
                  {| world := snd (watcher_Stop kw (world s2));
                     trace := trace s2
                              ++ [kv.CallStop kw (fst (watcher_Stop kw (world s2)))] |})).
  { unfold Part000.list_all.
    erewrite bind_returns by exact HL. cbv beta iota.
    erewrite bind_returns by exact HC. cbv beta iota.
    unfold kv.Stop. cbn [kv.stop assigned]. rewrite Hst.
    erewrite bind_returns by apply extern_run. reflexivity. }
  split; [rewrite HR; reflexivity |].
  eexists. apply added_intro. rewrite HR. cbn [snd trace].
  rewrite HT, <- !app_assoc. reflexivity.
Qed.
End IterateProps.

(** ** The properties above, on the in-process broker *)

Section OnTheBrokerMore.
Import Mem Fixtures MemConn MoreFixtures.
Local Open Scope string_scope.
Local Open Scope list_scope.

Lemma records_snoc (key : string) (x : option (list byte))
      (ws : list (string * option (list byte))) :
  forall rev,
    records key rev (ws ++ [(key, x)])
    = records key rev ws ++ [((rev + N.of_nat (List.length ws))%N, x)].
Proof.
  induction ws as [| [k v] ws IH]; intros rev; simpl records.
  - rewrite String.eqb_refl. simpl. rewrite N.add_0_r. reflexivity.
  - rewrite IH.
    replace (rev + 1 + N.of_nat (List.length ws))%N
      with (rev + N.of_nat (List.length ((k, v) :: ws)))%N
      by (simpl List.length; lia).
    destruct (String.eqb k key); reflexivity.
Qed.

Lemma last_Some_snoc {A} (l : list A) (x : A) :
  last (map Some (l ++ [x])) None = Some x.
Proof.
  rewrite map_app. apply last_last.
Qed.

Lemma current_snoc (key : string) (x : option (list byte)) (w : server) :
  current key (set_writes w (writes w ++ [(key, x)]))
  = Some (N.of_nat (List.length (writes w ++ [(key, x)])), x).
Proof.
  unfold current. cbn [writes set_writes].
  rewrite records_snoc, last_Some_snoc.
  rewrite length_app. simpl List.length.
  f_equal. f_equal. lia.
Qed.

(** The in-process bucket keeps what is written. *)
Lemma Mem_keeps_writes (b : bucket) : keeps_writes (ext:=broker) b.
Proof.
  split.
  - intros ctx ctx' subj bytes w rev w1 H.
    cbn in H. unfold put in H. injection H; intros; subst.
    cbn. unfold get. rewrite current_snoc. reflexivity.
  - intros ctx ctx' subj bytes last w rev w1 H.
    cbn in H. unfold update in H.
    destruct (N.eqb _ last); [| discriminate H].
    unfold put in H. injection H; intros; subst.
    cbn. unfold get. rewrite current_snoc. reflexivity.
  - intros ctx ctx' subj w w1 H.
    cbn in H. unfold delete in H. injection H; intros; subst.
    cbn. unfold get. rewrite current_snoc. reflexivity.
Qed.

Lemma string_of_uint_nonempty (d : Decimal.uint) :
  d <> Decimal.Nil -> NilEmpty.string_of_uint d <> "".
Proof.
  destruct d; intros H; try discriminate. contradiction.
Qed.

Lemma parse_itoa (n : N) :
  parse (list_byte_of_string (itoa (Z.of_N n))) = Some n.
Proof.
  unfold parse, itoa.
  destruct n as [| p]; [reflexivity |].
  cbn [Z.of_N Z.to_int NilZero.string_of_int].
  assert (Hs : NilZero.string_of_uint (Pos.to_uint p)
               = NilEmpty.string_of_uint (Pos.to_uint p)).
  { unfold NilZero.string_of_uint.
    destruct (Pos.to_uint p) eqn:Hp; try reflexivity.
    exfalso. exact (Unsigned.to_uint_nonnil p Hp). }
  rewrite Hs.
  destruct (list_byte_of_string (NilEmpty.string_of_uint (Pos.to_uint p)))
    as [| c rest] eqn:Hb.
  - exfalso.
    apply (string_of_uint_nonempty (Pos.to_uint p) (Unsigned.to_uint_nonnil p)).
    rewrite <- (string_of_list_byte_of_string
                  (NilEmpty.string_of_uint (Pos.to_uint p))), Hb.
    reflexivity.
  - rewrite <- Hb, string_of_list_byte_of_string, NilEmpty.usu.
    unfold N.of_uint. rewrite Unsigned.of_to. reflexivity.
Qed.

(** The JSON of a number reads back as the number. *)
Lemma json_N_round_trips : round_trips (T:=N).
Proof.
  intros v b H. cbn in H. injection H as <-.
  cbn. rewrite parse_itoa. reflexivity.
Qed.

(** The history of "user1" after the two writes of the tests. *)
Lemma History_two_puts :
  fst (kv.History users tt "user1" two_puts) = Returns ([42; 43]%N, true, None).
Proof.
  change [42; 43]%N
    with (map (entry_value (T:=N))
              [ {| Value := bytes "42"; Revision := 1 |};
                {| Value := bytes "43"; Revision := 2 |} ]).
  apply (History_decodes_in_order (T:=N) users tt "user1" two_puts
           [ {| Value := bytes "42"; Revision := 1 |};
             {| Value := bytes "43"; Revision := 2 |} ]).
  - vm_compute. reflexivity.
  - repeat constructor.
Defined.

(** A history whose second entry is not a number: the first value, then
    zero values, and the decode error. *)
Lemma History_broken :
  fst (kv.History users tt "user1" broken_history)
  = Returns ([7; 0; 0]%N, false,
             Some (errorString "invalid character looking for beginning of value")).
Proof.
  change [7; 0; 0]%N
    with (map (entry_value (T:=N)) [ {| Value := bytes "7"; Revision := 1 |} ]
          ++ entry_value (T:=N) {| Value := bytes "oops"; Revision := 2 |}
          :: repeat zero (List.length [ {| Value := bytes "9"; Revision := 3 |} ])).
  apply (History_stops_at_first_failure (T:=N) users tt "user1" broken_history
           [ {| Value := bytes "7"; Revision := 1 |} ]
           [ {| Value := bytes "9"; Revision := 3 |} ]
           {| Value := bytes "oops"; Revision := 2 |}).
  - vm_compute. reflexivity.
  - repeat constructor.
  - reflexivity.
Defined.

(** A value put on the in-process bucket is the one Get returns, at
    the revision the Put returned. *)
Lemma Get_after_Put_on_broker :
  exists rev s1,
    kv.Put users tt "user1" 42%N fresh = (Returns (rev, None), s1)
    /\ fst (kv.Get users tt "user1" s1) = Returns (42%N, rev, true, None).
Proof.
  destruct (Get_after_write (T:=N) users tt "user1" 42%N fresh
              (Mem_keeps_writes Connected) json_N_round_trips) as [HP _].
  eexists; eexists. split; [vm_compute; reflexivity |].
  apply HP. vm_compute. reflexivity.
Defined.

(** The second of three values is too large for the server: the first
    has been sent, the third has not. *)
Lemma Publish_too_large :
  exists pre v post bs,
    [1; 123456; 3]%N = pre ++ v :: post
    /\ encoded pre bs
    /\ ((exists e,
            Marshal v = Fail e
            /\ Errorf_w "failed to publish message: "
                        (errorString "nats: maximum payload exceeded")
               = wrapError ("failed to marshal message: " ++ Error e) e
            /\ added (Part002.Publish narrow "orders" [1; 123456; 3]%N) fresh
               = published "orders" bs)
        \/ (exists b e,
               Marshal v = Val b
               /\ Errorf_w "failed to publish message: "
                           (errorString "nats: maximum payload exceeded")
                  = wrapError ("failed to publish message: " ++ Error e) e
               /\ added (Part002.Publish narrow "orders" [1; 123456; 3]%N) fresh
                  = published "orders" bs
                    ++ [Part002.EvPublish "orders" b (Some e)])).
Proof.
  apply (Publish_error_after_prefix (T:=N) narrow "orders" [1; 123456; 3]%N fresh).
  vm_compute. reflexivity.
Defined.

(** A batch with a message that does not decode and one whose nak
    fails, under a handler that fails odd numbers: each of the five
    messages is acked or nak'ed once. *)
Lemma Process_mixed_batch_once :
  (exists untouched,
      Permutation [m0; m3; m1; m5_stuck; m2]
                  (resolved (added (BatchGo.Process (plain fail_odd) tt)
                                   (pending [m0; m3; m1; m5_stuck; m2]))
                   ++ untouched)
      /\ forall ctx' bodies errs left,
          In (EvProcessor ctx' bodies errs left)
             (added (BatchGo.Process (plain fail_odd) tt)
                    (pending [m0; m3; m1; m5_stuck; m2])) ->
          List.length errs = List.length bodies ->
          untouched = [])
  /\ (exists untouched,
         Permutation [m0; m3; m1; m5_stuck; m2]
                     (resolved (added (Part001.Process (logging fail_odd) tt)
                                      (pending [m0; m3; m1; m5_stuck; m2]))
                      ++ untouched)
         /\ forall ctx' bodies errs left,
             In (EvProcessor ctx' bodies errs left)
                (added (Part001.Process (logging fail_odd) tt)
                       (pending [m0; m3; m1; m5_stuck; m2])) ->
             List.length errs = List.length bodies ->
             untouched = []).
Proof.
  destruct (Process_resolves_each_message_once
              (ext:=broker) (T:=N) (plain fail_odd) (logging fail_odd) tt tt
              (pending [m0; m3; m1; m5_stuck; m2]) [m0; m3; m1; m5_stuck; m2])
    as [H1 H2].
  split; [apply H1; reflexivity | apply H2; reflexivity].
Defined.

(** Three messages that carry the JSON of 0, 2 and 3: the handler gets
    0, 2 and 3. *)
Lemma Process_hands_over_numbers :
  (exists errs left post,
      added (BatchGo.Process (plain succeed) tt) (pending [m0; m2; m3])
      = EvFetch 10 [] (Val [m0; m2; m3])
          :: EvProcessor tt [0; 2; 3]%N errs left :: post)
  /\ (exists errs left post,
         unlogged (added (Part001.Process (logging succeed) tt)
                         (pending [m0; m2; m3]))
         = EvFetch 10 [] (Val [m0; m2; m3])
             :: EvProcessor tt [0; 2; 3]%N errs left :: post).
Proof.
  destruct (Process_hands_over_what_was_encoded
              (ext:=broker) (T:=N) (plain succeed) (logging succeed) tt tt
              (pending [m0; m2; m3]) [m0; m2; m3] [0; 2; 3]%N
              json_N_round_trips)
    as [H1 H2].
  - repeat constructor.
  - discriminate.
  - split; [apply H1; reflexivity | apply H2; reflexivity].
Defined.

(** Four messages decode, the handler fails the two odd ones: the
    closing record counts two acks and two naks, though one of the naks
    was refused by the broker. *)
Lemma Process_logs_two_and_two :
  exists pre,
    added (Part001.Process (logging fail_odd) tt)
          (pending [m0; m3; m1; m5_stuck; m2])
    = pre ++ [EvLog tt LevelDebug "Acknowledged messages"
                [slog_Int "acks" 2; slog_Int "nacks" 2]].
Proof.
  apply (Process_logs_the_counts
           (ext:=broker) (T:=N) (logging fail_odd) tt tt tt
           (pending [m0; m3; m1; m5_stuck; m2]) [0; 3; 5; 2]%N
           [None; Some (errorString "odd"); Some (errorString "odd"); None]
           [0; 3; 5; 2]%N).
  - reflexivity.
  - vm_compute. do 5 right. left. reflexivity.
  - reflexivity.
  - vm_compute. reflexivity.
Defined.

(** A bucket whose second record is not a number: the loop collects
    the first value and leaves the decode error in the iterator. *)
Lemma list_all_good_then_bad :
  fst (Part000.list_all (T:=N) 2 users tt good_then_bad)
  = Returns (Some ([8]%N,
                   Some (errorString
                           "invalid character looking for beginning of value")))
  /\ exists r,
      added (Part000.list_all (T:=N) 2 users tt) good_then_bad
      = [kv.CallWatchAll [tt] (Val tt)]
        ++ recvs tt (map Some [ {| Value := bytes "8"; Revision := 1 |} ]
                     ++ [Some {| Value := bytes "oops"; Revision := 2 |}])
        ++ [kv.CallStop tt r].
Proof.
  change [8]%N
    with (map (entry_value (T:=N)) [ {| Value := bytes "8"; Revision := 1 |} ]).
  change (Some (errorString "invalid character looking for beginning of value"))
    with (stopper_error (T:=N) (Some {| Value := bytes "oops"; Revision := 2 |})).
  apply (list_all_collects_in_order
           (ext:=broker) (T:=N) users tt good_then_bad tt
           [ {| Value := bytes "8"; Revision := 1 |} ]
           (Some {| Value := bytes "oops"; Revision := 2 |}) 2).
  - reflexivity.
  - eapply delivers_cons; [reflexivity |].
    eapply delivers_cons; [reflexivity |].
    apply delivers_nil.
  - repeat constructor.
  - discriminate.
  - simpl. lia.
Defined.
End OnTheBrokerMore.
